(** * auto-scout: the aggregation / dedup / summarize / merge pipeline

    A shallow embedding of [auto-scout.js] and the properties its
    specification states about it.

    Conventions of the embedding.
    - A JavaScript string is the list of its UTF-16 code units ([jsstring]).
    - A parsed JSON value is a [json]; a value read from a property is a
      [jsval], [None] being [undefined].  The corpus is the array the
      corpus file parses to: a list of JSON values, whatever they are.
    - The Numbers the script computes with are the ids: integer-valued
      doubles or an infinity ([number]).  Every operation on them rounds
      as IEEE 754 binary64 does, to nearest, ties to even.
    - What reaches the program from outside (command line, environment,
      network replies, the clock, the corpus file) is a field of [World].
      Of the console only the conversions to string are modelled, which
      can throw; the text printed is not.
    - A run reads the result of each source adapter from [World].  The
      three feed adapters and [fetchOpenAlex] are also embedded on their
      own, as functions of the answer to their request; [withFeeds] puts
      the feed adapters into a world.  [fetchPubMed] indexes the reply
      with keys computed from it and [hebrewDate] formats the clock;
      neither is embedded.
    - Of the pages that read the corpus, [loadArticle] of
      [js/article.js] and [applyFilters] of [js/archive.js] are embedded
      from the point where the corpus has been fetched and parsed. *)

From Stdlib Require Import String Ascii.
From Stdlib Require Import List ZArith NArith Lia Bool.
From Stdlib Require Decimal DecimalN.
Import ListNotations.

Set Warnings "-register-all".
Local Open Scope N_scope.

(* ================================================================== *)
(** * Part I. Definitions                                               *)
(* ================================================================== *)

(** ** Strings *)

Definition jsstring := list N.

(** A literal, from its ASCII spelling. *)
Definition js (s : String.string) : jsstring :=
  map N_of_ascii (String.list_ascii_of_string s).

(** [a === b] on two strings. *)
Fixpoint streq (a b : jsstring) : bool :=
  match a, b with
  | [], [] => true
  | x :: a', y :: b' => (x =? y) && streq a' b'
  | _, _ => false
  end.

(** WhiteSpace and LineTerminator code units: what [trim] removes and
    what [parseInt] skips. *)
Definition isWhiteSpace (c : N) : bool :=
  ((9 <=? c) && (c <=? 13)) || (c =? 32) || (c =? 160) || (c =? 5760)
  || ((8192 <=? c) && (c <=? 8202)) || (c =? 8232) || (c =? 8233)
  || (c =? 8239) || (c =? 8287) || (c =? 12288) || (c =? 65279).

Fixpoint trimStart (s : jsstring) : jsstring :=
  match s with
  | [] => []
  | c :: r => if isWhiteSpace c then trimStart r else s
  end.

Definition trimEnd (s : jsstring) : jsstring := rev (trimStart (rev s)).

Definition trim (s : jsstring) : jsstring := trimEnd (trimStart s).

(** *** Code points *)

Definition isHighSurrogate (c : N) : bool := (55296 <=? c) && (c <=? 56319).
Definition isLowSurrogate (c : N) : bool := (56320 <=? c) && (c <=? 57343).

(** The code points of a string: a high surrogate followed by a low one
    is one code point, any other unit is a code point of its own. *)
Fixpoint codePoints (s : jsstring) : list N :=
  match s with
  | [] => []
  | c :: r =>
      match r with
      | d :: r' =>
          if isHighSurrogate c && isLowSurrogate d
          then (65536 + (c - 55296) * 1024 + (d - 56320)) :: codePoints r'
          else c :: codePoints r
      | [] => [c]
      end
  end.

Definition codeUnits (cp : N) : jsstring :=
  if cp <? 65536 then [cp]
  else [55296 + (cp - 65536) / 1024; 56320 + (cp - 65536) mod 1024].

(** *** Lower case

    [String.prototype.toLowerCase] maps each code point by the Unicode
    default case conversion.  The tables below are those of Unicode 14:
    [lowerTable] holds the simple lower-case mappings outside Basic Latin
    as runs [(first, last, step, image of first)]; the two other tables
    hold the code points that are Case_Ignorable, and those that are
    Cased without being Case_Ignorable, as ranges. *)

Definition lowerTable : list (N * N * N * N) :=
  [(192, 214, 1, 224); (216, 222, 1, 248); (256, 302, 2, 257);
   (306, 310, 2, 307); (313, 327, 2, 314); (330, 374, 2, 331);
   (376, 376, 1, 255); (377, 381, 2, 378); (385, 385, 1, 595);
   (386, 388, 2, 387); (390, 390, 1, 596); (391, 391, 1, 392);
   (393, 394, 1, 598); (395, 395, 1, 396); (398, 398, 1, 477);
   (399, 399, 1, 601); (400, 400, 1, 603); (401, 401, 1, 402);
   (403, 403, 1, 608); (404, 404, 1, 611); (406, 406, 1, 617);
   (407, 407, 1, 616); (408, 408, 1, 409); (412, 412, 1, 623);
   (413, 413, 1, 626); (415, 415, 1, 629); (416, 420, 2, 417);
   (422, 422, 1, 640); (423, 423, 1, 424); (425, 425, 1, 643);
   (428, 428, 1, 429); (430, 430, 1, 648); (431, 431, 1, 432);
   (433, 434, 1, 650); (435, 437, 2, 436); (439, 439, 1, 658);
   (440, 440, 1, 441); (444, 444, 1, 445); (452, 452, 1, 454);
   (453, 453, 1, 454); (455, 455, 1, 457); (456, 456, 1, 457);
   (458, 458, 1, 460); (459, 475, 2, 460); (478, 494, 2, 479);
   (497, 497, 1, 499); (498, 500, 2, 499); (502, 502, 1, 405);
   (503, 503, 1, 447); (504, 542, 2, 505); (544, 544, 1, 414);
   (546, 562, 2, 547); (570, 570, 1, 11365); (571, 571, 1, 572);
   (573, 573, 1, 410); (574, 574, 1, 11366); (577, 577, 1, 578);
   (579, 579, 1, 384); (580, 580, 1, 649); (581, 581, 1, 652);
   (582, 590, 2, 583); (880, 882, 2, 881); (886, 886, 1, 887);
   (895, 895, 1, 1011); (902, 902, 1, 940); (904, 906, 1, 941);
   (908, 908, 1, 972); (910, 911, 1, 973); (913, 929, 1, 945);
   (931, 939, 1, 963); (975, 975, 1, 983); (984, 1006, 2, 985);
   (1012, 1012, 1, 952); (1015, 1015, 1, 1016); (1017, 1017, 1, 1010);
   (1018, 1018, 1, 1019); (1021, 1023, 1, 891); (1024, 1039, 1, 1104);
   (1040, 1071, 1, 1072); (1120, 1152, 2, 1121); (1162, 1214, 2, 1163);
   (1216, 1216, 1, 1231); (1217, 1229, 2, 1218); (1232, 1326, 2, 1233);
   (1329, 1366, 1, 1377); (4256, 4293, 1, 11520); (4295, 4295, 1, 11559);
   (4301, 4301, 1, 11565); (5024, 5103, 1, 43888); (5104, 5109, 1, 5112);
   (7312, 7354, 1, 4304); (7357, 7359, 1, 4349); (7680, 7828, 2, 7681);
   (7838, 7838, 1, 223); (7840, 7934, 2, 7841); (7944, 7951, 1, 7936);
   (7960, 7965, 1, 7952); (7976, 7983, 1, 7968); (7992, 7999, 1, 7984);
   (8008, 8013, 1, 8000); (8025, 8031, 2, 8017); (8040, 8047, 1, 8032);
   (8072, 8079, 1, 8064); (8088, 8095, 1, 8080); (8104, 8111, 1, 8096);
   (8120, 8121, 1, 8112); (8122, 8123, 1, 8048); (8124, 8124, 1, 8115);
   (8136, 8139, 1, 8050); (8140, 8140, 1, 8131); (8152, 8153, 1, 8144);
   (8154, 8155, 1, 8054); (8168, 8169, 1, 8160); (8170, 8171, 1, 8058);
   (8172, 8172, 1, 8165); (8184, 8185, 1, 8056); (8186, 8187, 1, 8060);
   (8188, 8188, 1, 8179); (8486, 8486, 1, 969); (8490, 8490, 1, 107);
   (8491, 8491, 1, 229); (8498, 8498, 1, 8526); (8544, 8559, 1, 8560);
   (8579, 8579, 1, 8580); (9398, 9423, 1, 9424); (11264, 11311, 1, 11312);
   (11360, 11360, 1, 11361); (11362, 11362, 1, 619); (11363, 11363, 1, 7549);
   (11364, 11364, 1, 637); (11367, 11371, 2, 11368); (11373, 11373, 1, 593);
   (11374, 11374, 1, 625); (11375, 11375, 1, 592); (11376, 11376, 1, 594);
   (11378, 11378, 1, 11379); (11381, 11381, 1, 11382); (11390, 11391, 1, 575);
   (11392, 11490, 2, 11393); (11499, 11501, 2, 11500); (11506, 11506, 1, 11507);
   (42560, 42604, 2, 42561); (42624, 42650, 2, 42625); (42786, 42798, 2, 42787);
   (42802, 42862, 2, 42803); (42873, 42875, 2, 42874); (42877, 42877, 1, 7545);
   (42878, 42886, 2, 42879); (42891, 42891, 1, 42892); (42893, 42893, 1, 613);
   (42896, 42898, 2, 42897); (42902, 42920, 2, 42903); (42922, 42922, 1, 614);
   (42923, 42923, 1, 604); (42924, 42924, 1, 609); (42925, 42925, 1, 620);
   (42926, 42926, 1, 618); (42928, 42928, 1, 670); (42929, 42929, 1, 647);
   (42930, 42930, 1, 669); (42931, 42931, 1, 43859); (42932, 42946, 2, 42933);
   (42948, 42948, 1, 42900); (42949, 42949, 1, 642); (42950, 42950, 1, 7566);
   (42951, 42953, 2, 42952); (42960, 42960, 1, 42961); (42966, 42968, 2, 42967);
   (42997, 42997, 1, 42998); (65313, 65338, 1, 65345); (66560, 66599, 1, 66600);
   (66736, 66771, 1, 66776); (66928, 66938, 1, 66967); (66940, 66954, 1, 66979);
   (66956, 66962, 1, 66995); (66964, 66965, 1, 67003); (68736, 68786, 1, 68800);
   (71840, 71871, 1, 71872); (93760, 93791, 1, 93792); (125184, 125217, 1, 125218)].

Definition caseIgnorableTable : list (N * N) :=
  [(39, 39); (46, 46); (58, 58); (94, 94); (96, 96);
   (168, 168); (173, 173); (175, 175); (180, 180); (183, 184);
   (688, 879); (884, 885); (890, 890); (900, 901); (903, 903);
   (1155, 1161); (1369, 1369); (1375, 1375); (1425, 1469); (1471, 1471);
   (1473, 1474); (1476, 1477); (1479, 1479); (1524, 1524); (1536, 1541);
   (1552, 1562); (1564, 1564); (1600, 1600); (1611, 1631); (1648, 1648);
   (1750, 1757); (1759, 1768); (1770, 1773); (1807, 1807); (1809, 1809);
   (1840, 1866); (1958, 1968); (2027, 2037); (2042, 2042); (2045, 2045);
   (2070, 2093); (2137, 2139); (2184, 2184); (2192, 2193); (2200, 2207);
   (2249, 2306); (2362, 2362); (2364, 2364); (2369, 2376); (2381, 2381);
   (2385, 2391); (2402, 2403); (2417, 2417); (2433, 2433); (2492, 2492);
   (2497, 2500); (2509, 2509); (2530, 2531); (2558, 2558); (2561, 2562);
   (2620, 2620); (2625, 2626); (2631, 2632); (2635, 2637); (2641, 2641);
   (2672, 2673); (2677, 2677); (2689, 2690); (2748, 2748); (2753, 2757);
   (2759, 2760); (2765, 2765); (2786, 2787); (2810, 2815); (2817, 2817);
   (2876, 2876); (2879, 2879); (2881, 2884); (2893, 2893); (2901, 2902);
   (2914, 2915); (2946, 2946); (3008, 3008); (3021, 3021); (3072, 3072);
   (3076, 3076); (3132, 3132); (3134, 3136); (3142, 3144); (3146, 3149);
   (3157, 3158); (3170, 3171); (3201, 3201); (3260, 3260); (3263, 3263);
   (3270, 3270); (3276, 3277); (3298, 3299); (3328, 3329); (3387, 3388);
   (3393, 3396); (3405, 3405); (3426, 3427); (3457, 3457); (3530, 3530);
   (3538, 3540); (3542, 3542); (3633, 3633); (3636, 3642); (3654, 3662);
   (3761, 3761); (3764, 3772); (3782, 3782); (3784, 3789); (3864, 3865);
   (3893, 3893); (3895, 3895); (3897, 3897); (3953, 3966); (3968, 3972);
   (3974, 3975); (3981, 3991); (3993, 4028); (4038, 4038); (4141, 4144);
   (4146, 4151); (4153, 4154); (4157, 4158); (4184, 4185); (4190, 4192);
   (4209, 4212); (4226, 4226); (4229, 4230); (4237, 4237); (4253, 4253);
   (4348, 4348); (4957, 4959); (5906, 5908); (5938, 5939); (5970, 5971);
   (6002, 6003); (6068, 6069); (6071, 6077); (6086, 6086); (6089, 6099);
   (6103, 6103); (6109, 6109); (6155, 6159); (6211, 6211); (6277, 6278);
   (6313, 6313); (6432, 6434); (6439, 6440); (6450, 6450); (6457, 6459);
   (6679, 6680); (6683, 6683); (6742, 6742); (6744, 6750); (6752, 6752);
   (6754, 6754); (6757, 6764); (6771, 6780); (6783, 6783); (6823, 6823);
   (6832, 6862); (6912, 6915); (6964, 6964); (6966, 6970); (6972, 6972);
   (6978, 6978); (7019, 7027); (7040, 7041); (7074, 7077); (7080, 7081);
   (7083, 7085); (7142, 7142); (7144, 7145); (7149, 7149); (7151, 7153);
   (7212, 7219); (7222, 7223); (7288, 7293); (7376, 7378); (7380, 7392);
   (7394, 7400); (7405, 7405); (7412, 7412); (7416, 7417); (7468, 7530);
   (7544, 7544); (7579, 7679); (8125, 8125); (8127, 8129); (8141, 8143);
   (8157, 8159); (8173, 8175); (8189, 8190); (8203, 8207); (8216, 8217);
   (8228, 8228); (8231, 8231); (8234, 8238); (8288, 8292); (8294, 8303);
   (8305, 8305); (8319, 8319); (8336, 8348); (8400, 8432); (11388, 11389);
   (11503, 11505); (11631, 11631); (11647, 11647); (11744, 11775); (11823, 11823);
   (12293, 12293); (12330, 12333); (12337, 12341); (12347, 12347); (12441, 12446);
   (12540, 12542); (40981, 40981); (42232, 42237); (42508, 42508); (42607, 42610);
   (42612, 42621); (42623, 42623); (42652, 42655); (42736, 42737); (42752, 42785);
   (42864, 42864); (42888, 42890); (42994, 42996); (43000, 43001); (43010, 43010);
   (43014, 43014); (43019, 43019); (43045, 43046); (43052, 43052); (43204, 43205);
   (43232, 43249); (43263, 43263); (43302, 43309); (43335, 43345); (43392, 43394);
   (43443, 43443); (43446, 43449); (43452, 43453); (43471, 43471); (43493, 43494);
   (43561, 43566); (43569, 43570); (43573, 43574); (43587, 43587); (43596, 43596);
   (43632, 43632); (43644, 43644); (43696, 43696); (43698, 43700); (43703, 43704);
   (43710, 43711); (43713, 43713); (43741, 43741); (43756, 43757); (43763, 43764);
   (43766, 43766); (43867, 43871); (43881, 43883); (44005, 44005); (44008, 44008);
   (44013, 44013); (64286, 64286); (64434, 64450); (65024, 65039); (65043, 65043);
   (65056, 65071); (65106, 65106); (65109, 65109); (65279, 65279); (65287, 65287);
   (65294, 65294); (65306, 65306); (65342, 65342); (65344, 65344); (65392, 65392);
   (65438, 65439); (65507, 65507); (65529, 65531); (66045, 66045); (66272, 66272);
   (66422, 66426); (67456, 67461); (67463, 67504); (67506, 67514); (68097, 68099);
   (68101, 68102); (68108, 68111); (68152, 68154); (68159, 68159); (68325, 68326);
   (68900, 68903); (69291, 69292); (69446, 69456); (69506, 69509); (69633, 69633);
   (69688, 69702); (69744, 69744); (69747, 69748); (69759, 69761); (69811, 69814);
   (69817, 69818); (69821, 69821); (69826, 69826); (69837, 69837); (69888, 69890);
   (69927, 69931); (69933, 69940); (70003, 70003); (70016, 70017); (70070, 70078);
   (70089, 70092); (70095, 70095); (70191, 70193); (70196, 70196); (70198, 70199);
   (70206, 70206); (70367, 70367); (70371, 70378); (70400, 70401); (70459, 70460);
   (70464, 70464); (70502, 70508); (70512, 70516); (70712, 70719); (70722, 70724);
   (70726, 70726); (70750, 70750); (70835, 70840); (70842, 70842); (70847, 70848);
   (70850, 70851); (71090, 71093); (71100, 71101); (71103, 71104); (71132, 71133);
   (71219, 71226); (71229, 71229); (71231, 71232); (71339, 71339); (71341, 71341);
   (71344, 71349); (71351, 71351); (71453, 71455); (71458, 71461); (71463, 71467);
   (71727, 71735); (71737, 71738); (71995, 71996); (71998, 71998); (72003, 72003);
   (72148, 72151); (72154, 72155); (72160, 72160); (72193, 72202); (72243, 72248);
   (72251, 72254); (72263, 72263); (72273, 72278); (72281, 72283); (72330, 72342);
   (72344, 72345); (72752, 72758); (72760, 72765); (72767, 72767); (72850, 72871);
   (72874, 72880); (72882, 72883); (72885, 72886); (73009, 73014); (73018, 73018);
   (73020, 73021); (73023, 73029); (73031, 73031); (73104, 73105); (73109, 73109);
   (73111, 73111); (73459, 73460); (78896, 78904); (92912, 92916); (92976, 92982);
   (92992, 92995); (94031, 94031); (94095, 94111); (94176, 94177); (94179, 94180);
   (110576, 110579); (110581, 110587); (110589, 110590); (113821, 113822); (113824, 113827);
   (118528, 118573); (118576, 118598); (119143, 119145); (119155, 119170); (119173, 119179);
   (119210, 119213); (119362, 119364); (121344, 121398); (121403, 121452); (121461, 121461);
   (121476, 121476); (121499, 121503); (121505, 121519); (122880, 122886); (122888, 122904);
   (122907, 122913); (122915, 122916); (122918, 122922); (123184, 123197); (123566, 123566);
   (123628, 123631); (125136, 125142); (125252, 125259); (127995, 127999); (917505, 917505);
   (917536, 917631); (917760, 917999)].

Definition casedTable : list (N * N) :=
  [(65, 90); (97, 122); (170, 170); (181, 181); (186, 186);
   (192, 214); (216, 246); (248, 442); (444, 447); (452, 659);
   (661, 687); (880, 883); (886, 887); (891, 893); (895, 895);
   (902, 902); (904, 906); (908, 908); (910, 929); (931, 1013);
   (1015, 1153); (1162, 1327); (1329, 1366); (1376, 1416); (4256, 4293);
   (4295, 4295); (4301, 4301); (4304, 4346); (4349, 4351); (5024, 5109);
   (5112, 5117); (7296, 7304); (7312, 7354); (7357, 7359); (7424, 7467);
   (7531, 7543); (7545, 7578); (7680, 7957); (7960, 7965); (7968, 8005);
   (8008, 8013); (8016, 8023); (8025, 8025); (8027, 8027); (8029, 8029);
   (8031, 8061); (8064, 8116); (8118, 8124); (8126, 8126); (8130, 8132);
   (8134, 8140); (8144, 8147); (8150, 8155); (8160, 8172); (8178, 8180);
   (8182, 8188); (8450, 8450); (8455, 8455); (8458, 8467); (8469, 8469);
   (8473, 8477); (8484, 8484); (8486, 8486); (8488, 8488); (8490, 8493);
   (8495, 8500); (8505, 8505); (8508, 8511); (8517, 8521); (8526, 8526);
   (8544, 8575); (8579, 8580); (9398, 9449); (11264, 11387); (11390, 11492);
   (11499, 11502); (11506, 11507); (11520, 11557); (11559, 11559); (11565, 11565);
   (42560, 42605); (42624, 42651); (42786, 42863); (42865, 42887); (42891, 42894);
   (42896, 42954); (42960, 42961); (42963, 42963); (42965, 42969); (42997, 42998);
   (43002, 43002); (43824, 43866); (43872, 43880); (43888, 43967); (64256, 64262);
   (64275, 64279); (65313, 65338); (65345, 65370); (66560, 66639); (66736, 66771);
   (66776, 66811); (66928, 66938); (66940, 66954); (66956, 66962); (66964, 66965);
   (66967, 66977); (66979, 66993); (66995, 67001); (67003, 67004); (68736, 68786);
   (68800, 68850); (71840, 71903); (93760, 93823); (119808, 119892); (119894, 119964);
   (119966, 119967); (119970, 119970); (119973, 119974); (119977, 119980); (119982, 119993);
   (119995, 119995); (119997, 120003); (120005, 120069); (120071, 120074); (120077, 120084);
   (120086, 120092); (120094, 120121); (120123, 120126); (120128, 120132); (120134, 120134);
   (120138, 120144); (120146, 120485); (120488, 120512); (120514, 120538); (120540, 120570);
   (120572, 120596); (120598, 120628); (120630, 120654); (120656, 120686); (120688, 120712);
   (120714, 120744); (120746, 120770); (120772, 120779); (122624, 122633); (122635, 122654);
   (125184, 125251); (127280, 127305); (127312, 127337); (127344, 127369)].

Fixpoint inRanges (table : list (N * N)) (cp : N) : bool :=
  match table with
  | [] => false
  | (first, last) :: r =>
      ((first <=? cp) && (cp <=? last)) || inRanges r cp
  end.

Fixpoint lookupLower (table : list (N * N * N * N)) (cp : N) : option N :=
  match table with
  | [] => None
  | (first, last, step, image) :: r =>
      if (first <=? cp) && (cp <=? last) && ((cp - first) mod step =? 0)
      then Some (image + (cp - first))
      else lookupLower r cp
  end.

Definition caseIgnorable (cp : N) : bool := inRanges caseIgnorableTable cp.
Definition cased (cp : N) : bool := inRanges casedTable cp.

(** Past the case-ignorable code points of [l], a cased one comes
    first. *)
Fixpoint casedNext (l : list N) : bool :=
  match l with
  | [] => false
  | cp :: r => if caseIgnorable cp then casedNext r else cased cp
  end.

(** The Final_Sigma condition: a cased letter before, none after, with
    case-ignorable code points skipped on both sides.  [before] holds
    the code points before the sigma, the nearest first. *)
Definition finalSigma (before after : list N) : bool :=
  casedNext before && negb (casedNext after).

(** The lower case of one code point: a capital sigma by its context,
    capital I with dot above as small i and a combining dot, Basic Latin
    by its own rule, the rest by the table. *)
Definition lowerPoint (before : list N) (cp : N) (after : list N) : list N :=
  if cp <? 128 then [if (65 <=? cp) && (cp <=? 90) then cp + 32 else cp]
  else if cp =? 931 then [if finalSigma before after then 962 else 963]
  else if cp =? 304 then [105; 775]
  else match lookupLower lowerTable cp with
       | Some image => [image]
       | None => [cp]
       end.

Fixpoint lowerPoints (before l : list N) : list N :=
  match l with
  | [] => []
  | cp :: r => lowerPoint before cp r ++ lowerPoints (cp :: before) r
  end.

Definition toLowerCase (s : jsstring) : jsstring :=
  flat_map codeUnits (lowerPoints [] (codePoints s)).

Definition slash : N := 47.

Definition isSlash (c : N) : bool := c =? slash.

(** [s.replace(/\/+$/, "")]: the scan tries each start position from the
    left; the pattern matches at a position exactly when what remains is
    a non-empty run of slashes up to the end, and the match is removed. *)
Fixpoint replaceTrailingSlashes (s : jsstring) : jsstring :=
  match s with
  | [] => []
  | c :: r => if forallb isSlash (c :: r) then []
              else c :: replaceTrailingSlashes r
  end.

(** [url.replace(/\/+$/, "").toLowerCase()] *)
Definition normalizeUrl (url : jsstring) : jsstring :=
  toLowerCase (replaceTrailingSlashes url).

(** [title.toLowerCase().trim()] *)
Definition normalizeTitle (title : jsstring) : jsstring :=
  trim (toLowerCase title).

(** [s.slice(0, n)] and [a.slice(0, n)] for [n >= 0]. *)
Definition slice0 {A} (n : nat) (l : list A) : list A := firstn n l.

(** The last, respectively first, code unit satisfies [p]. *)
Fixpoint lastIs (p : N -> bool) (s : jsstring) : bool :=
  match s with
  | [] => false
  | [c] => p c
  | _ :: r => lastIs p r
  end.

Definition firstIs (p : N -> bool) (s : jsstring) : bool :=
  match s with
  | [] => false
  | c :: _ => p c
  end.

(** ** Numbers and their spelling *)

Definition digitOf (c : N) : option (Decimal.uint -> Decimal.uint) :=
  if c =? 48 then Some Decimal.D0 else if c =? 49 then Some Decimal.D1
  else if c =? 50 then Some Decimal.D2 else if c =? 51 then Some Decimal.D3
  else if c =? 52 then Some Decimal.D4 else if c =? 53 then Some Decimal.D5
  else if c =? 54 then Some Decimal.D6 else if c =? 55 then Some Decimal.D7
  else if c =? 56 then Some Decimal.D8 else if c =? 57 then Some Decimal.D9
  else None.

(** The longest prefix of decimal digits. *)
Fixpoint readDigits (s : jsstring) : Decimal.uint :=
  match s with
  | [] => Decimal.Nil
  | c :: r => match digitOf c with
              | Some d => d (readDigits r)
              | None => Decimal.Nil
              end
  end.

Fixpoint unitsOfUint (u : Decimal.uint) : jsstring :=
  match u with
  | Decimal.Nil => []
  | Decimal.D0 r => 48 :: unitsOfUint r
  | Decimal.D1 r => 49 :: unitsOfUint r
  | Decimal.D2 r => 50 :: unitsOfUint r
  | Decimal.D3 r => 51 :: unitsOfUint r
  | Decimal.D4 r => 52 :: unitsOfUint r
  | Decimal.D5 r => 53 :: unitsOfUint r
  | Decimal.D6 r => 54 :: unitsOfUint r
  | Decimal.D7 r => 55 :: unitsOfUint r
  | Decimal.D8 r => 56 :: unitsOfUint r
  | Decimal.D9 r => 57 :: unitsOfUint r
  end.

(** The decimal numeral of an integer. *)
Definition decimal (n : Z) : jsstring :=
  match n with
  | Zneg p => 45 :: unitsOfUint (Pos.to_uint p)
  | _ => unitsOfUint (N.to_uint (Z.to_N n))
  end.

(** *** Doubles

    The magnitude of a double: zero, a positive [m * 2^e], or infinity.
    The same double has several spellings [(m, e)]; [sameDouble]
    compares the values. *)
Inductive double : Type :=
| Zero
| Finite (m e : Z)
| Infinite.

Definition sameDouble (x y : double) : bool :=
  match x, y with
  | Zero, Zero | Infinite, Infinite => true
  | Finite m1 e1, Finite m2 e2 =>
      let e := Z.min e1 e2 in
      (m1 * 2 ^ (e1 - e) =? m2 * 2 ^ (e2 - e))%Z
  | _, _ => false
  end.

(** The double nearest to the positive fraction [a / b], ties to even:
    53 bits of mantissa, the exponent not below -1074, infinity from
    [2^1024] on. *)
Definition roundRatio (a b : Z) : double :=
  let l := (Z.log2 a - Z.log2 b)%Z in
  let t := if (if 0 <=? l then b * 2 ^ l <=? a else b <=? a * 2 ^ (- l))%Z
           then l else (l - 1)%Z in
  let e := Z.max (t - 52) (-1074) in
  let n := (if e <? 0 then a * 2 ^ (- e) else a)%Z in
  let d := (if e <? 0 then b else b * 2 ^ e)%Z in
  let q := (n / d)%Z in
  let r := (n mod d)%Z in
  let q' := (if (d <? 2 * r) || ((2 * r =? d) && Z.odd q) then q + 1 else q)%Z in
  if (q' =? 0)%Z then Zero
  else if (971 <? e)%Z || ((e =? 971)%Z && (2 ^ 53 <=? q')%Z) then Infinite
  else Finite q' e.

(** *** The Numbers of the script

    What [parseInt], [Math.max] and [maxId++] yield here: an integer
    that is a double, or an infinity. *)
Inductive number : Type :=
| Fin (z : Z)
| PosInf
| NegInf.

Definition two53 : Z := 9007199254740992.

(** The double nearest to an integer.  Up to [2^53] every integer is a
    double. *)
Definition roundInteger (z : Z) : number :=
  if (Z.abs z <=? two53)%Z then Fin z
  else match roundRatio (Z.abs z) 1 with
       | Finite m e => Fin (Z.sgn z * (m * 2 ^ e))
       | _ => if (z <? 0)%Z then NegInf else PosInf
       end.

(** [parseInt(s, 10)]; [None] is NaN.  Every digit counts, also past
    the twentieth, where the language lets an implementation read
    zeros. *)
Definition parseInt (s : jsstring) : option number :=
  let s1 := trimStart s in
  let negative := firstIs (N.eqb 45) s1 in
  let s2 := if firstIs (fun c => (c =? 45) || (c =? 43)) s1
            then tl s1 else s1 in
  match readDigits s2 with
  | Decimal.Nil => None
  | u => let n := Z.of_N (N.of_uint u) in
         Some (roundInteger (if negative then (- n)%Z else n))
  end.

(** [x || 0] on what [parseInt] returns. *)
Definition orZero (x : option number) : number :=
  match x with
  | Some (Fin 0) | None => Fin 0
  | Some n => n
  end.

(** [Math.max(a, b)] *)
Definition Math_max (a b : number) : number :=
  match a, b with
  | PosInf, _ | _, PosInf => PosInf
  | NegInf, x | x, NegInf => x
  | Fin x, Fin y => Fin (Z.max x y)
  end.

(** [maxId++], the value afterwards; the sum is rounded. *)
Definition increment (n : number) : number :=
  match n with
  | Fin z => roundInteger (z + 1)
  | _ => n
  end.

(** *** Number to string

    The digits of a positive double [x = a / b]: the shortest decimal
    [s * 10^(n - k)], [s] of [k] digits, that rounds to [x], and among
    those of that length the nearest to [x], the even one on a tie. *)

Definition scale10 (a b j : Z) : Z * Z :=
  if (0 <=? j)%Z then ((a * 10 ^ j)%Z, b) else (a, (b * 10 ^ (- j))%Z).

Definition fractionOf (m e : Z) : Z * Z :=
  if (0 <=? e)%Z then ((m * 2 ^ e)%Z, 1%Z) else (m, (2 ^ (- e))%Z).

Definition decimalLength (z : Z) : Z := Z.of_nat (length (decimal z)).

(** The [n] with [10^(n-1) <= a / b < 10^n], for a double [a / b]. *)
Definition decimalExponent (a b : Z) : Z :=
  let (a', b') := scale10 a b 400 in (decimalLength (a' / b') - 400)%Z.

Fixpoint shortestFrom (fuel : nat) (k : Z) (x : double) (a b n : Z)
  : Z * Z * Z :=
  let (a', b') := scale10 a b (k - n) in
  let lo := (a' / b')%Z in
  let hi := (lo + 1)%Z in
  let rounds s := let (p, q) := scale10 s 1 (n - k) in
                  sameDouble (roundRatio p q) x in
  let found s := if (s =? 10 ^ k)%Z then (1%Z, 1%Z, (n + 1)%Z) else (s, k, n) in
  match rounds lo, rounds hi with
  | true, true =>
      if (2 * a' <? (lo + hi) * b')%Z then found lo
      else if ((lo + hi) * b' <? 2 * a')%Z then found hi
      else if Z.even lo then found lo else found hi
  | true, false => found lo
  | false, true => found hi
  | false, false =>
      match fuel with
      | O => found lo
      | S f => shortestFrom f (k + 1) x a b n
      end
  end.

(** Seventeen digits tell any two doubles apart. *)
Definition shortest (m e : Z) : Z * Z * Z :=
  let (a, b) := fractionOf m e in
  shortestFrom 16 1 (Finite m e) a b (decimalExponent a b).

(** Number::toString on the digits [ds] of [s], their count [k] and the
    exponent [n]. *)
Definition formatDigits (ds : jsstring) (k n : Z) : jsstring :=
  if ((k <=? n) && (n <=? 21))%Z then ds ++ repeat 48 (Z.to_nat (n - k))
  else if ((0 <? n) && (n <=? 21))%Z
  then firstn (Z.to_nat n) ds ++ [46] ++ skipn (Z.to_nat n) ds
  else if ((-6 <? n) && (n <=? 0))%Z
  then [48; 46] ++ repeat 48 (Z.to_nat (- n)) ++ ds
  else
    let e := (n - 1)%Z in
    let exponent := (if (e <? 0)%Z then 45 else 43) :: decimal (Z.abs e) in
    match ds with
    | [] => []
    | [d] => d :: 101 :: exponent
    | d :: rest => d :: 46 :: rest ++ 101 :: exponent
    end.

Definition doubleToString (negative : bool) (x : double) : jsstring :=
  match x with
  | Zero => [48]
  | Infinite => (if negative then [45] else []) ++ js "Infinity"
  | Finite m e =>
      let '(s, k, n) := shortest m e in
      (if negative then [45] else []) ++ formatDigits (decimal s) k n
  end.

(** [String(n)].  The digits of an integer up to [2^53] are its decimal
    numeral. *)
Definition numberToString (n : number) : jsstring :=
  match n with
  | Fin z =>
      if (Z.abs z <=? two53)%Z then decimal z
      else doubleToString (z <? 0)%Z (Finite (Z.abs z) 0)
  | PosInf => js "Infinity"
  | NegInf => js "-Infinity"
  end.

(** *** Number literals of JSON

    The sign of a literal and the double it denotes.  A literal is
    [-? digits (. digits)? ([eE] [+-]? digits)?]; its value is the integer
    [mantissa] its digits spell, times a power [10^exponent]. *)

Definition digitsValue (s : jsstring) : Z := Z.of_N (N.of_uint (readDigits s)).
Definition digitsCount (s : jsstring) : nat := length (unitsOfUint (readDigits s)).

Definition literalDouble (l : jsstring) : bool * double :=
  let negative := firstIs (N.eqb 45) l in
  let s1 := if negative then tl l else l in
  let whole := digitsValue s1 in
  let s2 := skipn (digitsCount s1) s1 in
  let hasFraction := firstIs (N.eqb 46) s2 in
  let s3 := if hasFraction then tl s2 else s2 in
  let places := if hasFraction then digitsCount s3 else 0%nat in
  let fraction := if hasFraction then digitsValue s3 else 0%Z in
  let s4 := skipn places s3 in
  let hasExponent := firstIs (fun c => (c =? 101) || (c =? 69)) s4 in
  let s5 := if hasExponent then tl s4 else s4 in
  let minus := firstIs (N.eqb 45) s5 in
  let s6 := if firstIs (fun c => (c =? 45) || (c =? 43)) s5 then tl s5 else s5 in
  let power := if hasExponent
               then (if minus then - digitsValue s6 else digitsValue s6)%Z
               else 0%Z in
  let mantissa := (whole * 10 ^ Z.of_nat places + fraction)%Z in
  let exponent := (power - Z.of_nat places)%Z in
  let size := (decimalLength mantissa + exponent)%Z in
  (negative,
   if (mantissa =? 0)%Z then Zero
   else if (310 <? size)%Z then Infinite
   else if (size <? -330)%Z then Zero
   else let (a, b) := scale10 mantissa 1 exponent in roundRatio a b).

(** [String(x)] for the number a literal denotes. *)
Definition literalToString (l : jsstring) : jsstring :=
  let (negative, x) := literalDouble l in doubleToString negative x.

(** ** JSON values *)

Inductive json : Type :=
| JNull
| JBool (b : bool)
| JNum (literal : jsstring)
| JStr (s : jsstring)
| JArr (items : list json)
| JObj (members : list (jsstring * json)).

(** A JavaScript value read from a property: [None] is [undefined]. *)
Definition jsval := option json.

(** A number is falsy when it is zero: also a literal with non-zero
    digits that rounds to zero. *)
Definition truthy (v : jsval) : bool :=
  match v with
  | None | Some JNull | Some (JBool false) | Some (JStr []) => false
  | Some (JNum l) => match snd (literalDouble l) with
                     | Zero => false
                     | _ => true
                     end
  | Some _ => true
  end.

(** [v || ""] *)
Definition orEmpty (v : jsval) : jsval :=
  if truthy v then v else Some (JStr []).

(** [o[k]] on a parsed object: the last member named [k] wins. *)
Fixpoint lookup (k : jsstring) (ms : list (jsstring * json)) : jsval :=
  match ms with
  | [] => None
  | (k', v) :: r =>
      match lookup k r with
      | Some w => Some w
      | None => if streq k' k then Some v else None
      end
  end.

(** A string where a value is expected is the string value. *)
Coercion JStr : jsstring >-> json.

(** ** JSON.parse *)

(** JSON white space: space, tab, line feed, carriage return. *)
Definition isJsonWs (c : N) : bool :=
  (c =? 32) || (c =? 9) || (c =? 10) || (c =? 13).

Fixpoint skipWs (s : jsstring) : jsstring :=
  match s with
  | [] => []
  | c :: r => if isJsonWs c then skipWs r else s
  end.

Definition isDigit (c : N) : bool := (48 <=? c) && (c <=? 57).

Definition hexVal (c : N) : option N :=
  if isDigit c then Some (c - 48)
  else if (97 <=? c) && (c <=? 102) then Some (c - 87)
  else if (65 <=? c) && (c <=? 70) then Some (c - 55)
  else None.

Definition hex4 (a b c d : N) : option N :=
  match hexVal a, hexVal b, hexVal c, hexVal d with
  | Some x, Some y, Some z, Some t => Some (((x * 16 + y) * 16 + z) * 16 + t)
  | _, _, _, _ => None
  end.

(** The single-character escapes of a JSON string. *)
Definition simpleEscape (c : N) : option N :=
  if (c =? 34) || (c =? 92) || (c =? 47) then Some c
  else if c =? 98 then Some 8
  else if c =? 102 then Some 12
  else if c =? 110 then Some 10
  else if c =? 114 then Some 13
  else if c =? 116 then Some 9
  else None.

(** The characters of a string after its opening quote, up to and
    including the closing quote; [acc] holds what was read, reversed. *)
Fixpoint parseChars (s : jsstring) (acc : jsstring)
  : option (jsstring * jsstring) :=
  match s with
  | [] => None
  | c :: r =>
      if c =? 34 then Some (rev acc, r)
      else if c =? 92 then
        match r with
        | [] => None
        | e :: r1 =>
            if e =? 117 then
              match r1 with
              | h1 :: h2 :: h3 :: h4 :: r2 =>
                  match hex4 h1 h2 h3 h4 with
                  | Some u => parseChars r2 (u :: acc)
                  | None => None
                  end
              | _ => None
              end
            else
              match simpleEscape e with
              | Some u => parseChars r1 (u :: acc)
              | None => None
              end
        end
      else if c <? 32 then None
      else parseChars r (c :: acc)
  end.

Fixpoint takeDigits (s : jsstring) : jsstring * jsstring :=
  match s with
  | [] => ([], [])
  | c :: r => if isDigit c
              then let '(ds, r') := takeDigits r in (c :: ds, r')
              else ([], s)
  end.

(** An optional sign: a minus, or with [allowPlus] a plus. *)
Definition optSign (allowPlus : bool) (s : jsstring) : jsstring * jsstring :=
  match s with
  | c :: r => if (c =? 45) || (allowPlus && (c =? 43)) then ([c], r)
              else ([], s)
  | [] => ([], [])
  end.

(** The integer part: a single zero, or a non-zero digit and more digits. *)
Definition intPart (s : jsstring) : option (jsstring * jsstring) :=
  match s with
  | c :: r =>
      if c =? 48 then Some ([c], r)
      else if isDigit c
           then let '(ds, r') := takeDigits r in Some (c :: ds, r')
           else None
  | [] => None
  end.

(** The fraction, if a point follows: the point and at least one digit. *)
Definition fracPart (s : jsstring) : option (jsstring * jsstring) :=
  match s with
  | c :: r =>
      if c =? 46 then
        match takeDigits r with
        | ([], _) => None
        | (ds, r') => Some (c :: ds, r')
        end
      else Some ([], s)
  | [] => Some ([], [])
  end.

(** The exponent, if an [e] or [E] follows: a sign and at least one digit. *)
Definition expPart (s : jsstring) : option (jsstring * jsstring) :=
  match s with
  | e :: r =>
      if (e =? 101) || (e =? 69) then
        let '(sg, r1) := optSign true r in
        match takeDigits r1 with
        | ([], _) => None
        | (ds, r2) => Some (e :: sg ++ ds, r2)
        end
      else Some ([], s)
  | [] => Some ([], [])
  end.

(** A number: an optional minus sign, an integer part without leading
    zero, an optional fraction, an optional exponent; the literal is kept
    as written. *)
Definition parseNumber (s : jsstring) : option (jsstring * jsstring) :=
  let '(sg, s1) := optSign false s in
  match intPart s1 with
  | None => None
  | Some (i, s2) =>
      match fracPart s2 with
      | None => None
      | Some (f, s3) =>
          match expPart s3 with
          | None => None
          | Some (e, s4) => Some (sg ++ i ++ f ++ e, s4)
          end
      end
  end.

(** The outcome of parsing a prefix: a value and what follows it, a
    syntax error, or recursion fuel used up. *)
Inductive parsed : Type :=
| Parsed (v : json) (rest : jsstring)
| Rejected
| Exhausted.

(** Elements of an array after its opening bracket (the array is known
    to be non-empty); [pv] parses one value. *)
Fixpoint parseElems (pv : jsstring -> parsed)
  (n : nat) (s : jsstring) (acc : list json) : parsed :=
  match n with
  | O => Exhausted
  | S n' =>
      match pv s with
      | Parsed v r =>
          match skipWs r with
          | c :: r' =>
              if c =? 44 then parseElems pv n' r' (v :: acc)
              else if c =? 93 then Parsed (JArr (rev (v :: acc))) r'
              else Rejected
          | [] => Rejected
          end
      | Rejected => Rejected
      | Exhausted => Exhausted
      end
  end.

(** Members of an object after its opening brace (known non-empty). *)
Fixpoint parseMembers (pv : jsstring -> parsed)
  (n : nat) (s : jsstring) (acc : list (jsstring * json)) : parsed :=
  match n with
  | O => Exhausted
  | S n' =>
      match skipWs s with
      | [] => Rejected
      | q :: r =>
          if negb (q =? 34) then Rejected
          else
            match parseChars r [] with
            | None => Rejected
            | Some (k, r1) =>
                match skipWs r1 with
                | [] => Rejected
                | colon :: r2 =>
                    if negb (colon =? 58) then Rejected
                    else
                      match pv r2 with
                      | Parsed v r3 =>
                          match skipWs r3 with
                          | c :: r4 =>
                              if c =? 44
                              then parseMembers pv n' r4 ((k, v) :: acc)
                              else if c =? 125
                              then Parsed (JObj (rev ((k, v) :: acc))) r4
                              else Rejected
                          | [] => Rejected
                          end
                      | Rejected => Rejected
                      | Exhausted => Exhausted
                      end
                end
            end
      end
  end.

Definition startsWith (p s : jsstring) : bool :=
  streq p (firstn (length p) s).

(** One JSON value, leading white space skipped.  A nested value starts
    at least one character further, so fuel beyond the length of the
    text is never used up ([parseValue_enough_fuel] below). *)
Fixpoint parseValue (fuel : nat) (s : jsstring) : parsed :=
  match fuel with
  | O => Exhausted
  | S f =>
      match skipWs s with
      | [] => Rejected
      | c :: r =>
          if c =? 34 then
            match parseChars r [] with
            | Some (str, r') => Parsed (JStr str) r'
            | None => Rejected
            end
          else if c =? 91 then
            if firstIs (N.eqb 93) (skipWs r)
            then Parsed (JArr []) (tl (skipWs r))
            else parseElems (parseValue f) (S (length r)) r []
          else if c =? 123 then
            if firstIs (N.eqb 125) (skipWs r)
            then Parsed (JObj []) (tl (skipWs r))
            else parseMembers (parseValue f) (S (length r)) r []
          else if startsWith (js "true") (c :: r)
          then Parsed (JBool true) (skipn 4 (c :: r))
          else if startsWith (js "false") (c :: r)
          then Parsed (JBool false) (skipn 5 (c :: r))
          else if startsWith (js "null") (c :: r)
          then Parsed JNull (skipn 4 (c :: r))
          else
            match parseNumber (c :: r) with
            | Some (lit, r') => Parsed (JNum lit) r'
            | None => Rejected
            end
      end
  end.

(** [JSON.parse(text)]; [None] is a SyntaxError. *)
Definition JSON_parse (text : jsstring) : option json :=
  match parseValue (S (length text)) text with
  | Parsed v r => match skipWs r with [] => Some v | _ => None end
  | Rejected | Exhausted => None
  end.

(** ** The pattern [/\[[\s\S]*\]/] *)

(** The longest prefix of [s] that ends with [close]: a greedy
    [[\s\S]*] followed by the closing character, after backtracking. *)
Fixpoint greedyThrough (close : N) (s : jsstring) : option jsstring :=
  match s with
  | [] => None
  | c :: r =>
      match greedyThrough close r with
      | Some m => Some (c :: m)
      | None => if c =? close then Some [c] else None
      end
  end.

(** [text.match(/\[[\s\S]*\]/)]: the leftmost start position that is
    an opening bracket with a closing bracket somewhere after it. *)
Fixpoint matchArray (s : jsstring) : option jsstring :=
  match s with
  | [] => None
  | c :: r =>
      if c =? 91 then
        match greedyThrough 93 r with
        | Some m => Some (c :: m)
        | None => matchArray r
        end
      else matchArray r
  end.


(** ** Failures *)

Inductive Error : Type :=
| TypeError                                  (* a method or property of a value that has none *)
| SyntaxError                                (* JSON.parse rejected its argument *)
| NetworkError                               (* fetch rejected *)
| IOError                                    (* writeFileSync failed *)
| MissingApiKey                              (* "ANTHROPIC_API_KEY ... is required for --auto mode" *)
| ApiError (status : Z) (body : jsstring)    (* "Anthropic API error ..." *)
| Truncated                                  (* "Claude response was truncated ..." *)
| NoJsonArray                                (* "Could not find JSON array in Claude response" *)
| ParseFailed.                               (* "Failed to parse Claude response as JSON ..." *)

Inductive result (A : Type) : Type :=
| Ok (a : A)
| Throw (e : Error).

Arguments Ok {A} a.
Arguments Throw {A} e.

Definition bindR {A B} (r : result A) (k : A -> result B) : result B :=
  match r with
  | Ok a => k a
  | Throw e => Throw e
  end.

(** [l.map(f)] where [f] may throw. *)
Fixpoint mapR {A B} (f : A -> result B) (l : list A) : result (list B) :=
  match l with
  | [] => Ok []
  | x :: r => bindR (f x) (fun y => bindR (mapR f r) (fun ys => Ok (y :: ys)))
  end.

(** ** Reading parsed values *)

(** [v.k] for the property names the program reads (none is inherited
    from a prototype): a TypeError on [undefined] and [null]. *)
Definition getProp (v : jsval) (k : jsstring) : result jsval :=
  match v with
  | None | Some JNull => Throw TypeError
  | Some (JObj ms) => Ok (lookup k ms)
  | Some _ => Ok None
  end.

(** [v[0]] *)
Definition getFirst (v : jsval) : result jsval :=
  match v with
  | None | Some JNull => Throw TypeError
  | Some (JArr l) => Ok (hd_error l)
  | Some (JStr s) => Ok (match s with c :: _ => Some (JStr [c]) | [] => None end)
  | Some (JObj ms) => Ok (lookup (js "0") ms)
  | Some _ => Ok None
  end.

(** The receiver of a String method: anything but a string has no such
    method, and the call is a TypeError. *)
Definition asString (v : jsval) : result jsstring :=
  match v with
  | Some (JStr s) => Ok s
  | _ => Throw TypeError
  end.

(** The elements [for (const x of v)] visits: those of an array, the
    code points of a string (each one a string, which no record is);
    anything else is not iterable. *)
Definition iterate (v : json) : result (list json) :=
  match v with
  | JArr l => Ok l
  | JStr s => Ok (map (fun cp => JStr (codeUnits cp)) (codePoints s))
  | _ => Throw TypeError
  end.

(** [v.k] where [v] is known not to be [null]. *)
Definition field (v : json) (k : jsstring) : jsval :=
  match getProp (Some v) k with
  | Ok x => x
  | Throw _ => None
  end.

Definition hasKey (k : jsstring) (ms : list (jsstring * json)) : bool :=
  existsb (fun m => streq (fst m) k) ms.

(** [items.join(",")] given the conversion of an element: [null]
    elements come out as empty strings. *)
Definition joinWith (toStr : json -> result jsstring)
  : list json -> result jsstring :=
  fix joined (l : list json) : result jsstring :=
    match l with
    | [] => Ok []
    | x :: r =>
        match (match x with JNull => Ok [] | _ => toStr x end) with
        | Throw e => Throw e
        | Ok a =>
            match r with
            | [] => Ok a
            | _ :: _ =>
                match joined r with
                | Throw e => Throw e
                | Ok b => Ok (a ++ 44 :: b)
                end
            end
        end
    end.

(** [String(v)], also what a template literal does to [v].  An array is
    joined with commas.  An object gives ["[object Object]"] through the
    [toString] it inherits; a member named [toString] hides that method,
    and since a parsed value is no function the conversion then
    fails. *)
Fixpoint toStr (v : json) : result jsstring :=
  match v with
  | JNull => Ok (js "null")
  | JBool true => Ok (js "true")
  | JBool false => Ok (js "false")
  | JNum l => Ok (literalToString l)
  | JStr s => Ok s
  | JArr items => joinWith toStr items
  | JObj ms =>
      if hasKey (js "toString") ms then Throw TypeError
      else Ok (js "[object Object]")
  end.

Definition toText (v : jsval) : result jsstring :=
  match v with
  | None => Ok (js "undefined")
  | Some x => toStr x
  end.

(** The text of [v] where the conversion has been seen to succeed. *)
Definition textOf (v : json) : jsstring :=
  match toStr v with
  | Ok s => s
  | Throw _ => []
  end.

(** [`${existing.length}`]: the length of an array or a string, the
    member [length] of an object, [undefined] otherwise. *)
Definition lengthText (existing : json) : result jsstring :=
  match existing with
  | JNull => Throw TypeError
  | JArr l => Ok (decimal (Z.of_nat (length l)))
  | JStr s => Ok (decimal (Z.of_nat (length s)))
  | JObj ms => toText (lookup (js "length") ms)
  | _ => Ok (js "undefined")
  end.

(** ** The data model *)

(** The corpus: the elements of the array the corpus file holds. *)
Definition Corpus := list json.

Module Entry.
(** ArticleEntry, one element of the corpus, read field by field.  An
    element that is no object has none of the fields. *)
Definition t := json.
Definition id (e : t) : jsval := field e (js "id").
Definition title (e : t) : jsval := field e (js "title").
Definition summary (e : t) : jsval := field e (js "summary").
Definition bottomLine (e : t) : jsval := field e (js "bottomLine").
Definition category (e : t) : jsval := field e (js "category").
Definition publishDate (e : t) : jsval := field e (js "publishDate").
Definition sourceUrl (e : t) : jsval := field e (js "sourceUrl").
End Entry.

Module Item.
(** CandidateItem, what a source adapter returns.  The feeds give
    strings; the two JSON sources pass on values of their replies. *)
Record t : Type := mk {
    title : json;
    source : json;
    link : json;
    pubDate : json;
    origin : jsstring
}.
End Item.

Definition MAX_ARTICLES_PER_BATCH : nat := 10.

(** ** Deduplicator *)

(** [existing.some(cb)] *)
Fixpoint some (cb : json -> result bool) (l : list json) : result bool :=
  match l with
  | [] => Ok false
  | a :: r =>
      match cb a with
      | Throw e => Throw e
      | Ok true => Ok true
      | Ok false => some cb r
      end
  end.

(** The two keys of a stored entry, as the callback of [isDuplicate]
    computes them: [(a.sourceUrl || "")] and [(a.title || "")] must be
    strings. *)
Definition storedUrl (a : json) : result jsstring :=
  bindR (getProp (Some a) (js "sourceUrl")) (fun sourceUrl =>
  bindR (asString (orEmpty sourceUrl)) (fun url =>
  Ok (normalizeUrl url))).

Definition storedTitle (a : json) : result jsstring :=
  bindR (getProp (Some a) (js "title")) (fun title =>
  bindR (asString (orEmpty title)) (fun text =>
  Ok (normalizeTitle text))).

Definition entryKeys (a : json) : result (jsstring * jsstring) :=
  bindR (storedUrl a) (fun existingUrl =>
  bindR (storedTitle a) (fun existingTitle =>
  Ok (existingUrl, existingTitle))).

(** The callback of [existing.some]. *)
Definition sameKeys (normalizedUrl normalizedTitle : jsstring) (a : json)
  : result bool :=
  bindR (entryKeys a) (fun keys =>
  let existingUrl := fst keys in
  let existingTitle := snd keys in
  Ok (streq existingUrl normalizedUrl || streq existingTitle normalizedTitle)).

Definition isDuplicate (existing : json) (url title : jsval) : result bool :=
  bindR (asString url) (fun u =>
  let normalizedUrl := normalizeUrl u in
  bindR (asString title) (fun t =>
  let normalizedTitle := normalizeTitle t in
  match existing with
  | JArr entries => some (sameKeys normalizedUrl normalizedTitle) entries
  | _ => Throw TypeError
  end)).

(** [parseInt(a.id, 10) || 0] *)
Definition idNumber (a : json) : result number :=
  bindR (getProp (Some a) (js "id")) (fun i =>
  bindR (toText i) (fun text =>
  Ok (orZero (parseInt text)))).

(** [existing.reduce((max, a) => Math.max(max, parseInt(a.id, 10) || 0), 0)] *)
Fixpoint reduceMax (existing : Corpus) (max : number) : result number :=
  match existing with
  | [] => Ok max
  | a :: r =>
      match idNumber a with
      | Throw e => Throw e
      | Ok n => reduceMax r (Math_max max n)
      end
  end.

Definition maxIdOf (existing : Corpus) : result number :=
  reduceMax existing (Fin 0).

(** ** The outside world and the run monad *)

Inductive Source : Type :=
| GoogleNews | ScienceDaily | MedicalNewsToday | PubMed | OpenAlex.

(** What one source adapter comes back with: its candidates, or the
    error it threw. *)
Inductive AdapterResult : Type :=
| Fetched (items : list Item.t)
| Failed (message : jsstring).

(** The reply of the summarization service to the one request a run may
    send: no reply at all, or a status line and a body. *)
Inductive ServiceReply : Type :=
| Unreachable
| Responded (ok : bool) (status : Z) (body : jsstring).

(** The corpus file: missing or unreadable ([readFileSync] throws),
    text that [JSON.parse] rejects, or text that parses to the value
    [v], which need not be an array, nor an array of records.  Writing
    [JSON.stringify(c, null, 2)] gives [Document (JArr c)]. *)
Inductive FileState : Type :=
| Absent
| Malformed (text : jsstring)
| Document (v : json).

Record World : Type := mkWorld {
  argv : list jsstring;                 (* process.argv.slice(2) *)
  ANTHROPIC_API_KEY : option jsstring;  (* process.env.ANTHROPIC_API_KEY *)
  adapter : Source -> AdapterResult;
  service : ServiceReply;
  hebrewDate : nat -> jsstring;         (* hebrewDate() at its n-th call *)
  disk : FileState;
  diskWritable : bool
}.

(** What a run does to the outside, in order.  Of the summarization
    request the event keeps the credential and the rendered candidates;
    the rest of its body (model, token limit, instructions) is fixed
    text. *)
Inductive Event : Type :=
| FetchSource (s : Source)
| PostSummarize (apiKey : jsstring) (itemsList : jsstring)
| WriteFile (c : Corpus).

Record RunState : Type := mkState {
  file : FileState;
  log : list Event
}.

Definition M (A : Type) : Type := RunState -> result A * RunState.

Definition ret {A} (a : A) : M A := fun st => (Ok a, st).

Definition throw {A} (e : Error) : M A := fun st => (Throw e, st).

Definition bind {A B} (m : M A) (k : A -> M B) : M B :=
  fun st =>
    match m st with
    | (Ok a, st') => k a st'
    | (Throw e, st') => (Throw e, st')
    end.

Definition lift {A} (r : result A) : M A := fun st => (r, st).

Definition emit (e : Event) : M unit :=
  fun st => (Ok tt, mkState (file st) (log st ++ [e])).

Notation "x <- m ;; k" := (bind m (fun x => k))
  (at level 61, m at next level, right associativity).
Notation "m ;;; k" := (bind m (fun _ => k))
  (at level 61, right associativity).

(** ** Helpers of the script *)

Definition loadExisting : M json :=
  fun st =>
    match file st with
    | Document v => (Ok v, st)
    | Absent | Malformed _ => (Ok (JArr []), st)
    end.

(** [writeFileSync(CONTENT_PATH, JSON.stringify(existing, null, 2) + "\n")] *)
Definition writeCorpus (w : World) (existing : Corpus) : M unit :=
  fun st =>
    if diskWritable w
    then (Ok tt, mkState (Document (JArr existing)) (log st ++ [WriteFile existing]))
    else (Throw IOError, st).

Definition includes (x : jsstring) (l : list jsstring) : bool :=
  existsb (streq x) l.

Fixpoint join (sep : jsstring) (parts : list jsstring) : jsstring :=
  match parts with
  | [] => []
  | [p] => p
  | p :: rest => p ++ sep ++ join sep rest
  end.

(** The four fields of a candidate that the template literals convert
    to text: the listing and the prompt fail where one of them cannot
    be converted. *)
Definition printable (item : Item.t) : result unit :=
  bindR (toStr (Item.title item)) (fun _ =>
  bindR (toStr (Item.source item)) (fun _ =>
  bindR (toStr (Item.link item)) (fun _ =>
  bindR (toStr (Item.pubDate item)) (fun _ => Ok tt)))).

Fixpoint forEach {A} (f : A -> result unit) (l : list A) : result unit :=
  match l with
  | [] => Ok tt
  | x :: r =>
      match f x with
      | Throw e => Throw e
      | Ok _ => forEach f r
      end
  end.

(** One numbered block of the prompt, of a candidate whose fields
    convert to text. *)
Definition renderItem (i : nat) (item : Item.t) : jsstring :=
  js "[" ++ decimal (Z.of_nat (i + 1)) ++ js "] Title: " ++ textOf (Item.title item)
  ++ [10] ++ js "    Source: " ++ textOf (Item.source item)
  ++ [10] ++ js "    URL: " ++ textOf (Item.link item)
  ++ [10] ++ js "    Date: " ++ textOf (Item.pubDate item).

Fixpoint mapi {A B} (f : nat -> A -> B) (i : nat) (l : list A) : list B :=
  match l with
  | [] => []
  | x :: r => f i x :: mapi f (S i) r
  end.

Definition renderItems (batch : list Item.t) : jsstring :=
  join [10; 10] (mapi renderItem 0 batch).

(** ** Summarizer *)

(** [data.content[0].text.trim()] *)
Definition replyText (data : json) : result jsstring :=
  bindR (getProp (Some data) (js "content")) (fun content =>
  bindR (getFirst content) (fun block =>
  bindR (getProp block (js "text")) (fun rawText =>
  bindR (asString rawText) (fun raw => Ok (trim raw))))).

(** [data.stop_reason === "max_tokens"] *)
Definition isMaxTokens (data : json) : bool :=
  match getProp (Some data) (js "stop_reason") with
  | Ok (Some (JStr r)) => streq r (js "max_tokens")
  | _ => false
  end.

(** From the reply text to the parsed array: locate the bracketed
    substring, then parse it. *)
Definition extractArray (text : jsstring) : result json :=
  match matchArray text with
  | None => Throw NoJsonArray
  | Some jsonMatch =>
      match JSON_parse jsonMatch with
      | Some v => Ok v
      | None => Throw ParseFailed
      end
  end.

(** What follows a successful response: [res.json()], the text, the stop
    reason, the extraction. *)
Definition readReply (body : jsstring) : result json :=
  match JSON_parse body with
  | None => Throw SyntaxError
  | Some data =>
      bindR (replyText data) (fun text =>
      if isMaxTokens data then Throw Truncated
      else extractArray text)
  end.

Definition summarizeWithClaude (w : World) (items : list Item.t) : M json :=
  match ANTHROPIC_API_KEY w with
  | None | Some [] => throw MissingApiKey
  | Some apiKey =>
      let batch := slice0 MAX_ARTICLES_PER_BATCH items in
      lift (forEach printable batch) ;;;
      let itemsList := renderItems batch in
      emit (PostSummarize apiKey itemsList) ;;;
      match service w with
      | Unreachable => throw NetworkError
      | Responded ok status body =>
          if negb ok then throw (ApiError status body)
          else lift (readReply body)
      end
  end.

(** ** Merger *)

(** A member of an object literal as [JSON.stringify] keeps it: one
    whose value is [undefined] is left out. *)
Definition member (k : jsstring) (v : jsval) : list (jsstring * json) :=
  match v with
  | Some x => [(k, x)]
  | None => []
  end.

Definition newEntry (autoMode : bool) (date : jsstring) (maxId : number)
  (article : json) : Entry.t :=
  JObj ([(js "id", JStr (numberToString maxId))]
        ++ member (js "title") (field article (js "title"))
        ++ member (js "summary") (field article (js "summary"))
        ++ member (js "bottomLine")
             (if autoMode then orEmpty (field article (js "bottomLine"))
              else field article (js "bottomLine"))
        ++ member (js "category") (field article (js "category"))
        ++ [(js "publishDate", JStr date)]
        ++ member (js "sourceUrl") (field article (js "sourceUrl"))).

(** The loop [for (const article of ...)] of both writing modes, on the
    in-memory corpus, the running maximum and the counter. *)
Fixpoint mergeLoop (autoMode : bool) (hebrewDate : nat -> jsstring)
  (articles : list json) (existing : Corpus) (maxId : number) (added : nat)
  : result (Corpus * number * nat) :=
  match articles with
  | [] => Ok (existing, maxId, added)
  | article :: rest =>
      match getProp (Some article) (js "sourceUrl") with
      | Throw e => Throw e
      | Ok url =>
          match isDuplicate (JArr existing) url (field article (js "title")) with
          | Throw e => Throw e
          | Ok true => mergeLoop autoMode hebrewDate rest existing maxId added
          | Ok false =>
              let maxId' := increment maxId in
              let entry := newEntry autoMode (hebrewDate added) maxId' article in
              mergeLoop autoMode hebrewDate rest (entry :: existing) maxId' (S added)
          end
      end
  end.

(** The merge of one run: the running maximum starts at the largest id
    of the corpus and the counter at zero; the result is the corpus and
    the number of entries added.  Both writing modes run this loop, auto
    mode with [|| ""] on [bottomLine]. *)
Definition merge (autoMode : bool) (hebrewDate : nat -> jsstring)
  (existing : Corpus) (articles : list json) : result (Corpus * nat) :=
  match maxIdOf existing with
  | Throw e => Throw e
  | Ok maxId =>
      match mergeLoop autoMode hebrewDate articles existing maxId 0 with
      | Ok (existing', _, added) => Ok (existing', added)
      | Throw e => Throw e
      end
  end.

(** [existing.reduce] and [existing.unshift]: methods of arrays. *)
Definition asArray (existing : json) : result Corpus :=
  match existing with
  | JArr entries => Ok entries
  | _ => Throw TypeError
  end.

(** Merge and persist: what follows the summarization in auto mode and
    the argument parsing in apply mode.  Every failure before the write
    is a TypeError, whichever of the reduction and the loop meets it. *)
Definition mergeAndWrite (w : World) (autoMode : bool) (existing : json)
  (articles : json) : M unit :=
  entries <- lift (asArray existing) ;;
  records <- lift (iterate articles) ;;
  merged <- lift (merge autoMode (hebrewDate w) entries records) ;;
  writeCorpus w (fst merged).

(** ** Aggregator *)

Definition sources : list Source :=
  [GoogleNews; ScienceDaily; MedicalNewsToday; PubMed; OpenAlex].

(** One element of [sources.map(async (s) => { try ... catch ... })]:
    the adapter is started, and a failure becomes an empty list. *)
Definition scoutSource (w : World) (s : Source) : M (list Item.t) :=
  emit (FetchSource s) ;;;
  match adapter w s with
  | Fetched items => ret items
  | Failed _ => ret []
  end.

Fixpoint mapM {A B} (f : A -> M B) (l : list A) : M (list B) :=
  match l with
  | [] => ret []
  | x :: r => y <- f x ;; ys <- mapM f r ;; ret (y :: ys)
  end.

Definition fetchAll (w : World) : M (list Item.t) :=
  results <- mapM (scoutSource w) sources ;;
  ret (concat results).

(** ** main *)

Definition autoMode (w : World) : bool := includes (js "--auto") (argv w).
Definition applyMode (w : World) : bool := includes (js "--apply") (argv w).
Definition articlesJson (w : World) : option jsstring :=
  find (startsWith (js "--articles=")) (argv w).

(** [allItems.filter(cb)] *)
Fixpoint filterR {A} (cb : A -> result bool) (l : list A) : result (list A) :=
  match l with
  | [] => Ok []
  | x :: r =>
      match cb x with
      | Throw e => Throw e
      | Ok keep =>
          match filterR cb r with
          | Throw e => Throw e
          | Ok kept => Ok (if keep then x :: kept else kept)
          end
      end
  end.

Definition freshItems (existing : json) (allItems : list Item.t)
  : result (list Item.t) :=
  filterR (fun item =>
             bindR (isDuplicate existing (Some (Item.link item)) (Some (Item.title item)))
                   (fun duplicate => Ok (negb duplicate)))
          allItems.

Definition main (w : World) : M unit :=
  match applyMode w, articlesJson w with
  | true, Some arg =>
      match JSON_parse (skipn (length (js "--articles=")) arg) with
      | None => throw SyntaxError
      | Some newArticles =>
          existing <- loadExisting ;;
          mergeAndWrite w false existing newArticles
      end
  | _, _ =>
      existing <- loadExisting ;;
      lift (lengthText existing) ;;;
      allItems <- fetchAll w ;;
      newItems <- lift (freshItems existing allItems) ;;
      match newItems with
      | [] => ret tt
      | _ :: _ =>
          lift (forEach printable newItems) ;;;
          if autoMode w then
            summarized <- summarizeWithClaude w newItems ;;
            mergeAndWrite w true existing summarized
          else ret tt
      end
  end.

(** The process: [main().catch(e => process.exit(1))]. *)
Definition run (w : World) : result unit * RunState :=
  main w (mkState (disk w) []).

Definition exitCode (w : World) : Z :=
  match fst (run w) with
  | Ok _ => 0%Z
  | Throw _ => 1%Z
  end.

(** ** Vocabulary of the statements *)

(** A value parser that consumes input, and one that has fuel enough
    for every text of length at most [bound]. *)
Definition consumes (pv : jsstring -> parsed) : Prop :=
  forall s v r, pv s = Parsed v r -> (length r < length s)%nat.

Definition fuelled (bound : nat) (pv : jsstring -> parsed) : Prop :=
  forall s, (length s <= bound)%nat -> pv s <> Exhausted.

(** The two dedup keys of a stored entry, where [isDuplicate] can read
    them. *)
Definition urlKey (e : Entry.t) : option jsstring :=
  match storedUrl e with
  | Ok key => Some key
  | Throw _ => None
  end.

Definition titleKey (e : Entry.t) : option jsstring :=
  match storedTitle e with
  | Ok key => Some key
  | Throw _ => None
  end.

(** The values that are there, in order. *)
Fixpoint present {A} (l : list (option A)) : list A :=
  match l with
  | [] => []
  | Some a :: r => a :: present r
  | None :: r => present r
  end.

(** No two entries share a normalized sourceUrl or a normalized title. *)
Definition distinctKeys (c : Corpus) : Prop :=
  NoDup (present (map urlKey c)) /\ NoDup (present (map titleKey c)).

(** An entry whose two keys [isDuplicate] can read. *)
Definition keyed (e : Entry.t) : Prop :=
  exists keys, entryKeys e = Ok keys.

(** The ids the merge gives after the running maximum [m], as it
    spells them. *)
Fixpoint idsFrom (m : number) (n : nat) : list jsval :=
  match n with
  | O => []
  | S k => Some (JStr (numberToString (increment m))) :: idsFrom (increment m) k
  end.

(** The value a run starts from, given the state of the file, and its
    entries when it is an array. *)
Definition existingOf (f : FileState) : json :=
  match f with
  | Document v => v
  | Absent | Malformed _ => JArr []
  end.

Definition loaded (f : FileState) : Corpus :=
  match existingOf f with
  | JArr c => c
  | _ => []
  end.

(** What a source contributes to a run. *)
Definition yield (w : World) (s : Source) : list Item.t :=
  match adapter w s with
  | Fetched items => items
  | Failed _ => []
  end.

(** The run takes the scouting path, with [--auto]. *)
Definition scoutsInAutoMode (w : World) : Prop :=
  autoMode w = true /\ (applyMode w = false \/ articlesJson w = None).

(** The credential is absent (an empty value counts as absent). *)
Definition credentialMissing (w : World) : Prop :=
  ANTHROPIC_API_KEY w = None \/ ANTHROPIC_API_KEY w = Some [].

(** What the filter on the candidates of a scouting run comes to. *)
Definition filtered (w : World) : result (list Item.t) :=
  freshItems (existingOf (disk w)) (concat (map (yield w) sources)).

(** The new candidates of a scouting run: none where the filter
    fails. *)
Definition newItems (w : World) : list Item.t :=
  match filtered w with
  | Ok items => items
  | Throw _ => []
  end.

Definition isWrite (e : Event) : bool :=
  match e with WriteFile _ => true | _ => false end.

Definition isPost (e : Event) : bool :=
  match e with PostSummarize _ _ => true | _ => false end.

Definition isFetch (e : Event) : bool :=
  match e with FetchSource _ => true | _ => false end.

(** [l1] is [l2] with some elements left out, the order kept. *)
Inductive subseq {A : Type} : list A -> list A -> Prop :=
| subseq_nil : subseq [] []
| subseq_skip (x : A) (l1 l2 : list A) : subseq l1 l2 -> subseq l1 (x :: l2)
| subseq_take (x : A) (l1 l2 : list A) : subseq l1 l2 -> subseq (x :: l1) (x :: l2).

(** The same world with another corpus file. *)
Definition withDisk (w : World) (d : FileState) : World :=
  mkWorld (argv w) (ANTHROPIC_API_KEY w) (adapter w) (service w) (hebrewDate w)
          d (diskWritable w).

(** The conditions the summarizer validates, as facts about the world. *)
Definition httpFailure (w : World) : Prop :=
  exists status body, service w = Responded false status body.

(** The service answered with success, and [text] is the trimmed text
    of the first content block of its body. *)
Definition repliedWith (w : World) (data : json) (text : jsstring) : Prop :=
  exists status body,
    service w = Responded true status body
    /\ JSON_parse body = Some data
    /\ replyText data = Ok text.

Definition truncatedReply (w : World) : Prop :=
  exists data text, repliedWith w data text /\ isMaxTokens data = true.

Definition noArrayInReply (w : World) : Prop :=
  exists data text, repliedWith w data text /\ matchArray text = None.

Definition unparsableArray (w : World) : Prop :=
  exists data text jsonMatch,
    repliedWith w data text
    /\ matchArray text = Some jsonMatch
    /\ JSON_parse jsonMatch = None.

Definition validationFails (w : World) : Prop :=
  credentialMissing w \/ httpFailure w \/ truncatedReply w
  \/ noArrayInReply w \/ unparsableArray w.

(** The outcome of the summarizer on candidates it can render, apart
    from the request it logs. *)
Definition summarizeResult (w : World) : result json :=
  match ANTHROPIC_API_KEY w with
  | None | Some [] => Throw MissingApiKey
  | Some _ =>
      match service w with
      | Unreachable => Throw NetworkError
      | Responded ok status body =>
          if ok then readReply body else Throw (ApiError status body)
      end
  end.

(** The corpus a merge-and-write step persists, or why it does not. *)
Definition mergeResult (w : World) (auto : bool) (existing : json)
  (articles : json) : result Corpus :=
  bindR (asArray existing) (fun entries =>
  bindR (iterate articles) (fun records =>
  bindR (merge auto (hebrewDate w) entries records) (fun merged =>
  if diskWritable w then Ok (fst merged) else Throw IOError))).

(** Where a step leaves the run: a corpus written, or a failure. *)
Definition persist (r : result Corpus) (st : RunState) : result unit * RunState :=
  match r with
  | Ok c => (Ok tt, mkState (Document (JArr c)) (log st ++ [WriteFile c]))
  | Throw e => (Throw e, st)
  end.

(** The credential is there. *)
Definition credentialPresent (w : World) : Prop :=
  exists c k, ANTHROPIC_API_KEY w = Some (c :: k).

Definition isOpenBracket (c : N) : bool := c =? 91.
Definition isCloseBracket (c : N) : bool := c =? 93.

(** A record the merge can read: a value other than [null] whose
    [sourceUrl] and [title] are strings. *)
Definition readable (article : json) : bool :=
  match getProp (Some article) (js "sourceUrl"),
        getProp (Some article) (js "title") with
  | Ok (Some (JStr _)), Ok (Some (JStr _)) => true
  | _, _ => false
  end.

(** Numbers in order. *)
Definition numberLe (a b : number) : Prop :=
  match a, b with
  | NegInf, _ => True
  | _, PosInf => True
  | Fin x, Fin y => (x <= y)%Z
  | _, _ => False
  end.

(** The running maximum after [k] insertions. *)
Definition advance (m : number) (k : nat) : number := Nat.iter k increment m.

(** The entries the merge builds from the records [chosen], the oldest
    first, the running maximum being [m] and the counter [a]. *)
Fixpoint entriesOf (autoMode : bool) (date : nat -> jsstring) (m : number)
  (a : nat) (chosen : list json) : list Entry.t :=
  match chosen with
  | [] => []
  | article :: rest =>
      newEntry autoMode (date a) (increment m) article
      :: entriesOf autoMode date (increment m) (S a) rest
  end.

(** The numerals of [m+k], ..., [m+1]: the newest first. *)
Fixpoint countDown (m : Z) (k : nat) : list jsval :=
  match k with
  | O => []
  | S j => Some (JStr (decimal (m + Z.of_nat (S j)))) :: countDown m j
  end.

(** The ids of a corpus, as numbers, where they can be read. *)
Definition idsOf (c : Corpus) : result (list number) := mapR idNumber c.

(** The request a call of the summarizer sends, if it sends one, on
    candidates it can render. *)
Definition requests (w : World) (items : list Item.t) : list Event :=
  match ANTHROPIC_API_KEY w with
  | None | Some [] => []
  | Some apiKey =>
      [PostSummarize apiKey
         (renderItems (firstn MAX_ARTICLES_PER_BATCH items))]
  end.

(** The five fetches of a scouting run. *)
Definition fetched (w : World) : RunState :=
  mkState (disk w) (map FetchSource sources).

(** A scouting run gets as far as the summarizer: the size of the
    corpus prints, new candidates are left, and the listing of them
    prints. *)
Definition listsCandidates (w : World) : Prop :=
  (exists text, lengthText (existingOf (disk w)) = Ok text)
  /\ newItems w <> []
  /\ forEach printable (newItems w) = Ok tt.

(** The ids of a corpus, where they can all be read, are below 2^53. *)
Definition belowTwo53 (c : Corpus) : Prop :=
  forall max, maxIdOf c = Ok max -> numberLe max (Fin (two53 - 1)).

(** A corpus file the duplicate check can read throughout: an array,
    or no readable file at all, where every entry has its two keys; and
    one whose ids all convert to text. *)
Definition keyedCorpus (f : FileState) : Prop :=
  exists c, existingOf f = JArr c /\ Forall keyed c.

Definition numberedCorpus (f : FileState) : Prop :=
  exists max, maxIdOf (loaded f) = Ok max.

(** A candidate whose four fields are strings, as the feed adapters
    build them. *)
Definition plainItem (item : Item.t) : Prop :=
  exists title source link pubDate,
    Item.title item = JStr title /\ Item.source item = JStr source
    /\ Item.link item = JStr link /\ Item.pubDate item = JStr pubDate.

(** An integer at or above zero that a double holds: every integer up
    to 2^53, and past it the integers of 53 significant bits. *)
Definition isDouble (z : Z) : Prop :=
  (0 <= z <= two53)%Z
  \/ (two53 < z /\ z mod 2 ^ (Z.log2 z - 52) = 0)%Z.

(** What the running maximum of a merge can be. *)
Definition runningMax (m : number) : Prop :=
  match m with
  | Fin z => isDouble z
  | PosInf => True
  | NegInf => False
  end.

(** ** Source adapters: the RSS feeds *)

Definition MAX_PER_SOURCE : nat := 2.

(** The pattern of [parseRSSItems] is a sequence of literals and lazy
    wildcards [[\s\S]*?], three of them captured.  Without the [u] flag
    a wildcard step takes one code unit, whatever it is. *)
Inductive token : Type :=
| Lit (text : jsstring)
| Lazy (captured : bool).

(** A lazy wildcard in front of the rest [k] of a pattern: the rest is
    tried first, and one more unit is given to the wildcard each time
    the rest fails.  [taken] holds what the wildcard has, last unit
    first. *)
Fixpoint lazyAny {A} (k : jsstring -> jsstring -> option A)
  (taken s : jsstring) : option A :=
  match k (rev taken) s with
  | Some r => Some r
  | None =>
      match s with
      | [] => None
      | c :: r => lazyAny k (c :: taken) r
      end
  end.

(** The first match of the pattern at the start of [s], in the order of
    the backtracking search: the captures and the text after the
    match. *)
Fixpoint matchHere (p : list token) (s : jsstring)
  : option (list jsstring * jsstring) :=
  match p with
  | [] => Some ([], s)
  | Lit text :: p' =>
      if startsWith text s then matchHere p' (skipn (length text) s) else None
  | Lazy captured :: p' =>
      lazyAny (fun taken rest =>
                 match matchHere p' rest with
                 | Some (caps, after) =>
                     Some (if captured then taken :: caps else caps, after)
                 | None => None
                 end) [] s
  end.

(** [regex.exec(xml)] with the [g] flag, [s] being the text from
    [lastIndex] on: the start positions are tried from the left; on a
    match [lastIndex] moves to its end, so the text after the match is
    what the next call sees. *)
Fixpoint exec (p : list token) (s : jsstring)
  : option (list jsstring * jsstring) :=
  match matchHere p s with
  | Some r => Some r
  | None =>
      match s with
      | [] => None
      | _ :: r => exec p r
      end
  end.

Definition itemPattern : list token :=
  [Lit (js "<item>"); Lazy false;
   Lit (js "<title>"); Lazy true; Lit (js "</title>"); Lazy false;
   Lit (js "<link>"); Lazy true; Lit (js "</link>"); Lazy false;
   Lit (js "<pubDate>"); Lazy true; Lit (js "</pubDate>"); Lazy false;
   Lit (js "</item>")].

Definition cdataOpen : jsstring := js "<![CDATA[".
Definition cdataClose : jsstring := js "]]>".

(** [s.replace(/<!\[CDATA\[|\]\]>/g, "")]: one scan from the left; at a
    position where a marker starts (the opening one is tried first) the
    marker is dropped and the scan goes on after it, [skip] counting
    the units of the marker still to pass. *)
Fixpoint removeMarkers (skip : nat) (s : jsstring) : jsstring :=
  match s with
  | [] => []
  | c :: r =>
      match skip with
      | S k => removeMarkers k r
      | O =>
          if startsWith cdataOpen s then removeMarkers (length cdataOpen - 1) r
          else if startsWith cdataClose s
               then removeMarkers (length cdataClose - 1) r
               else c :: removeMarkers 0 r
      end
  end.

Definition stripCdata (s : jsstring) : jsstring := removeMarkers 0 s.

Module Rss.
(** One element of what [parseRSSItems] returns. *)
Record t : Type := mk {
    title : jsstring;
    link : jsstring;
    pubDate : jsstring
}.
End Rss.

(** The body of the loop, from the captures [match[1..3]]. *)
Definition rssItem (caps : list jsstring) : Rss.t :=
  let rawTitle := stripCdata (trim (nth 0 caps [])) in
  Rss.mk (trim rawTitle) (trim (nth 1 caps [])) (trim (nth 2 caps [])).

(** [while ((match = regex.exec(xml)) !== null) items.push(...)].  A
    match takes at least the literals of the pattern, so there are fewer
    rounds than the text has units: fuel equal to its length is never
    used up ([rssLoop_enough_fuel] below). *)
Fixpoint rssLoop (fuel : nat) (xml : jsstring) : option (list Rss.t) :=
  match exec itemPattern xml with
  | None => Some []
  | Some (caps, rest) =>
      match fuel with
      | O => None
      | S f =>
          match rssLoop f rest with
          | Some items => Some (rssItem caps :: items)
          | None => None
          end
      end
  end.

Definition parseRSSItems (xml : jsstring) : list Rss.t :=
  match rssLoop (length xml) xml with
  | Some items => items
  | None => []
  end.

(** What [fetch] and [res.text()] come to: a rejection with the message
    of the runtime, or a status line and the text of the body. *)
Inductive HttpResult : Type :=
| FetchFailed (message : jsstring)
| Answered (ok : bool) (status : Z) (body : jsstring).

(** [s.split(sep)] for a separator that is not empty: the occurrences
    are taken from the left and do not overlap.  [cur] is the part being
    read, last unit first; [skip] counts the units of a separator still
    to pass. *)
Fixpoint splitFrom (sep : jsstring) (skip : nat) (cur s : jsstring)
  : list jsstring :=
  match s with
  | [] => [rev cur]
  | c :: r =>
      match skip with
      | S k => splitFrom sep k cur r
      | O =>
          if startsWith sep s
          then rev cur :: splitFrom sep (length sep - 1) [] r
          else splitFrom sep 0 (c :: cur) r
      end
  end.

Definition split (sep s : jsstring) : list jsstring := splitFrom sep 0 [] s.

Definition dash : jsstring := js " - ".

(** The callback of [fetchGoogleNews]: the publisher is the part after
    the last separator of the title. *)
Definition googleItem (item : Rss.t) : Item.t :=
  let titleParts := split dash (Rss.title item) in
  let joined := join dash (removelast titleParts) in
  let title := match joined with [] => Rss.title item | _ => joined end in
  let source := if (1 <? length titleParts)%nat then last titleParts []
                else js "Google News" in
  Item.mk (trim title) (trim source) (Rss.link item) (Rss.pubDate item)
          (js "google-news").

Definition fetchGoogleNews (res : HttpResult) : AdapterResult :=
  match res with
  | FetchFailed message => Failed message
  | Answered ok status xml =>
      if negb ok then Failed (js "Google News RSS: " ++ decimal status)
      else
        let items := parseRSSItems xml in
        Fetched (map googleItem (slice0 MAX_PER_SOURCE items))
  end.

Definition fetchScienceDaily (res : HttpResult) : AdapterResult :=
  match res with
  | FetchFailed message => Failed message
  | Answered ok status xml =>
      if negb ok then Failed (js "ScienceDaily RSS: " ++ decimal status)
      else
        Fetched (map (fun item =>
                        Item.mk (Rss.title item) (js "ScienceDaily")
                                (Rss.link item) (Rss.pubDate item)
                                (js "sciencedaily"))
                     (slice0 MAX_PER_SOURCE (parseRSSItems xml)))
  end.

Definition fetchMedicalNewsToday (res : HttpResult) : AdapterResult :=
  match res with
  | FetchFailed message => Failed message
  | Answered ok status xml =>
      if negb ok then Failed (js "MedNewsToday RSS: " ++ decimal status)
      else
        Fetched (map (fun item =>
                        Item.mk (Rss.title item) (js "Medical News Today")
                                (Rss.link item) (Rss.pubDate item)
                                (js "medicalnewstoday"))
                     (slice0 MAX_PER_SOURCE (parseRSSItems xml)))
  end.

(** ** Source adapters: OpenAlex *)

Module Work.
(** An item as [fetchOpenAlex] builds it.  Its fields are the values the
    reply holds, or the string the adapter puts in their place. *)
Record t : Type := mk {
    title : json;
    source : json;
    link : json;
    pubDate : json;
    origin : jsstring
}.
End Work.

(** [v || d] *)
Definition orElse (v : jsval) (d : json) : json :=
  match v with
  | Some x => if truthy v then x else d
  | None => d
  end.

(** [v?.k], for the property names the adapter reads. *)
Definition optProp (v : jsval) (k : jsstring) : jsval :=
  match v with
  | Some (JObj ms) => lookup k ms
  | _ => None
  end.

(** The callback of [data.results.slice(0, MAX_PER_SOURCE).map]. *)
Definition openAlexItem (w : json) : result Work.t :=
  bindR (getProp (Some w) (js "title")) (fun title =>
  bindR (getProp (Some w) (js "primary_location")) (fun location =>
  bindR (getProp (Some w) (js "doi")) (fun doi =>
  bindR (getProp (Some w) (js "id")) (fun id =>
  bindR (getProp (Some w) (js "publication_date")) (fun date =>
  Ok (Work.mk
        (orElse title (JStr (js "Untitled")))
        (orElse (optProp (optProp location (js "source")) (js "display_name"))
                (JStr (js "Academic")))
        (orElse doi (orElse id (JStr [])))
        (orElse date (JStr []))
        (js "openalex"))))))).

(** Why an adapter gave up: an error with a message of the script or of
    [fetch], or one the engine raised. *)
Inductive Failure : Type :=
| Reported (message : jsstring)
| Raised (e : Error).

Inductive Outcome : Type :=
| Gathered (items : list Work.t)
| GaveUp (why : Failure).

(** [data.results.slice(0, MAX_PER_SOURCE).map(...)]: only an array has
    both methods. *)
Definition openAlexItems (data : json) : result (list Work.t) :=
  bindR (getProp (Some data) (js "results")) (fun results =>
  match results with
  | Some (JArr l) => mapR openAlexItem (slice0 MAX_PER_SOURCE l)
  | _ => Throw TypeError
  end).

Definition fetchOpenAlex (res : HttpResult) : Outcome :=
  match res with
  | FetchFailed message => GaveUp (Reported message)
  | Answered ok status body =>
      if negb ok then GaveUp (Reported (js "OpenAlex: " ++ decimal status))
      else
        match JSON_parse body with
        | None => GaveUp (Raised SyntaxError)
        | Some data =>
            match openAlexItems data with
            | Ok items => Gathered items
            | Throw e => GaveUp (Raised e)
            end
        end
  end.

Definition nonNull (v : json) : bool :=
  match v with
  | JNull => false
  | _ => true
  end.

(** A value is a string the adapter put in, or a truthy value of the
    reply. *)
Definition presentOr (d : json) (v : json) : bool :=
  truthy (Some v) || match v, d with
                     | JStr a, JStr b => streq a b
                     | _, _ => false
                     end.

(** ** Vocabulary of the feeds *)

(** [lit] starts at no position inside [f] when [lit] follows [f]: a
    lazy wildcard in front of [lit] takes exactly [f]. *)
Fixpoint clearOf (lit f : jsstring) : bool :=
  match f with
  | [] => true
  | _ :: r => negb (startsWith lit (f ++ lit)) && clearOf lit r
  end.

(** [lit] occurs nowhere in [s]. *)
Fixpoint absent (lit s : jsstring) : bool :=
  negb (startsWith lit s)
  && match s with
     | [] => true
     | _ :: r => absent lit r
     end.

Module Block.
(** One item of a feed as it is spelled: the text in front of the item,
    and inside it the three elements with the text around them. *)
Record t : Type := mk {
    gap : jsstring;
    lead : jsstring;
    title : jsstring;
    afterTitle : jsstring;
    link : jsstring;
    afterLink : jsstring;
    pubDate : jsstring;
    trail : jsstring
}.
End Block.

Definition render (b : Block.t) : jsstring :=
  Block.gap b ++ js "<item>" ++ Block.lead b
  ++ js "<title>" ++ Block.title b ++ js "</title>" ++ Block.afterTitle b
  ++ js "<link>" ++ Block.link b ++ js "</link>" ++ Block.afterLink b
  ++ js "<pubDate>" ++ Block.pubDate b ++ js "</pubDate>" ++ Block.trail b
  ++ js "</item>".

(** Every stretch of the block ends where its closing tag first starts. *)
Definition wellFormed (b : Block.t) : bool :=
  clearOf (js "<item>") (Block.gap b)
  && clearOf (js "<title>") (Block.lead b)
  && clearOf (js "</title>") (Block.title b)
  && clearOf (js "<link>") (Block.afterTitle b)
  && clearOf (js "</link>") (Block.link b)
  && clearOf (js "<pubDate>") (Block.afterLink b)
  && clearOf (js "</pubDate>") (Block.pubDate b)
  && clearOf (js "</item>") (Block.trail b).

Definition feed (blocks : list Block.t) (tail : jsstring) : jsstring :=
  flat_map render blocks ++ tail.

(** What the parser is to return for a block. *)
Definition itemOf (b : Block.t) : Rss.t :=
  Rss.mk (trim (stripCdata (trim (Block.title b)))) (trim (Block.link b))
         (trim (Block.pubDate b)).

(** The sum of the lengths of the literals of a pattern. *)
Fixpoint litLength (p : list token) : nat :=
  match p with
  | [] => 0
  | Lit text :: p' => length text + litLength p'
  | Lazy _ :: p' => litLength p'
  end.

(** An item spelled without its [pubDate] element. *)
Definition renderUndated (b : Block.t) : jsstring :=
  Block.gap b ++ js "<item>" ++ Block.lead b
  ++ js "<title>" ++ Block.title b ++ js "</title>" ++ Block.afterTitle b
  ++ js "<link>" ++ Block.link b ++ js "</link>" ++ Block.afterLink b
  ++ js "</item>".

(** An undated item [b1] and the item [b2] after it, read as one block:
    everything from the end of the link of [b1] to the date of [b2] is
    the stretch in front of the date. *)
Definition fused (b1 b2 : Block.t) : Block.t :=
  Block.mk (Block.gap b1) (Block.lead b1) (Block.title b1)
           (Block.afterTitle b1) (Block.link b1)
           (Block.afterLink b1 ++ js "</item>" ++ Block.gap b2
            ++ js "<item>" ++ Block.lead b2
            ++ js "<title>" ++ Block.title b2 ++ js "</title>"
            ++ Block.afterTitle b2
            ++ js "<link>" ++ Block.link b2 ++ js "</link>"
            ++ Block.afterLink b2)
           (Block.pubDate b2) (Block.trail b2).

(** No CDATA marker starts inside [f] when [suffix] follows it. *)
Fixpoint unmarked (suffix f : jsstring) : bool :=
  match f with
  | [] => true
  | _ :: r =>
      negb (startsWith cdataOpen (f ++ suffix))
      && negb (startsWith cdataClose (f ++ suffix))
      && unmarked suffix r
  end.

(** The world [w] with its three feeds answered by [google], [science]
    and [medical]. *)
Definition withFeeds (w : World) (google science medical : HttpResult) : World :=
  mkWorld (argv w) (ANTHROPIC_API_KEY w)
          (fun s => match s with
                    | GoogleNews => fetchGoogleNews google
                    | ScienceDaily => fetchScienceDaily science
                    | MedicalNewsToday => fetchMedicalNewsToday medical
                    | _ => adapter w s
                    end)
          (service w) (hebrewDate w) (disk w) (diskWritable w).

(** ** The pages that read the corpus *)

(** [a.id === articleId] *)
Definition hasId (articleId : jsstring) (a : json) : result bool :=
  bindR (getProp (Some a) (js "id")) (fun i =>
  Ok (match i with
      | Some (JStr s) => streq s articleId
      | _ => false
      end)).

(** [articles.find(cb)] *)
Fixpoint findR {A} (cb : A -> result bool) (l : list A) : result (option A) :=
  match l with
  | [] => Ok None
  | x :: r =>
      match cb x with
      | Throw e => Throw e
      | Ok true => Ok (Some x)
      | Ok false => findR cb r
      end
  end.

(** The fields the template of [renderArticle] converts to text; the
    category is also the key looked up in [CATEGORY_ICONS]. *)
Definition renderArticle (article : json) : result unit :=
  bindR (getProp (Some article) (js "category")) (fun category =>
  bindR (toText category) (fun _ =>
  bindR (toText (field article (js "title"))) (fun _ =>
  bindR (toText (field article (js "publishDate"))) (fun _ =>
  bindR (toText (field article (js "summary"))) (fun _ =>
  bindR (toText (field article (js "bottomLine"))) (fun _ =>
  bindR (toText (field article (js "sourceUrl"))) (fun _ => Ok tt))))))).

(** One card of [renderRelated]. *)
Definition relatedCard (article : json) : result unit :=
  bindR (getProp (Some article) (js "id")) (fun i =>
  bindR (toText i) (fun _ =>
  bindR (toText (field article (js "category"))) (fun _ =>
  bindR (toText (field article (js "title"))) (fun _ =>
  bindR (toText (field article (js "publishDate"))) (fun _ => Ok tt))))).

(** What the article page comes to show. *)
Inductive Page : Type :=
| NotFound
| Shown (article : Entry.t) (related : list Entry.t).

(** The [try] block of [loadArticle] of [js/article.js], on the value
    [articles] that [content/articles.json] parses to, in a document
    that has the two containers. *)
Definition showArticle (articles : json) (articleId : jsstring)
  : result (option (Entry.t * list Entry.t)) :=
  bindR (asArray articles) (fun entries =>
  bindR (findR (hasId articleId) entries) (fun found =>
  match found with
  | None => Ok None
  | Some article =>
      bindR (renderArticle article) (fun _ =>
      bindR (filterR (fun a => bindR (hasId articleId a) (fun same => Ok (negb same)))
                     entries) (fun others =>
      let related := slice0 3 others in
      bindR (forEach relatedCard related) (fun _ =>
      bindR (toText (field article (js "title"))) (fun _ =>
      Ok (Some (article, related))))))
  end)).

(** [loadArticle]: [articleId] is [params.get('id')], [None] when the
    address has no such parameter; whatever the [try] block throws
    ends in [showNotFound]. *)
Definition loadArticle (articles : json) (articleId : option jsstring) : Page :=
  match articleId with
  | None | Some [] => NotFound
  | Some i =>
      match showArticle articles i with
      | Ok (Some (article, related)) => Shown article related
      | Ok None | Throw _ => NotFound
      end
  end.

(** [s.includes(q)] *)
Definition includesText (q s : jsstring) : bool := negb (absent q s).

(** The name of the filter button that shows every category. *)
Definition everything : jsstring := [1492; 1499; 1500].

(** [a.k.toLowerCase()] *)
Definition lowered (a : json) (k : jsstring) : result jsstring :=
  bindR (getProp (Some a) k) (fun v =>
  bindR (asString v) (fun s => Ok (toLowerCase s))).

(** The callback of the search filter of [js/archive.js]; a field that
    is read and is no string has no [toLowerCase]. *)
Definition matchesQuery (query : jsstring) (a : json) : result bool :=
  bindR (lowered a (js "title")) (fun t =>
  if includesText query t then Ok true
  else
    bindR (lowered a (js "summary")) (fun s =>
    if includesText query s then Ok true
    else
      bindR (lowered a (js "bottomLine")) (fun b =>
      Ok (includesText query b)))).

(** [a.category === activeCategory] *)
Definition inCategory (activeCategory : jsstring) (a : json) : result bool :=
  bindR (getProp (Some a) (js "category")) (fun category =>
  Ok (match category with
      | Some (JStr c) => streq c activeCategory
      | _ => false
      end)).

(** One card of [renderArticles]: the category must be a string, for
    [replace]; the other fields are converted to text. *)
Definition archiveCard (article : json) : result unit :=
  bindR (getProp (Some article) (js "category")) (fun category =>
  bindR (asString category) (fun _ =>
  bindR (toText (field article (js "id"))) (fun _ =>
  bindR (toText (field article (js "title"))) (fun _ =>
  bindR (toText (field article (js "summary"))) (fun _ =>
  bindR (toText (field article (js "publishDate"))) (fun _ => Ok tt)))))).

(** [renderArticles]; [grid] tells whether the document has the
    element the cards go to. *)
Definition renderArticles (grid : bool) (articles : Corpus) : result unit :=
  if grid then forEach archiveCard articles else Ok tt.

(** [applyFilters] of [js/archive.js]: the entries it hands to
    [renderArticles], once these are rendered.  [searchValue] is the
    value of the search box, [None] when the page has none. *)
Definition applyFilters (grid : bool) (allArticles : Corpus)
  (activeCategory : jsstring) (searchValue : option jsstring) : result Corpus :=
  let query := match searchValue with
               | Some value => toLowerCase (trim value)
               | None => []
               end in
  bindR (if negb (streq activeCategory everything)
         then filterR (inCategory activeCategory) allArticles
         else Ok allArticles) (fun byCategory =>
  bindR (match query with
         | [] => Ok byCategory
         | _ => filterR (matchesQuery query) byCategory
         end) (fun filtered =>
  bindR (renderArticles grid filtered) (fun _ => Ok filtered))).

(** An entry the two pages can render: its fields convert to text. *)
Definition displayable (a : json) : Prop :=
  renderArticle a = Ok tt /\ relatedCard a = Ok tt.

(** [a.category === activeCategory], where it can be asked. *)
Definition categoryIs (activeCategory : jsstring) (a : json) : bool :=
  match inCategory activeCategory a with
  | Ok true => true
  | _ => false
  end.

(** An entry the archive can search and render: its title, summary and
    bottom line are strings and its card renders. *)
Definition plainEntry (a : json) : Prop :=
  (exists title summary bottomLine,
      Entry.title a = Some (JStr title)
      /\ Entry.summary a = Some (JStr summary)
      /\ Entry.bottomLine a = Some (JStr bottomLine))
  /\ archiveCard a = Ok tt.

(** ** Proof steps *)

(** The three states of the credential: empty, set, unset. *)
Ltac split_key w := destruct (ANTHROPIC_API_KEY w) as [[|? ?]|].

(** ** Sample data *)

(** A literal in which the apostrophe stands for the double quote. *)
Definition jsq (s : String.string) : jsstring :=
  map (fun c => if c =? 39 then 34 else c) (js s).

(** The body of a successful reply of the service whose first content
    block holds [text]. *)
Definition replyBody (text stopReason : jsstring) : jsstring :=
  jsq "{'content':[{'type':'text','text':'"
  ++ flat_map (fun c => if (c =? 34) || (c =? 92) then [92; c] else [c]) text
  ++ jsq "'}],'stop_reason':'" ++ stopReason ++ jsq "'}".

Definition sampleClock (n : nat) : jsstring := js "2 November 2026".

Definition sampleEntry (id title url : jsstring) : Entry.t :=
  JObj [(js "id", JStr id); (js "title", JStr title);
        (js "summary", JStr (js "...")); (js "bottomLine", JStr (js "..."));
        (js "category", JStr (js "research"));
        (js "publishDate", JStr (js "1 November 2026"));
        (js "sourceUrl", JStr url)].

Definition sampleCorpus : Corpus :=
  [sampleEntry (js "7") (js "Old news") (js "https://example.com/old/")].

Definition sampleRecord (title url : jsstring) : json :=
  JObj [(js "title", JStr title); (js "summary", JStr (js "..."));
        (js "bottomLine", JStr (js "...")); (js "category", JStr (js "research"));
        (js "sourceUrl", JStr url)].

(** Three records; the second repeats the stored title, in capitals. *)
Definition sampleArticles : list json :=
  [sampleRecord (js "Walking adds years") (js "https://example.com/walk");
   sampleRecord (js " OLD NEWS ") (js "https://example.com/elsewhere");
   sampleRecord (js "Sleep and aging") (js "https://example.com/sleep")].

Definition sampleMerged : Corpus :=
  match merge false sampleClock sampleCorpus sampleArticles with
  | Ok (c, _) => c
  | Throw _ => []
  end.

Definition sampleItem (title link : jsstring) : Item.t :=
  Item.mk title (js "ScienceDaily") link (js "Mon, 02 Nov 2026")
          (js "sciencedaily").

(** ScienceDaily has two new articles, PubMed is down. *)
Definition twoNewArticles (s : Source) : AdapterResult :=
  match s with
  | ScienceDaily =>
      Fetched [sampleItem (js "Walking adds years") (js "https://example.com/walk");
               sampleItem (js "Sleep and aging") (js "https://example.com/sleep")]
  | PubMed => Failed (js "PubMed search: 503")
  | _ => Fetched []
  end.

Definition nothingNew (s : Source) : AdapterResult := Fetched [].

(** [--auto] without the credential, nothing new at the sources. *)
Definition quietWorld : World :=
  mkWorld [js "--auto"] None nothingNew Unreachable sampleClock
          (Document (JArr sampleCorpus)) true.

(** [--auto] without the credential, two new candidates. *)
Definition keylessWorld : World :=
  mkWorld [js "--auto"] None twoNewArticles Unreachable sampleClock
          (Document (JArr sampleCorpus)) true.

(** [--auto], two candidates sent, a bare array of one record back. *)
Definition shortReplyWorld : World :=
  mkWorld [js "--auto"] (Some (js "sk-test")) twoNewArticles
    (Responded true 200
       (replyBody
          (jsq "[{'title':'Walk more','summary':'...','category':'research','sourceUrl':'https://example.com/walk'}]")
          (js "end_turn")))
    sampleClock (Document (JArr sampleCorpus)) true.

(** [--auto], two candidates sent, two records back inside a sentence. *)
Definition proseWorld : World :=
  mkWorld [js "--auto"] (Some (js "sk-test")) twoNewArticles
    (Responded true 200
       (replyBody
          (jsq "Here is the JSON: [{'title':'Walk more','sourceUrl':'https://example.com/walk'},{'title':'Sleep well','sourceUrl':'https://example.com/sleep'}] Hope this helps!")
          (js "end_turn")))
    sampleClock (Document (JArr sampleCorpus)) true.

(** [--auto], two candidates sent, a reply without any array. *)
Definition refusalWorld : World :=
  mkWorld [js "--auto"] (Some (js "sk-test")) twoNewArticles
    (Responded true 200
       (replyBody (js "I cannot summarize these articles.") (js "end_turn")))
    sampleClock (Document (JArr sampleCorpus)) true.

(** The parsed body and the text of a world's reply. *)
Definition replyData (w : World) : json :=
  match service w with
  | Responded _ _ body =>
      match JSON_parse body with Some d => d | None => JNull end
  | Unreachable => JNull
  end.

Definition replyTextOf (w : World) : jsstring :=
  match replyText (replyData w) with Ok t => t | Throw _ => [] end.

(** [--apply] with one record, the corpus file missing. *)
Definition lostFileWorld : World :=
  mkWorld [js "--apply";
           jsq "--articles=[{'title':'Walk more','sourceUrl':'https://example.com/walk'}]"]
          None nothingNew Unreachable sampleClock Absent true.

(** [--apply] with two records, the second without a [sourceUrl]. *)
Definition halfReadableWorld : World :=
  mkWorld [js "--apply";
           jsq "--articles=[{'title':'Walk more','sourceUrl':'https://example.com/walk'},{'title':'No link'}]"]
          None nothingNew Unreachable sampleClock (Document (JArr sampleCorpus)) true.

Definition halfReadableRecords : list json :=
  match JSON_parse (jsq "[{'title':'Walk more','sourceUrl':'https://example.com/walk'},{'title':'No link'}]") with
  | Some (JArr l) => l
  | _ => []
  end.

(** A feed of three items, the first with its title in a CDATA
    section. *)
Definition sampleBlock (gap title link pubDate : jsstring) : Block.t :=
  Block.mk gap [10; 32] title [10; 32] link [10; 32] pubDate [10].

Definition sampleBlocks : list Block.t :=
  [sampleBlock (js "<rss><channel><title>Healthy aging</title>")
     (js " <![CDATA[Walking adds years - The Daily]]> ")
     (js "https://example.com/walk ") (js "Mon, 02 Nov 2026");
   sampleBlock [10] (js "Sleep and aging - a review - Health Weekly")
     (js "https://example.com/sleep") (js "Sun, 01 Nov 2026");
   sampleBlock [10] (js "Old news") (js "https://example.com/old")
     (js "Sat, 31 Oct 2026")].

Definition sampleTail : jsstring := js "</channel></rss>".

Definition sampleFeed : jsstring := feed sampleBlocks sampleTail.


(** A corpus whose one id is 2^53, the first integer whose successor is
    not a double. *)
Definition bigCorpus : Corpus :=
  [sampleEntry (js "9007199254740992") (js "Old news") (js "https://example.com/old/")].

Definition bigMerged : Corpus :=
  match merge false sampleClock bigCorpus sampleArticles with
  | Ok (c, _) => c
  | Throw _ => []
  end.

(* ================================================================== *)
(** * Part II. Properties                                               *)
(* ================================================================== *)

(** ** The definitions at work *)

Example normalizeUrl_example :
  normalizeUrl (js "HTTPS://Example.com/Path//") = js "https://example.com/path".
Proof. reflexivity. Qed.

Example normalizeUrl_inner_slashes :
  normalizeUrl (js "a//b/") = js "a//b".
Proof. reflexivity. Qed.

Example normalizeTitle_example :
  normalizeTitle (js "  Sleep  AND Aging ") = js "sleep  and aging".
Proof. reflexivity. Qed.

(** Lower-casing goes by code point and by the Unicode tables: Greek and
    Cyrillic capitals, a capital outside the basic plane (Deseret, two
    code units), the capital sigma at the end of a word, and the dotted
    capital I, which becomes two units. *)
Example toLowerCase_examples :
  toLowerCase [937; 924; 917; 915; 913] = [969; 956; 949; 947; 945]
  /\ toLowerCase [1046; 1048; 1047; 1053; 1068] = [1078; 1080; 1079; 1085; 1100]
  /\ toLowerCase [55297; 56320] = [55297; 56360]
  /\ toLowerCase [927; 916; 927; 931] = [959; 948; 959; 962]
  /\ toLowerCase [931; 927; 934; 927; 931; 32; 931] = [963; 959; 966; 959; 962; 32; 963]
  /\ toLowerCase [304] = [105; 775]
  /\ toLowerCase [1513; 1500; 1493; 1501] = [1513; 1500; 1493; 1501].
Proof. vm_compute. repeat split. Qed.

Example parseInt_examples :
  parseInt (js "  42abc") = Some (Fin 42)
  /\ parseInt (js "-7") = Some (Fin (-7))
  /\ parseInt (js "0x10") = Some (Fin 0)
  /\ parseInt (js "abc") = None
  /\ parseInt [] = None
  /\ parseInt (js "9007199254740993") = Some (Fin 9007199254740992).
Proof. vm_compute. repeat split. Qed.

Example idNumber_examples :
  idNumber (JObj [(js "id", JStr (js "12"))]) = Ok (Fin 12)
  /\ idNumber (JObj [(js "id", JNum (js "12.0"))]) = Ok (Fin 12)
  /\ idNumber (JObj [(js "id", JStr (js "n/a"))]) = Ok (Fin 0)
  /\ idNumber (JObj []) = Ok (Fin 0)
  /\ idNumber JNull = Throw TypeError.
Proof. vm_compute. repeat split. Qed.

(** Past 2^53 a double has no room for every integer: the increment
    stops, and the spelling keeps the shortest digits that read back as
    the same double. *)
Example number_examples :
  numberToString (Fin 1204) = js "1204"
  /\ increment (Fin 9007199254740991) = Fin 9007199254740992
  /\ increment (Fin 9007199254740992) = Fin 9007199254740992
  /\ numberToString (Fin 1152921504606846976) = js "1152921504606847000"
  /\ literalToString (js "1e21") = js "1e+21"
  /\ literalToString (js "12.50") = js "12.5"
  /\ literalToString (js "1e-7") = js "1e-7"
  /\ literalToString (js "1e400") = js "Infinity".
Proof. vm_compute. repeat split. Qed.

Example toStr_examples :
  toStr (JArr [JNum (js "1"); JNull; JArr [JStr (js "a"); JBool true]]) = Ok (js "1,,a,true")
  /\ toStr (JObj [(js "a", JNull)]) = Ok (js "[object Object]")
  /\ toStr (JObj [(js "toString", JNull)]) = Throw TypeError.
Proof. vm_compute. repeat split. Qed.

Example JSON_parse_example :
  JSON_parse (jsq " [ {'a': [true, null], 'n': -1.5e3}, 'x' ] ")
  = Some (JArr [JObj [(js "a", JArr [JBool true; JNull]);
                      (js "n", JNum (js "-1.5e3"))];
                JStr (js "x")]).
Proof. vm_compute. reflexivity. Qed.

Example JSON_parse_rejects :
  JSON_parse (js "[1,]") = None
  /\ JSON_parse (js "01") = None
  /\ JSON_parse (js "[1 2]") = None
  /\ JSON_parse (js "{a:1}") = None
  /\ JSON_parse [] = None.
Proof. repeat split. Qed.

(** The match runs from the first opening bracket to the last closing
    bracket. *)
Example matchArray_examples :
  matchArray (js "Sure: [1, [2]] and ] done") = Some (js "[1, [2]] and ]")
  /\ matchArray (js "] then [") = None
  /\ matchArray (js "no array") = None.
Proof. repeat split. Qed.

Example renderItems_example :
  renderItems [sampleItem (js "T") (js "u")]
  = js "[1] Title: T" ++ [10] ++ js "    Source: ScienceDaily" ++ [10]
    ++ js "    URL: u" ++ [10] ++ js "    Date: Mon, 02 Nov 2026".
Proof. reflexivity. Qed.

(** A dry run fetches, and touches nothing. *)
Example dry_run_example :
  run (mkWorld [] None twoNewArticles Unreachable sampleClock
               (Document (JArr sampleCorpus)) true)
  = (Ok tt, mkState (Document (JArr sampleCorpus)) (map FetchSource sources)).
Proof. vm_compute. reflexivity. Qed.

(** An injected record whose title is missing aborts the run before
    the write. *)
Example apply_unreadable_record :
  run (mkWorld [js "--apply"; jsq "--articles=[{'sourceUrl':'u'}]"] None
               nothingNew Unreachable sampleClock (Document (JArr sampleCorpus)) true)
  = (Throw TypeError, mkState (Document (JArr sampleCorpus)) []).
Proof. vm_compute. reflexivity. Qed.

(** A corpus file that holds [null]: the scouting run fails on the first
    line it prints, before any fetch. *)
Example null_corpus_example :
  run (mkWorld [js "--auto"] None twoNewArticles Unreachable sampleClock
               (Document JNull) true)
  = (Throw TypeError, mkState (Document JNull) []).
Proof. vm_compute. reflexivity. Qed.

(** ** Strings *)

Lemma streq_true_iff (a b : jsstring) : streq a b = true <-> a = b.
Proof.
  revert b; induction a as [|x a IH]; intros [|y b]; simpl; split;
    try congruence; try reflexivity.
  - intros H. apply andb_true_iff in H as [Hx Hs].
    apply N.eqb_eq in Hx. apply IH in Hs. congruence.
  - intros H. injection H as -> ->.
    rewrite N.eqb_refl. simpl. now apply IH.
Qed.

Lemma streq_refl (a : jsstring) : streq a a = true.
Proof. now apply streq_true_iff. Qed.

Lemma forallb_isSlash_repeat (s : jsstring) :
  forallb isSlash s = true -> s = repeat slash (length s).
Proof.
  induction s as [|c r IH]; simpl; intros H; [reflexivity|].
  apply andb_true_iff in H as [Hc Hr].
  apply N.eqb_eq in Hc. subst c. f_equal. now apply IH.
Qed.

Lemma replaceTrailingSlashes_app_slash (u : jsstring) :
  replaceTrailingSlashes (u ++ [slash]) = replaceTrailingSlashes u.
Proof.
  induction u as [|c r IH]; [reflexivity|].
  change ((c :: r) ++ [slash]) with (c :: (r ++ [slash])).
  cbn [replaceTrailingSlashes].
  assert (E : forallb isSlash (c :: r ++ [slash]) = forallb isSlash (c :: r)).
  { cbn [forallb]. rewrite forallb_app. cbn. now rewrite !andb_true_r. }
  rewrite E, IH. reflexivity.
Qed.

Lemma lastIs_cons (p : N -> bool) (c : N) (s : jsstring) :
  s <> [] -> lastIs p (c :: s) = lastIs p s.
Proof. destruct s; [congruence | reflexivity]. Qed.

Lemma replaceTrailingSlashes_spec (u : jsstring) :
  exists n, u = replaceTrailingSlashes u ++ repeat slash n
            /\ lastIs isSlash (replaceTrailingSlashes u) = false.
Proof.
  induction u as [|c r IH].
  - exists 0%nat. split; reflexivity.
  - cbn [replaceTrailingSlashes].
    destruct (forallb isSlash (c :: r)) eqn:E.
    + exists (length (c :: r)). split; [|reflexivity].
      now apply forallb_isSlash_repeat.
    + destruct IH as (n & Hr & Hl). exists n. split.
      * simpl. now rewrite <- Hr.
      * destruct (replaceTrailingSlashes r) as [|d t] eqn:Er.
        -- simpl in Hr. simpl. cbn [forallb] in E.
           rewrite Hr in E.
           assert (F : forallb isSlash (repeat slash n) = true).
           { clear. induction n; simpl; auto. }
           rewrite F, andb_true_r in E. exact E.
        -- rewrite lastIs_cons by congruence. exact Hl.
Qed.

Lemma trimStart_spec (s : jsstring) :
  exists a, s = a ++ trimStart s
            /\ forallb isWhiteSpace a = true
            /\ firstIs isWhiteSpace (trimStart s) = false.
Proof.
  induction s as [|c r IH].
  - exists []. repeat split.
  - simpl. destruct (isWhiteSpace c) eqn:E.
    + destruct IH as (a & Hs & Ha & Hf). exists (c :: a).
      repeat split; simpl; [now rewrite <- Hs | now rewrite E | exact Hf].
    + exists []. repeat split. simpl. exact E.
Qed.

Lemma lastIs_rev (p : N -> bool) (s : jsstring) :
  lastIs p (rev s) = firstIs p s.
Proof.
  destruct s as [|c r]; [reflexivity|]. simpl.
  induction (rev r) as [|d t IH]; [reflexivity|].
  change ((d :: t) ++ [c]) with (d :: (t ++ [c])).
  rewrite lastIs_cons; [exact IH | now destruct t].
Qed.

Lemma trimEnd_spec (s : jsstring) :
  exists b, s = trimEnd s ++ b
            /\ forallb isWhiteSpace b = true
            /\ lastIs isWhiteSpace (trimEnd s) = false.
Proof.
  unfold trimEnd.
  destruct (trimStart_spec (rev s)) as (a & Hs & Ha & Hf).
  exists (rev a). repeat split.
  - rewrite <- rev_app_distr, <- Hs. now rewrite rev_involutive.
  - rewrite forallb_forall in *. intros x Hx. apply Ha. now apply in_rev.
  - now rewrite lastIs_rev.
Qed.

Lemma trimEnd_keeps_first (s : jsstring) :
  firstIs isWhiteSpace s = false -> firstIs isWhiteSpace (trimEnd s) = false.
Proof.
  intros H. destruct (trimEnd_spec s) as (b & Hs & _ & _).
  destruct (trimEnd s) as [|c t]; [reflexivity|].
  rewrite Hs in H. exact H.
Qed.

Lemma trim_spec (s : jsstring) :
  exists a b, s = a ++ trim s ++ b
              /\ forallb isWhiteSpace a = true
              /\ forallb isWhiteSpace b = true
              /\ firstIs isWhiteSpace (trim s) = false
              /\ lastIs isWhiteSpace (trim s) = false.
Proof.
  unfold trim.
  destruct (trimStart_spec s) as (a & Hs & Ha & Hf).
  destruct (trimEnd_spec (trimStart s)) as (b & Ht & Hb & Hl).
  exists a, b. repeat split; auto.
  - now rewrite <- Ht.
  - now apply trimEnd_keeps_first.
Qed.

(** ** JSON.parse never runs out of fuel *)

Lemma skipWs_length (s : jsstring) : (length (skipWs s) <= length s)%nat.
Proof.
  induction s as [|c r IH]; simpl; [lia|].
  destruct (isJsonWs c); simpl; lia.
Qed.

Lemma skipWs_cons (s r : jsstring) (c : N) :
  skipWs s = c :: r -> (length r < length s)%nat.
Proof.
  intros H. pose proof (skipWs_length s) as L. rewrite H in L. simpl in L. lia.
Qed.

Lemma parseChars_shorter (n : nat) :
  forall s acc str r,
    (length s <= n)%nat ->
    parseChars s acc = Some (str, r) -> (length r < length s)%nat.
Proof.
  induction n as [|n IH]; intros s acc str r Hn H.
  - destruct s; [discriminate | simpl in Hn; lia].
  - destruct s as [|c s1]; [discriminate|]. simpl in Hn.
    cbn [parseChars] in H.
    destruct (c =? 34).
    { injection H as _ <-. simpl. lia. }
    destruct (c =? 92).
    + destruct s1 as [|e s2]; [discriminate|].
      destruct (e =? 117).
      * destruct s2 as [|h1 [|h2 [|h3 [|h4 s3]]]]; try discriminate.
        destruct (hex4 h1 h2 h3 h4); [|discriminate].
        apply IH in H; simpl in *; lia.
      * destruct (simpleEscape e); [|discriminate].
        apply IH in H; simpl in *; lia.
    + destruct (c <? 32); [discriminate|].
      apply IH in H; simpl in *; lia.
Qed.

Lemma takeDigits_length (s ds r : jsstring) :
  takeDigits s = (ds, r) -> (length r <= length s)%nat.
Proof.
  revert ds r; induction s as [|c t IH]; intros ds r H; simpl in H.
  - injection H as _ <-. simpl. lia.
  - destruct (isDigit c).
    + destruct (takeDigits t) as [ds' r'] eqn:E.
      injection H as _ <-. specialize (IH _ _ eq_refl). simpl. lia.
    + injection H as _ <-. simpl. lia.
Qed.

Lemma optSign_length (b : bool) (s sg r : jsstring) :
  optSign b s = (sg, r) -> (length r <= length s)%nat.
Proof.
  unfold optSign. destruct s as [|c t]; [intros H; injection H as _ <-; simpl; lia|].
  destruct ((c =? 45) || (b && (c =? 43))); intros H; injection H as _ <-;
    simpl; lia.
Qed.

Lemma intPart_shorter (s i r : jsstring) :
  intPart s = Some (i, r) -> (length r < length s)%nat.
Proof.
  unfold intPart. destruct s as [|c t]; [discriminate|].
  destruct (c =? 48); [intros H; injection H as _ <-; simpl; lia|].
  destruct (isDigit c); [|discriminate].
  destruct (takeDigits t) as [ds r'] eqn:E. intros H. injection H as _ <-.
  apply takeDigits_length in E. simpl. lia.
Qed.

Lemma fracPart_length (s f r : jsstring) :
  fracPart s = Some (f, r) -> (length r <= length s)%nat.
Proof.
  unfold fracPart. destruct s as [|c t]; [intros H; injection H as _ <-; simpl; lia|].
  destruct (c =? 46); [|intros H; injection H as _ <-; simpl; lia].
  destruct (takeDigits t) as [[|d ds] r'] eqn:E; [discriminate|].
  intros H. injection H as _ <-. apply takeDigits_length in E. simpl. lia.
Qed.

Lemma expPart_length (s e r : jsstring) :
  expPart s = Some (e, r) -> (length r <= length s)%nat.
Proof.
  unfold expPart. destruct s as [|c t]; [intros H; injection H as _ <-; simpl; lia|].
  destruct ((c =? 101) || (c =? 69)); [|intros H; injection H as _ <-; simpl; lia].
  destruct (optSign true t) as [sg r1] eqn:Es.
  destruct (takeDigits r1) as [[|d ds] r2] eqn:E; [discriminate|].
  intros H. injection H as _ <-.
  apply takeDigits_length in E. apply optSign_length in Es. simpl. lia.
Qed.

Lemma parseNumber_shorter (s lit r : jsstring) :
  parseNumber s = Some (lit, r) -> (length r < length s)%nat.
Proof.
  unfold parseNumber.
  destruct (optSign false s) as [sg s1] eqn:E1.
  destruct (intPart s1) as [[i s2]|] eqn:E2; [|discriminate].
  destruct (fracPart s2) as [[f s3]|] eqn:E3; [|discriminate].
  destruct (expPart s3) as [[e s4]|] eqn:E4; [|discriminate].
  intros H. injection H as _ <-.
  apply optSign_length in E1. apply intPart_shorter in E2.
  apply fracPart_length in E3. apply expPart_length in E4. lia.
Qed.

Section Containers.

Variable pv : jsstring -> parsed.
Hypothesis pv_consumes : consumes pv.

Lemma parseElems_consumes (n : nat) :
  forall s acc v r,
    parseElems pv n s acc = Parsed v r -> (length r < length s)%nat.
Proof.
  induction n as [|n IH]; intros s acc v r H; [discriminate|].
  cbn [parseElems] in H.
  destruct (pv s) as [v1 r1| |] eqn:E; try discriminate.
  apply pv_consumes in E.
  destruct (skipWs r1) as [|c r2] eqn:Ew; [discriminate|].
  apply skipWs_cons in Ew.
  destruct (c =? 44); [apply IH in H; lia|].
  destruct (c =? 93); [|discriminate].
  injection H as _ <-. lia.
Qed.

Lemma parseMembers_consumes (n : nat) :
  forall s acc v r,
    parseMembers pv n s acc = Parsed v r -> (length r < length s)%nat.
Proof.
  induction n as [|n IH]; intros s acc v r H; [discriminate|].
  cbn [parseMembers] in H.
  destruct (skipWs s) as [|q r0] eqn:E0; [discriminate|].
  apply skipWs_cons in E0.
  destruct (negb (q =? 34)); [discriminate|].
  destruct (parseChars r0 []) as [[k r1]|] eqn:Ek; [|discriminate].
  apply (parseChars_shorter (length r0)) in Ek; [|lia].
  destruct (skipWs r1) as [|colon r2] eqn:E1; [discriminate|].
  apply skipWs_cons in E1.
  destruct (negb (colon =? 58)); [discriminate|].
  destruct (pv r2) as [v3 r3| |] eqn:E; try discriminate.
  apply pv_consumes in E.
  destruct (skipWs r3) as [|c r4] eqn:E3; [discriminate|].
  apply skipWs_cons in E3.
  destruct (c =? 44); [apply IH in H; lia|].
  destruct (c =? 125); [|discriminate].
  injection H as _ <-. lia.
Qed.

Variable bound : nat.
Hypothesis pv_fuelled : fuelled bound pv.

Lemma parseElems_fuelled (n : nat) :
  forall s acc,
    (length s <= bound)%nat -> (length s < n)%nat ->
    parseElems pv n s acc <> Exhausted.
Proof.
  induction n as [|n IH]; intros s acc Hb Hn; [lia|].
  cbn [parseElems].
  destruct (pv s) as [v1 r1| |] eqn:E; try discriminate.
  - apply pv_consumes in E.
    destruct (skipWs r1) as [|c r2] eqn:Ew; [discriminate|].
    apply skipWs_cons in Ew.
    destruct (c =? 44); [apply IH; lia|].
    destruct (c =? 93); discriminate.
  - exfalso. exact (pv_fuelled s Hb E).
Qed.

Lemma parseMembers_fuelled (n : nat) :
  forall s acc,
    (length s <= bound)%nat -> (length s < n)%nat ->
    parseMembers pv n s acc <> Exhausted.
Proof.
  induction n as [|n IH]; intros s acc Hb Hn; [lia|].
  cbn [parseMembers].
  destruct (skipWs s) as [|q r0] eqn:E0; [discriminate|].
  apply skipWs_cons in E0.
  destruct (negb (q =? 34)); [discriminate|].
  destruct (parseChars r0 []) as [[k r1]|] eqn:Ek; [|discriminate].
  apply (parseChars_shorter (length r0)) in Ek; [|lia].
  destruct (skipWs r1) as [|colon r2] eqn:E1; [discriminate|].
  apply skipWs_cons in E1.
  destruct (negb (colon =? 58)); [discriminate|].
  destruct (pv r2) as [v3 r3| |] eqn:E; try discriminate.
  - apply pv_consumes in E.
    destruct (skipWs r3) as [|c r4] eqn:E3; [discriminate|].
    apply skipWs_cons in E3.
    destruct (c =? 44); [apply IH; lia|].
    destruct (c =? 125); discriminate.
  - exfalso. apply (pv_fuelled r2); [lia | exact E].
Qed.

End Containers.

Lemma tl_length {A} (l : list A) : (length (tl l) <= length l)%nat.
Proof. destruct l; simpl; lia. Qed.

Lemma skipn_shorter {A} (k : nat) (c : A) (l : list A) :
  (length (skipn (S k) (c :: l)) <= length l)%nat.
Proof. rewrite length_skipn. simpl. lia. Qed.

Lemma parseValue_consumes (fuel : nat) : consumes (parseValue fuel).
Proof.
  induction fuel as [|f IH]; intros s v r H; [discriminate|].
  cbn [parseValue] in H.
  destruct (skipWs s) as [|c r0] eqn:E0; [discriminate|].
  apply skipWs_cons in E0.
  destruct (c =? 34).
  { destruct (parseChars r0 []) as [[str r']|] eqn:Ek; [|discriminate].
    apply (parseChars_shorter (length r0)) in Ek; [|lia].
    injection H as _ <-. lia. }
  destruct (c =? 91).
  { destruct (firstIs (N.eqb 93) (skipWs r0)).
    - replace r with (tl (skipWs r0)) by congruence.
      pose proof (tl_length (skipWs r0)).
      pose proof (skipWs_length r0). lia.
    - apply (parseElems_consumes _ IH) in H. lia. }
  destruct (c =? 123).
  { destruct (firstIs (N.eqb 125) (skipWs r0)).
    - replace r with (tl (skipWs r0)) by congruence.
      pose proof (tl_length (skipWs r0)).
      pose proof (skipWs_length r0). lia.
    - apply (parseMembers_consumes _ IH) in H. lia. }
  destruct (startsWith (js "true") (c :: r0)).
  { replace r with (skipn 4 (c :: r0)) by congruence.
    pose proof (skipn_shorter 3 c r0). lia. }
  destruct (startsWith (js "false") (c :: r0)).
  { replace r with (skipn 5 (c :: r0)) by congruence.
    pose proof (skipn_shorter 4 c r0). lia. }
  destruct (startsWith (js "null") (c :: r0)).
  { replace r with (skipn 4 (c :: r0)) by congruence.
    pose proof (skipn_shorter 3 c r0). lia. }
  destruct (parseNumber (c :: r0)) as [[lit r']|] eqn:En; [|discriminate].
  apply parseNumber_shorter in En. cbn [length] in En.
  injection H as _ <-. lia.
Qed.

Lemma parseValue_fuelled (fuel : nat) :
  forall s, (length s < fuel)%nat -> parseValue fuel s <> Exhausted.
Proof.
  induction fuel as [|f IH]; intros s Hs; [lia|].
  cbn [parseValue].
  destruct (skipWs s) as [|c r0] eqn:E0; [discriminate|].
  apply skipWs_cons in E0.
  assert (F : fuelled (length r0) (parseValue f))
    by (intros t Ht; apply IH; lia).
  destruct (c =? 34).
  { destruct (parseChars r0 []) as [[str r']|]; discriminate. }
  destruct (c =? 91).
  { destruct (firstIs (N.eqb 93) (skipWs r0)); [discriminate|].
    apply (parseElems_fuelled _ (parseValue_consumes f) _ F); lia. }
  destruct (c =? 123).
  { destruct (firstIs (N.eqb 125) (skipWs r0)); [discriminate|].
    apply (parseMembers_fuelled _ (parseValue_consumes f) _ F); lia. }
  destruct (startsWith (js "true") (c :: r0)); [discriminate|].
  destruct (startsWith (js "false") (c :: r0)); [discriminate|].
  destruct (startsWith (js "null") (c :: r0)); [discriminate|].
  destruct (parseNumber (c :: r0)) as [[lit r']|]; discriminate.
Qed.

(** The fuel [JSON_parse] gives is enough: a [None] is a syntax error. *)
Lemma parseValue_enough_fuel (text : jsstring) :
  parseValue (S (length text)) text <> Exhausted.
Proof. apply parseValue_fuelled. lia. Qed.

(** More fuel changes nothing once there is enough. *)
Lemma parseElems_ext (pv pv' : jsstring -> parsed) :
  (forall s, pv s <> Exhausted -> pv' s = pv s) ->
  forall n s acc,
    parseElems pv n s acc <> Exhausted ->
    parseElems pv' n s acc = parseElems pv n s acc.
Proof.
  intros Hext. induction n as [|n IH]; intros s acc H; [reflexivity|].
  cbn [parseElems] in *.
  destruct (pv s) as [v r| |] eqn:E; try congruence;
    rewrite (Hext s) by congruence; rewrite E; [|reflexivity].
  destruct (skipWs r) as [|c r']; [reflexivity|].
  destruct (c =? 44); [now apply IH | reflexivity].
Qed.

Lemma parseMembers_ext (pv pv' : jsstring -> parsed) :
  (forall s, pv s <> Exhausted -> pv' s = pv s) ->
  forall n s acc,
    parseMembers pv n s acc <> Exhausted ->
    parseMembers pv' n s acc = parseMembers pv n s acc.
Proof.
  intros Hext. induction n as [|n IH]; intros s acc H; [reflexivity|].
  cbn [parseMembers] in *.
  destruct (skipWs s) as [|q r0]; [reflexivity|].
  destruct (negb (q =? 34)); [reflexivity|].
  destruct (parseChars r0 []) as [[k r1]|]; [|reflexivity].
  destruct (skipWs r1) as [|colon r2]; [reflexivity|].
  destruct (negb (colon =? 58)); [reflexivity|].
  destruct (pv r2) as [v r| |] eqn:E; try congruence;
    rewrite (Hext r2) by congruence; rewrite E; [|reflexivity].
  destruct (skipWs r) as [|c r']; [reflexivity|].
  destruct (c =? 44); [now apply IH | reflexivity].
Qed.

Lemma parseValue_more_fuel (fuel : nat) :
  forall s, parseValue fuel s <> Exhausted ->
            parseValue (S fuel) s = parseValue fuel s.
Proof.
  induction fuel as [|f IH]; intros s H; [now contradiction H|].
  remember (S f) as g eqn:Eg.
  cbn [parseValue]. rewrite Eg in *. cbn [parseValue] in H |- *.
  destruct (skipWs s) as [|c r0]; [reflexivity|].
  destruct (c =? 34); [reflexivity|].
  destruct (c =? 91).
  { destruct (firstIs (N.eqb 93) (skipWs r0)); [reflexivity|].
    now apply parseElems_ext. }
  destruct (c =? 123).
  { destruct (firstIs (N.eqb 125) (skipWs r0)); [reflexivity|].
    now apply parseMembers_ext. }
  reflexivity.
Qed.

Lemma parseValue_fuel_irrelevant (text : jsstring) (extra : nat) :
  parseValue (S (length text) + extra) text = parseValue (S (length text)) text.
Proof.
  induction extra as [|k IH]; [now rewrite Nat.add_0_r|].
  rewrite Nat.add_succ_r, <- IH.
  apply parseValue_more_fuel. apply parseValue_fuelled. lia.
Qed.

(** ** Conversions fail with a TypeError only *)

Lemma joinWith_Throw (f : json -> result jsstring) (l : list json) (e : Error) :
  Forall (fun x => forall e, f x = Throw e -> e = TypeError) l ->
  joinWith f l = Throw e -> e = TypeError.
Proof.
  intros F; revert e. induction F as [|x r Hx _ IH]; intros e; [discriminate|].
  cbn [joinWith].
  destruct (match x with JNull => Ok [] | _ => f x end) as [a|e'] eqn:X.
  - destruct r as [|y r']; [discriminate|].
    change ((fix joined (l : list json) : result jsstring := _) (y :: r'))
      with (joinWith f (y :: r')).
    destruct (joinWith f (y :: r')) as [b|e''] eqn:J; [discriminate|].
    intros H. injection H as <-. now apply IH.
  - intros H. injection H as <-. destruct x; try discriminate; now apply Hx.
Qed.

Lemma toStr_Throw :
  forall (v : json) (e : Error), toStr v = Throw e -> e = TypeError.
Proof.
  fix IH 1. intros [|b|l|s|items|ms] e; cbn [toStr]; try discriminate.
  - destruct b; discriminate.
  - apply joinWith_Throw. clear e.
    induction items; constructor; [apply IH | assumption].
  - destruct (hasKey (js "toString") ms); [congruence | discriminate].
Qed.

Lemma toText_Throw (v : jsval) (e : Error) :
  toText v = Throw e -> e = TypeError.
Proof. destruct v; cbn [toText]; [apply toStr_Throw | discriminate]. Qed.

Lemma getProp_Throw (v : jsval) (k : jsstring) (e : Error) :
  getProp v k = Throw e -> e = TypeError.
Proof. destruct v as [[]|]; cbn; congruence. Qed.

Lemma asString_Throw (v : jsval) (e : Error) :
  asString v = Throw e -> e = TypeError.
Proof. destruct v as [[]|]; cbn; congruence. Qed.

Lemma idNumber_Throw (a : json) (e : Error) :
  idNumber a = Throw e -> e = TypeError.
Proof.
  unfold idNumber.
  destruct (getProp (Some a) (js "id")) as [i|e'] eqn:G; cbn [bindR].
  - destruct (toText i) as [s|e'] eqn:T; cbn [bindR]; [discriminate|].
    intros H. injection H as <-. now apply toText_Throw in T.
  - intros H. injection H as <-. now apply getProp_Throw in G.
Qed.

Lemma reduceMax_Throw (existing : Corpus) :
  forall (init : number) (e : Error),
    reduceMax existing init = Throw e -> e = TypeError.
Proof.
  induction existing as [|a r IH]; intros init e; [discriminate|].
  cbn [reduceMax]. destruct (idNumber a) as [n|e'] eqn:I; [apply IH|].
  intros H. injection H as <-. now apply idNumber_Throw in I.
Qed.

Lemma lengthText_Throw (existing : json) (e : Error) :
  lengthText existing = Throw e -> e = TypeError.
Proof.
  destruct existing; cbn [lengthText]; try congruence. apply toText_Throw.
Qed.

Lemma forEach_Throw {A} (f : A -> result unit) (l : list A) (e : Error) :
  forEach f l = Throw e -> exists x, In x l /\ f x = Throw e.
Proof.
  induction l as [|x r IH]; [discriminate|]. cbn [forEach].
  destruct (f x) as [[]|e'] eqn:E.
  - intros H. destruct (IH H) as (y & Hin & Hy). exists y.
    split; [now right | exact Hy].
  - intros H. injection H as <-. exists x. split; [now left | exact E].
Qed.

Lemma printable_Throw (item : Item.t) (e : Error) :
  printable item = Throw e -> e = TypeError.
Proof.
  unfold printable.
  repeat match goal with
         | |- context [bindR (toStr ?x) _] =>
             let E := fresh "E" in
             destruct (toStr x) eqn:E; cbn [bindR];
             [|intros H; injection H as <-; now apply toStr_Throw in E]
         end.
  discriminate.
Qed.

(** ** Lower case *)

(** On Basic Latin, lower-casing moves the capitals A to Z and nothing
    else. *)
Lemma codePoints_basic (s : jsstring) :
  forallb (fun c => c <? 128) s = true -> codePoints s = s.
Proof.
  induction s as [|c r IH]; [reflexivity|].
  intros H. cbn [forallb] in H. apply andb_true_iff in H as [Hc Hr].
  cbn [codePoints]. destruct r as [|d r']; [reflexivity|].
  assert (E : isHighSurrogate c = false).
  { unfold isHighSurrogate. apply N.ltb_lt in Hc.
    apply andb_false_iff. left. apply N.leb_gt. lia. }
  rewrite E. cbn [andb]. now rewrite (IH Hr).
Qed.

Lemma lowerPoints_basic (before s : list N) :
  forallb (fun c => c <? 128) s = true ->
  flat_map codeUnits (lowerPoints before s)
  = map (fun c => if (65 <=? c) && (c <=? 90) then c + 32 else c) s.
Proof.
  revert before; induction s as [|c r IH]; intros before H; [reflexivity|].
  cbn [forallb] in H. apply andb_true_iff in H as [Hc Hr].
  cbn [lowerPoints map]. rewrite flat_map_app, (IH _ Hr).
  unfold lowerPoint. rewrite Hc. cbn [flat_map app].
  assert (E : codeUnits (if (65 <=? c) && (c <=? 90) then c + 32 else c)
              = [if (65 <=? c) && (c <=? 90) then c + 32 else c]).
  { unfold codeUnits. apply N.ltb_lt in Hc.
    destruct ((65 <=? c) && (c <=? 90)) eqn:K.
    - assert (L : (c + 32 <? 65536) = true) by (apply N.ltb_lt; lia).
      now rewrite L.
    - assert (L : (c <? 65536) = true) by (apply N.ltb_lt; lia).
      now rewrite L. }
  rewrite E. reflexivity.
Qed.

Lemma toLowerCase_basic (s : jsstring) :
  forallb (fun c => c <? 128) s = true ->
  toLowerCase s = map (fun c => if (65 <=? c) && (c <=? 90) then c + 32 else c) s.
Proof.
  intros H. unfold toLowerCase. rewrite (codePoints_basic s H).
  now apply lowerPoints_basic.
Qed.

(** ** Deduplicator *)

Lemma some_false {cb : json -> result bool} (l : list json) :
  some cb l = Ok false <-> Forall (fun a => cb a = Ok false) l.
Proof.
  induction l as [|a r IH]; cbn [some].
  - split; [constructor | reflexivity].
  - destruct (cb a) as [[|]|e] eqn:E; split; intros H;
      try discriminate; try (inversion H; subst; congruence).
    + constructor; [exact E | now apply IH].
    + inversion H; subst. now apply IH.
Qed.

Lemma some_true {cb : json -> result bool} (l : list json) :
  some cb l = Ok true -> exists a, In a l /\ cb a = Ok true.
Proof.
  induction l as [|a r IH]; cbn [some]; [discriminate|].
  destruct (cb a) as [[|]|e] eqn:E; intros H; try discriminate.
  - exists a. split; [now left | exact E].
  - destruct (IH H) as (x & Hin & Hx). exists x. split; [now right | exact Hx].
Qed.

(** Where the callback answers on every element, [some] is [existsb]. *)
Lemma some_answers {cb : json -> result bool} (l : list json) :
  Forall (fun a => exists b, cb a = Ok b) l ->
  exists b, some cb l = Ok b
            /\ (b = true <-> exists a, In a l /\ cb a = Ok true).
Proof.
  induction l as [|a r IH]; intros H.
  - exists false. split; [reflexivity|]. split; [discriminate|].
    intros (a & [] & _).
  - inversion H as [|? ? (b & Hb) Hr]; subst.
    destruct (IH Hr) as (b' & Hs & Hiff). cbn [some]. rewrite Hb.
    destruct b.
    + exists true. split; [reflexivity|]. split; [|reflexivity].
      intros _. exists a. split; [now left | exact Hb].
    + exists b'. split; [exact Hs|]. rewrite Hiff. split.
      * intros (x & Hin & Hx). exists x. split; [now right | exact Hx].
      * intros (x & [<- | Hin] & Hx); [congruence|]. now exists x.
Qed.

(** A throw of [some] is a throw of its callback. *)
Lemma some_Throw {cb : json -> result bool} (l : list json) (e : Error) :
  some cb l = Throw e -> exists a, In a l /\ cb a = Throw e.
Proof.
  induction l as [|a r IH]; cbn [some]; [discriminate|].
  destruct (cb a) as [[|]|e'] eqn:E; intros H; try discriminate.
  - destruct (IH H) as (x & Hin & Hx). exists x. split; [now right | exact Hx].
  - injection H as ->. exists a. split; [now left | exact E].
Qed.

Lemma entryKeys_Ok (e : json) (ku kt : jsstring) :
  entryKeys e = Ok (ku, kt) <-> urlKey e = Some ku /\ titleKey e = Some kt.
Proof.
  unfold entryKeys, urlKey, titleKey.
  destruct (storedUrl e), (storedTitle e); cbn [bindR]; split;
    try (intros [? ?]); intros; try split; congruence.
Qed.

Lemma keyed_keys (e : json) :
  keyed e <-> exists ku kt, urlKey e = Some ku /\ titleKey e = Some kt.
Proof.
  split.
  - intros ([ku kt] & H). exists ku, kt. now apply entryKeys_Ok.
  - intros (ku & kt & H). exists (ku, kt). now apply entryKeys_Ok.
Qed.

Lemma sameKeys_Ok (nu nt : jsstring) (e : json) (b : bool) :
  sameKeys nu nt e = Ok b <->
  exists ku kt, urlKey e = Some ku /\ titleKey e = Some kt
                /\ b = (streq ku nu || streq kt nt).
Proof.
  unfold sameKeys. split.
  - destruct (entryKeys e) as [[ku kt]|] eqn:E; cbn [bindR fst snd];
      [|discriminate].
    intros H. injection H as <-. apply entryKeys_Ok in E as [? ?].
    now exists ku, kt.
  - intros (ku & kt & Hu & Ht & ->).
    assert (E : entryKeys e = Ok (ku, kt)) by now apply entryKeys_Ok.
    now rewrite E.
Qed.

Lemma sameKeys_true (nu nt : jsstring) (e : json) :
  sameKeys nu nt e = Ok true <->
  keyed e /\ (urlKey e = Some nu \/ titleKey e = Some nt).
Proof.
  rewrite sameKeys_Ok. split.
  - intros (ku & kt & Hu & Ht & H). symmetry in H.
    apply orb_true_iff in H. rewrite !streq_true_iff in H. split.
    + apply keyed_keys. now exists ku, kt.
    + destruct H as [-> | ->]; auto.
  - intros (K & H). apply keyed_keys in K as (ku & kt & Hu & Ht).
    exists ku, kt. repeat split; auto. symmetry. apply orb_true_iff.
    rewrite !streq_true_iff. destruct H; [left | right]; congruence.
Qed.

Lemma sameKeys_false (nu nt : jsstring) (e : json) :
  sameKeys nu nt e = Ok false <->
  keyed e /\ urlKey e <> Some nu /\ titleKey e <> Some nt.
Proof.
  rewrite sameKeys_Ok. split.
  - intros (ku & kt & Hu & Ht & H). symmetry in H.
    apply orb_false_iff in H as [H1 H2]. repeat split.
    + apply keyed_keys. now exists ku, kt.
    + intros K. rewrite Hu in K. injection K as ->.
      now rewrite streq_refl in H1.
    + intros K. rewrite Ht in K. injection K as ->.
      now rewrite streq_refl in H2.
  - intros (K & Hu & Ht). apply keyed_keys in K as (ku & kt & Eu & Et).
    exists ku, kt. repeat split; auto. symmetry. apply orb_false_iff.
    split.
    + destruct (streq ku nu) eqn:E; [|reflexivity].
      apply streq_true_iff in E. congruence.
    + destruct (streq kt nt) eqn:E; [|reflexivity].
      apply streq_true_iff in E. congruence.
Qed.

Lemma keyed_answers (nu nt : jsstring) (e : json) :
  keyed e -> exists b, sameKeys nu nt e = Ok b.
Proof.
  intros K. apply keyed_keys in K as (ku & kt & Hu & Ht).
  exists (streq ku nu || streq kt nt). apply sameKeys_Ok. now exists ku, kt.
Qed.

Lemma isDuplicate_strings (existing : Corpus) (url title : jsstring) :
  isDuplicate (JArr existing) (Some (JStr url)) (Some (JStr title))
  = some (sameKeys (normalizeUrl url) (normalizeTitle title)) existing.
Proof. reflexivity. Qed.

(** An answer of [isDuplicate] tells that both arguments are strings. *)
Lemma isDuplicate_Ok (existing : json) (url title : jsval) (b : bool) :
  isDuplicate existing url title = Ok b ->
  exists c u t, existing = JArr c /\ url = Some (JStr u) /\ title = Some (JStr t).
Proof.
  unfold isDuplicate.
  destruct url as [[| | | u | |]|]; cbn [asString bindR]; try discriminate.
  destruct title as [[| | | t | |]|]; cbn [asString bindR]; try discriminate.
  destruct existing as [| | | | c |]; try discriminate.
  intros _. now exists c, u, t.
Qed.

Lemma isDuplicate_Throw (existing : json) (url title : jsval) (e : Error) :
  isDuplicate existing url title = Throw e -> e = TypeError.
Proof.
  unfold isDuplicate.
  destruct url as [[| | | u | |]|]; cbn [asString bindR]; try congruence.
  destruct title as [[| | | t | |]|]; cbn [asString bindR]; try congruence.
  destruct existing as [| | | | c |]; try congruence.
  intros H. apply some_Throw in H as (a & _ & H).
  unfold sameKeys, entryKeys, storedUrl, storedTitle, getProp, asString in H.
  repeat match type of H with
         | context [match ?x with _ => _ end] => destruct x; cbn [bindR] in H
         end; congruence.
Qed.

Lemma isDuplicate_false_iff (existing : Corpus) (url title : jsstring) :
  isDuplicate (JArr existing) (Some (JStr url)) (Some (JStr title)) = Ok false <->
  forall e, In e existing ->
            keyed e /\ urlKey e <> Some (normalizeUrl url)
            /\ titleKey e <> Some (normalizeTitle title).
Proof.
  rewrite isDuplicate_strings, some_false, Forall_forall.
  split; intros H e Hin; apply sameKeys_false; auto.
Qed.

Lemma isDuplicate_true (existing : Corpus) (url title : jsstring) :
  isDuplicate (JArr existing) (Some (JStr url)) (Some (JStr title)) = Ok true ->
  exists e, In e existing /\ keyed e
            /\ (urlKey e = Some (normalizeUrl url)
                \/ titleKey e = Some (normalizeTitle title)).
Proof.
  rewrite isDuplicate_strings. intros H.
  apply some_true in H as (e & Hin & H). apply sameKeys_true in H.
  exists e. tauto.
Qed.

Lemma isDuplicate_keyed (existing : Corpus) (url title : jsstring) :
  Forall keyed existing ->
  exists answer,
    isDuplicate (JArr existing) (Some (JStr url)) (Some (JStr title)) = Ok answer
    /\ (answer = true <->
        exists e, In e existing
                  /\ (urlKey e = Some (normalizeUrl url)
                      \/ titleKey e = Some (normalizeTitle title))).
Proof.
  intros K. rewrite isDuplicate_strings.
  destruct (@some_answers (sameKeys (normalizeUrl url) (normalizeTitle title))
              existing) as (b & Hb & Hiff).
  { rewrite Forall_forall in *. intros e Hin. now apply keyed_answers, K. }
  exists b. split; [exact Hb|]. rewrite Hiff. rewrite Forall_forall in K.
  split; intros (e & Hin & H); exists e; split; auto.
  - apply sameKeys_true in H. tauto.
  - apply sameKeys_true. auto.
Qed.

(** The keys of an entry whose fields are strings. *)
Lemma urlKey_string (e : json) (s : jsstring) :
  Entry.sourceUrl e = Some (JStr s) -> urlKey e = Some (normalizeUrl s).
Proof.
  unfold Entry.sourceUrl, field, urlKey, storedUrl.
  destruct (getProp (Some e) (js "sourceUrl")) as [v|]; [|discriminate].
  intros ->. cbn [bindR]. unfold orEmpty.
  destruct (truthy (Some (JStr s))) eqn:T; [reflexivity|].
  destruct s; [reflexivity | discriminate].
Qed.

Lemma titleKey_string (e : json) (s : jsstring) :
  Entry.title e = Some (JStr s) -> titleKey e = Some (normalizeTitle s).
Proof.
  unfold Entry.title, field, titleKey, storedTitle.
  destruct (getProp (Some e) (js "title")) as [v|]; [|discriminate].
  intros ->. cbn [bindR]. unfold orEmpty.
  destruct (truthy (Some (JStr s))) eqn:T; [reflexivity|].
  destruct s; [reflexivity | discriminate].
Qed.

Lemma urlKey_falsy (e : json) :
  keyed e -> truthy (Entry.sourceUrl e) = false -> urlKey e = Some [].
Proof.
  intros K. apply keyed_keys in K as (ku & _ & Hu & _). revert Hu.
  unfold Entry.sourceUrl, field, urlKey, storedUrl.
  destruct (getProp (Some e) (js "sourceUrl")) as [v|]; [|discriminate].
  cbn [bindR]. unfold orEmpty. intros _ T. now rewrite T.
Qed.

Lemma titleKey_falsy (e : json) :
  keyed e -> truthy (Entry.title e) = false -> titleKey e = Some [].
Proof.
  intros K. apply keyed_keys in K as (_ & kt & _ & Ht). revert Ht.
  unfold Entry.title, field, titleKey, storedTitle.
  destruct (getProp (Some e) (js "title")) as [v|]; [|discriminate].
  cbn [bindR]. unfold orEmpty. intros _ T. now rewrite T.
Qed.

Lemma sampleCorpus_keyed : Forall keyed sampleCorpus.
Proof. repeat constructor. eexists. vm_compute. reflexivity. Qed.

(** C1.  On a corpus of entries whose [sourceUrl] and [title] are
    strings, or missing, [isDuplicate] answers, and it answers true
    exactly when some stored entry has the candidate's normalized URL or
    the candidate's normalized title.  The key of a stored string is its
    normal form, the key of a missing field is the empty string.  The
    normalized URL is the lower-cased URL without its trailing run of
    slashes; the normalized title is the lower-cased title without the
    white space around it.  Lower-casing moves the capitals of Basic
    Latin to their small letters and leaves the rest of Basic Latin
    alone; beyond it goes by the Unicode case mapping of each code
    point, as on the Greek, Cyrillic and Deseret capitals, the final
    sigma and the dotted capital I here.  In particular a candidate whose
    link is a stored sourceUrl with one trailing slash more, or one
    less, or in another case, is a duplicate. *)
Theorem isDuplicate_matches_normalized_keys :
  forall (existing : Corpus) (url title : jsstring),
    Forall keyed existing ->
    (exists answer,
        isDuplicate (JArr existing) (Some (JStr url)) (Some (JStr title))
        = Ok answer
        /\ (answer = true <->
            exists e, In e existing /\
              (urlKey e = Some (normalizeUrl url) \/
               titleKey e = Some (normalizeTitle title))))
    /\ (forall e,
          (forall s, Entry.sourceUrl e = Some (JStr s) ->
                     urlKey e = Some (normalizeUrl s))
          /\ (forall s, Entry.title e = Some (JStr s) ->
                        titleKey e = Some (normalizeTitle s))
          /\ (keyed e -> truthy (Entry.sourceUrl e) = false -> urlKey e = Some [])
          /\ (keyed e -> truthy (Entry.title e) = false -> titleKey e = Some []))
    /\ (exists stripped n,
          url = stripped ++ repeat slash n
          /\ lastIs isSlash stripped = false
          /\ normalizeUrl url = toLowerCase stripped)
    /\ (exists before after,
          toLowerCase title = before ++ normalizeTitle title ++ after
          /\ forallb isWhiteSpace before = true
          /\ forallb isWhiteSpace after = true
          /\ firstIs isWhiteSpace (normalizeTitle title) = false
          /\ lastIs isWhiteSpace (normalizeTitle title) = false)
    /\ ((forall s, forallb (fun c => c <? 128) s = true ->
                   toLowerCase s
                   = map (fun c => if (65 <=? c) && (c <=? 90) then c + 32 else c) s)
        /\ toLowerCase [937; 924; 917; 915; 913] = [969; 956; 949; 947; 945]
        /\ toLowerCase [1046; 1048; 1047; 1053; 1068]
           = [1078; 1080; 1079; 1085; 1100]
        /\ toLowerCase [201; 199; 338] = [233; 231; 339]
        /\ toLowerCase [55297; 56320] = [55297; 56360]
        /\ toLowerCase [927; 916; 927; 931] = [959; 948; 959; 962]
        /\ toLowerCase [931; 927] = [963; 959]
        /\ toLowerCase [304] = [105; 775]
        /\ toLowerCase [1513; 1500; 1493; 1501] = [1513; 1500; 1493; 1501])
    /\ (forall e, In e existing ->
          Entry.sourceUrl e = Some (JStr (url ++ [slash]))
          \/ (exists stored, Entry.sourceUrl e = Some (JStr stored)
                             /\ url = stored ++ [slash]) ->
          isDuplicate (JArr existing) (Some (JStr url)) (Some (JStr title))
          = Ok true).
Proof.
  intros existing url title K.
  destruct (isDuplicate_keyed existing url title K) as (answer & Ha & Hiff).
  split; [now exists answer|].
  split; [intros e; repeat split;
          [apply urlKey_string | apply titleKey_string
           | apply urlKey_falsy | apply titleKey_falsy]|].
  split.
  { destruct (replaceTrailingSlashes_spec url) as (n & Hu & Hl).
    exists (replaceTrailingSlashes url), n. auto. }
  split; [apply trim_spec|].
  split.
  { split; [exact toLowerCase_basic|]. vm_compute. repeat split. }
  intros e Hin H. rewrite Ha. f_equal. apply Hiff. exists e. split; auto.
  left. destruct H as [H | (stored & H & ->)];
    rewrite (urlKey_string _ _ H); f_equal; unfold normalizeUrl;
    now rewrite replaceTrailingSlashes_app_slash.
Qed.

Lemma isDuplicate_matches_normalized_keys_witness :
  Forall keyed sampleCorpus
  /\ isDuplicate (JArr sampleCorpus) (Some (JStr (js "https://example.com/old")))
                 (Some (JStr (js "Fresh news")))
     = Ok true.
Proof.
  split; [exact sampleCorpus_keyed|].
  destruct (isDuplicate_matches_normalized_keys
              sampleCorpus (js "https://example.com/old") (js "Fresh news")
              sampleCorpus_keyed) as (_ & _ & _ & _ & _ & H).
  apply (H (sampleEntry (js "7") (js "Old news") (js "https://example.com/old/")));
    [now left | left; reflexivity].
Defined.

(** The example of the specification: a stored [https://example.com/a/]
    makes the candidate [https://example.com/a] a duplicate; so does a
    stored title in another case. *)
Example isDuplicate_trailing_slash_example :
  isDuplicate
    (JArr [JObj [(js "id", JStr (js "1")); (js "title", JStr (js "Stored"));
                 (js "sourceUrl", JStr (js "https://example.com/a/"))]])
    (Some (JStr (js "https://example.com/a"))) (Some (JStr (js "Another title")))
  = Ok true.
Proof. vm_compute. reflexivity. Qed.

Example isDuplicate_case_example :
  isDuplicate (JArr sampleCorpus) (Some (JStr (js "https://example.com/new")))
              (Some (JStr (js "  OLD News ")))
  = Ok true.
Proof. vm_compute. reflexivity. Qed.

(** Where an entry cannot be read the check fails, unless an entry
    before it matches. *)
Example isDuplicate_unreadable_entry :
  isDuplicate (JArr (sampleCorpus ++ [JNull]))
              (Some (JStr (js "u"))) (Some (JStr (js "t")))
  = Throw TypeError
  /\ isDuplicate (JArr (sampleCorpus ++ [JNull]))
                 (Some (JStr (js "u"))) (Some (JStr (js "old news")))
     = Ok true
  /\ isDuplicate (JArr [JObj [(js "title", JNum (js "5"))]])
                 (Some (JStr (js "u"))) (Some (JStr (js "t")))
     = Throw TypeError.
Proof. vm_compute. repeat split. Qed.

(** ** Decimal spelling *)

Lemma readDigits_unitsOfUint (u : Decimal.uint) :
  readDigits (unitsOfUint u) = u.
Proof. induction u; simpl; congruence. Qed.

Lemma parseInt_unitsOfUint (u : Decimal.uint) :
  u <> Decimal.Nil ->
  parseInt (unitsOfUint u) = Some (roundInteger (Z.of_N (N.of_uint u))).
Proof.
  intros Hu. unfold parseInt.
  destruct u; try congruence; cbn [unitsOfUint];
    cbn -[N.of_uint Z.of_N roundInteger]; rewrite readDigits_unitsOfUint;
    reflexivity.
Qed.

Lemma N_to_uint_nonnil (n : N) : N.to_uint n <> Decimal.Nil.
Proof.
  destruct n; simpl; [discriminate|].
  apply DecimalPos.Unsigned.to_uint_nonnil.
Qed.

Lemma roundInteger_safe (z : Z) :
  (Z.abs z <= two53)%Z -> roundInteger z = Fin z.
Proof.
  intros H. unfold roundInteger.
  now destruct (Z.leb_spec (Z.abs z) two53); [|lia].
Qed.

(** Up to [2^53] the numeral of an integer reads back as the integer. *)
Lemma parseInt_decimal (n : Z) :
  (0 <= n <= two53)%Z -> parseInt (decimal n) = Some (Fin n).
Proof.
  intros Hn. unfold decimal.
  destruct n as [|p|p]; try lia;
    rewrite parseInt_unitsOfUint by apply N_to_uint_nonnil;
    rewrite DecimalN.Unsigned.of_to; rewrite roundInteger_safe;
    try reflexivity; destruct Hn; cbn [Z.to_N Z.of_N Z.abs]; lia.
Qed.

Lemma decimal_inj (a b : Z) :
  (0 <= a)%Z -> (0 <= b)%Z -> decimal a = decimal b -> a = b.
Proof.
  intros Ha Hb H.
  assert (E : forall n, (0 <= n)%Z -> decimal n = unitsOfUint (N.to_uint (Z.to_N n))).
  { intros n Hn. destruct n; try reflexivity. lia. }
  rewrite (E a Ha), (E b Hb) in H.
  apply (f_equal readDigits) in H. rewrite !readDigits_unitsOfUint in H.
  apply (f_equal N.of_uint) in H. rewrite !DecimalN.Unsigned.of_to in H.
  lia.
Qed.

Lemma numberToString_safe (z : Z) :
  (Z.abs z <= two53)%Z -> numberToString (Fin z) = decimal z.
Proof.
  intros H. unfold numberToString.
  now destruct (Z.leb_spec (Z.abs z) two53); [|lia].
Qed.

Lemma increment_safe (z : Z) :
  (0 <= z < two53)%Z -> increment (Fin z) = Fin (z + 1).
Proof. intros H. cbn [increment]. apply roundInteger_safe. lia. Qed.

Lemma advance_S (m : number) (k : nat) :
  advance m (S k) = advance (increment m) k.
Proof.
  unfold advance. revert m. induction k as [|k IH]; intros m; [reflexivity|].
  change (Nat.iter (S (S k)) increment m)
    with (increment (Nat.iter (S k) increment m)).
  rewrite IH. reflexivity.
Qed.

(** Below [2^53] the running maximum counts the insertions. *)
Lemma advance_safe (k : nat) :
  forall z, (0 <= z)%Z -> (z + Z.of_nat k <= two53)%Z ->
            advance (Fin z) k = Fin (z + Z.of_nat k).
Proof.
  induction k as [|k IH]; intros z Hz Hk.
  - cbn. f_equal. lia.
  - rewrite advance_S, increment_safe by lia.
    rewrite IH by lia. f_equal. lia.
Qed.

(** ** The running maximum *)

Lemma numberLe_refl (a : number) : numberLe a a.
Proof. destruct a; simpl; auto. lia. Qed.

Lemma numberLe_trans (a b c : number) :
  numberLe a b -> numberLe b c -> numberLe a c.
Proof. destruct a, b, c; simpl; auto; try tauto. lia. Qed.

Lemma Math_max_left (a b : number) : numberLe a (Math_max a b).
Proof. destruct a, b; simpl; auto; lia. Qed.

Lemma Math_max_right (a b : number) : numberLe b (Math_max a b).
Proof. destruct a, b; simpl; auto; lia. Qed.

Lemma Math_max_either (a b : number) : Math_max a b = a \/ Math_max a b = b.
Proof.
  destruct a, b; simpl; auto.
  destruct (Z.max_spec z z0) as [[_ ->] | [_ ->]]; auto.
Qed.

Lemma Math_max_absorbs (a b : number) :
  numberLe b a -> a <> NegInf -> Math_max a b = a.
Proof.
  destruct a, b; simpl; auto; try tauto; try congruence.
  intros H _. f_equal. lia.
Qed.

Lemma reduceMax_fold (l : Corpus) :
  forall init,
    reduceMax l init
    = bindR (idsOf l) (fun ns => Ok (fold_left Math_max ns init)).
Proof.
  unfold idsOf. induction l as [|a r IH]; intros init; [reflexivity|].
  cbn [reduceMax mapR]. destruct (idNumber a) as [n|e]; [|reflexivity].
  cbn [bindR]. rewrite IH. destruct (mapR idNumber r); reflexivity.
Qed.

Lemma fold_max_ge (ns : list number) :
  forall init, numberLe init (fold_left Math_max ns init).
Proof.
  induction ns as [|n r IH]; intros init; [apply numberLe_refl|].
  cbn [fold_left]. eapply numberLe_trans; [apply Math_max_left | apply IH].
Qed.

Lemma fold_max_upper (ns : list number) :
  forall init n, In n ns -> numberLe n (fold_left Math_max ns init).
Proof.
  induction ns as [|x r IH]; intros init n; [intros []|].
  cbn [fold_left]. intros [-> | Hin].
  - eapply numberLe_trans; [apply Math_max_right | apply fold_max_ge].
  - now apply IH.
Qed.

Lemma fold_max_attained (ns : list number) :
  forall init, fold_left Math_max ns init = init
               \/ In (fold_left Math_max ns init) ns.
Proof.
  induction ns as [|x r IH]; intros init; [now left|].
  cbn [fold_left]. destruct (IH (Math_max init x)) as [H | H].
  - rewrite H. destruct (Math_max_either init x) as [-> | ->];
      [now left | right; now left].
  - right. now right.
Qed.

(** Above the maximum of the list nothing moves. *)
Lemma fold_max_absorbs (ns : list number) (top : number) :
  top <> NegInf ->
  Forall (fun n => numberLe n top) ns ->
  fold_left Math_max ns top = top.
Proof.
  intros Ht. induction 1 as [|n r Hn _ IH]; [reflexivity|].
  cbn [fold_left]. now rewrite Math_max_absorbs.
Qed.

Lemma maxIdOf_fold (existing : Corpus) (m : number) :
  maxIdOf existing = Ok m <->
  exists ns, idsOf existing = Ok ns /\ m = fold_left Math_max ns (Fin 0).
Proof.
  unfold maxIdOf. rewrite reduceMax_fold.
  destruct (idsOf existing) as [ns|e]; cbn [bindR]; split.
  - intros H. injection H as <-. now exists ns.
  - intros (ns' & H & ->). now injection H as <-.
  - discriminate.
  - intros (ns' & H & _). discriminate.
Qed.

Lemma mapR_In {A B} (f : A -> result B) (l : list A) (ys : list B) (x : A) :
  mapR f l = Ok ys -> In x l -> exists y, f x = Ok y /\ In y ys.
Proof.
  revert ys; induction l as [|a r IH]; intros ys H; [intros []|].
  cbn [mapR] in H. destruct (f a) as [y|] eqn:E; [|discriminate].
  cbn [bindR] in H. destruct (mapR f r) as [ys'|]; [|discriminate].
  cbn [bindR] in H. injection H as <-.
  intros [<- | Hin].
  - exists y. split; [exact E | now left].
  - destruct (IH ys' eq_refl Hin) as (y' & Hy & Hin'). exists y'.
    split; [exact Hy | now right].
Qed.

(** The running maximum starts at or above every id of the corpus, and
    at or above zero. *)
Lemma maxIdOf_upper (existing : Corpus) (m : number) (e : json) :
  maxIdOf existing = Ok m -> In e existing ->
  exists n, idNumber e = Ok n /\ numberLe n m.
Proof.
  intros H Hin. apply maxIdOf_fold in H as (ns & Hns & ->).
  destruct (mapR_In _ _ _ _ Hns Hin) as (n & Hn & Hin').
  exists n. split; [exact Hn | now apply fold_max_upper].
Qed.

Lemma maxIdOf_nonneg (existing : Corpus) (m : number) :
  maxIdOf existing = Ok m -> numberLe (Fin 0) m.
Proof.
  intros H. apply maxIdOf_fold in H as (ns & _ & ->). apply fold_max_ge.
Qed.

Lemma maxIdOf_attained (existing : Corpus) (m : number) :
  maxIdOf existing = Ok m ->
  m = Fin 0 \/ exists e, In e existing /\ idNumber e = Ok m.
Proof.
  intros H. apply maxIdOf_fold in H as (ns & Hns & ->).
  destruct (fold_max_attained ns (Fin 0)) as [E | Hin]; [now left|].
  right. revert Hin. generalize (fold_left Math_max ns (Fin 0)). intros m.
  clear -Hns. unfold idsOf in Hns. revert ns Hns.
  induction existing as [|a r IH]; intros ns Hns Hin.
  - injection Hns as <-. destruct Hin.
  - cbn [mapR] in Hns. destruct (idNumber a) as [n|] eqn:E; [|discriminate].
    cbn [bindR] in Hns. destruct (mapR idNumber r) as [ns'|]; [|discriminate].
    cbn [bindR] in Hns. injection Hns as <-. destruct Hin as [<- | Hin].
    + exists a. split; [now left | exact E].
    + destruct (IH ns' eq_refl Hin) as (e & He & Hm). exists e.
      split; [now right | exact Hm].
Qed.

(** ** The entries the merge builds *)

Lemma lookup_app (k : jsstring) (l1 l2 : list (jsstring * json)) :
  lookup k (l1 ++ l2)
  = match lookup k l2 with
    | Some v => Some v
    | None => lookup k l1
    end.
Proof.
  induction l1 as [|[k' v] r IH]; cbn [app lookup].
  - now destruct (lookup k l2).
  - rewrite IH. destruct (lookup k l2); [reflexivity|].
    now destruct (lookup k r).
Qed.

Lemma lookup_member (k k' : jsstring) (v : jsval) :
  lookup k (member k' v) = if streq k' k then v else None.
Proof.
  destruct v as [x|]; cbn [member lookup]; now destruct (streq k' k).
Qed.

Section NewEntry.

Variable autoMode : bool.
Variable date : jsstring.
Variable maxId : number.
Variable article : json.

(** The fields of a new entry, read off its members. *)
Lemma newEntry_fields :
  Entry.id (newEntry autoMode date maxId article)
  = Some (JStr (numberToString maxId))
  /\ Entry.title (newEntry autoMode date maxId article)
     = field article (js "title")
  /\ Entry.summary (newEntry autoMode date maxId article)
     = field article (js "summary")
  /\ Entry.bottomLine (newEntry autoMode date maxId article)
     = (if autoMode then orEmpty (field article (js "bottomLine"))
        else field article (js "bottomLine"))
  /\ Entry.category (newEntry autoMode date maxId article)
     = field article (js "category")
  /\ Entry.publishDate (newEntry autoMode date maxId article) = Some (JStr date)
  /\ Entry.sourceUrl (newEntry autoMode date maxId article)
     = field article (js "sourceUrl").
Proof.
  unfold Entry.id, Entry.title, Entry.summary, Entry.bottomLine,
    Entry.category, Entry.publishDate, Entry.sourceUrl, newEntry.
  generalize (field article (js "title")) as title.
  generalize (field article (js "summary")) as summary.
  generalize (if autoMode then orEmpty (field article (js "bottomLine"))
              else field article (js "bottomLine")) as bottomLine.
  generalize (field article (js "category")) as category.
  generalize (field article (js "sourceUrl")) as sourceUrl.
  intros sourceUrl category bottomLine summary title.
  unfold field, getProp.
  repeat (rewrite lookup_app, ?lookup_member).
  destruct title, summary, bottomLine, category, sourceUrl;
    repeat split; vm_compute; reflexivity.
Qed.

Lemma newEntry_id :
  Entry.id (newEntry autoMode date maxId article)
  = Some (JStr (numberToString maxId)).
Proof. apply newEntry_fields. Qed.

Lemma newEntry_title :
  Entry.title (newEntry autoMode date maxId article) = field article (js "title").
Proof. apply newEntry_fields. Qed.

Lemma newEntry_sourceUrl :
  Entry.sourceUrl (newEntry autoMode date maxId article)
  = field article (js "sourceUrl").
Proof. apply newEntry_fields. Qed.

Lemma newEntry_summary :
  Entry.summary (newEntry autoMode date maxId article)
  = field article (js "summary").
Proof. apply newEntry_fields. Qed.

Lemma newEntry_bottomLine :
  Entry.bottomLine (newEntry autoMode date maxId article)
  = if autoMode then orEmpty (field article (js "bottomLine"))
    else field article (js "bottomLine").
Proof. apply newEntry_fields. Qed.

Lemma newEntry_category :
  Entry.category (newEntry autoMode date maxId article)
  = field article (js "category").
Proof. apply newEntry_fields. Qed.

Lemma newEntry_publishDate :
  Entry.publishDate (newEntry autoMode date maxId article) = Some (JStr date).
Proof. apply newEntry_fields. Qed.

Lemma newEntry_object : exists ms, newEntry autoMode date maxId article = JObj ms.
Proof. eexists. reflexivity. Qed.

End NewEntry.

Lemma field_getProp (a : json) (k : jsstring) :
  a <> JNull -> getProp (Some a) k = Ok (field a k).
Proof. intros H. unfold field. destruct a; try reflexivity. congruence. Qed.

Lemma getProp_field (a : json) (k : jsstring) (v : jsval) :
  getProp (Some a) k = Ok v -> v = field a k.
Proof. unfold field. now intros ->. Qed.

Lemma readable_fields (article : json) :
  readable article = true <->
  exists u t, Entry.sourceUrl article = Some (JStr u)
              /\ Entry.title article = Some (JStr t).
Proof.
  unfold readable, Entry.sourceUrl, Entry.title, field. split.
  - destruct (getProp (Some article) (js "sourceUrl")) as [[[| | |u| |]|]|];
      try discriminate;
      destruct (getProp (Some article) (js "title")) as [[[| | |t| |]|]|];
      try discriminate.
    intros _. now exists u, t.
  - intros (u & t & Hu & Ht).
    destruct (getProp (Some article) (js "sourceUrl")) as [x|];
      [|discriminate]. subst x.
    destruct (getProp (Some article) (js "title")) as [x|];
      [|discriminate]. now subst x.
Qed.

(** The keys of a new entry are those of the record it is built from. *)
Lemma newEntry_keys (autoMode : bool) (date : jsstring) (maxId : number)
  (article : json) (u t : jsstring) :
  Entry.sourceUrl article = Some (JStr u) ->
  Entry.title article = Some (JStr t) ->
  urlKey (newEntry autoMode date maxId article) = Some (normalizeUrl u)
  /\ titleKey (newEntry autoMode date maxId article) = Some (normalizeTitle t).
Proof.
  intros Hu Ht. split.
  - apply urlKey_string. now rewrite newEntry_sourceUrl.
  - apply titleKey_string. now rewrite newEntry_title.
Qed.

Lemma newEntry_keyed (autoMode : bool) (date : jsstring) (maxId : number)
  (article : json) :
  readable article = true -> keyed (newEntry autoMode date maxId article).
Proof.
  intros R. apply readable_fields in R as (u & t & Hu & Ht).
  destruct (newEntry_keys autoMode date maxId article u t Hu Ht) as [Ku Kt].
  apply keyed_keys. eauto.
Qed.

(** The id of a new entry, read back. *)
Lemma idNumber_newEntry (autoMode : bool) (date : jsstring) (maxId : number)
  (article : json) :
  idNumber (newEntry autoMode date maxId article)
  = Ok (orZero (parseInt (numberToString maxId))).
Proof.
  unfold idNumber.
  destruct (newEntry_object autoMode date maxId article) as (ms & E).
  rewrite field_getProp by (rewrite E; discriminate).
  change (field (newEntry autoMode date maxId article) (js "id"))
    with (Entry.id (newEntry autoMode date maxId article)).
  rewrite newEntry_id. reflexivity.
Qed.

Lemma idNumber_newEntry_safe (autoMode : bool) (date : jsstring) (z : Z)
  (article : json) :
  (0 <= z <= two53)%Z ->
  idNumber (newEntry autoMode date (Fin z) article) = Ok (Fin z).
Proof.
  intros Hz. rewrite idNumber_newEntry, numberToString_safe by lia.
  rewrite parseInt_decimal by exact Hz. now destruct z.
Qed.

(** ** Merger *)

Section MergeLoop.

(** The mode and the clock are those of the run. *)
Variable auto : bool.
Variable hebrewDate : nat -> jsstring.

(** One round of the loop, by the answer of the duplicate check on the
    two fields of the record. *)
Lemma mergeLoop_step (article : json) (rest : list json) (existing : Corpus)
  (m : number) (a : nat) :
  mergeLoop auto hebrewDate (article :: rest) existing m a
  = match isDuplicate (JArr existing) (Entry.sourceUrl article)
                      (Entry.title article) with
    | Throw e => Throw e
    | Ok true => mergeLoop auto hebrewDate rest existing m a
    | Ok false =>
        mergeLoop auto hebrewDate rest
          (newEntry auto (hebrewDate a) (increment m) article :: existing)
          (increment m) (S a)
    end.
Proof.
  cbn [mergeLoop]. unfold Entry.sourceUrl, Entry.title.
  destruct article; try reflexivity.
Qed.

(** A record on which the duplicate check answers can be read. *)
Lemma answered_readable (existing : Corpus) (article : json) (b : bool) :
  isDuplicate (JArr existing) (Entry.sourceUrl article) (Entry.title article)
  = Ok b ->
  readable article = true.
Proof.
  intros H. apply isDuplicate_Ok in H as (_ & u & t & _ & Hu & Ht).
  apply readable_fields. now exists u, t.
Qed.

(** What the loop returns: the corpus it started from, with the entries
    it built stacked on top, newest first; they are built from records
    met in input order, all of which could be read; the running maximum
    and the counter have moved once for each. *)
Lemma mergeLoop_inserted (articles : list json) :
  forall (existing : Corpus) (m : number) (a : nat) c' m' a',
    mergeLoop auto hebrewDate articles existing m a = Ok (c', m', a') ->
    exists chosen,
      subseq chosen articles
      /\ Forall (fun article => readable article = true) chosen
      /\ c' = rev (entriesOf auto hebrewDate m a chosen) ++ existing
      /\ m' = advance m (length chosen)
      /\ a' = (a + length chosen)%nat.
Proof.
  induction articles as [|article rest IH]; intros existing m a c' m' a' H.
  - injection H as <- <- <-. exists []. cbn.
    repeat split; try constructor. lia.
  - rewrite mergeLoop_step in H.
    destruct (isDuplicate _ _ _) as [[|]|] eqn:D; [| |discriminate].
    + apply IH in H as (chosen & Hs & Hr & Hc & Hm & Ha).
      exists chosen. repeat split; auto. now constructor.
    + apply IH in H as (chosen & Hs & Hr & Hc & Hm & Ha).
      exists (article :: chosen). repeat split.
      * now constructor.
      * constructor; [now apply answered_readable in D | exact Hr].
      * rewrite Hc. cbn [entriesOf rev]. now rewrite <- app_assoc.
      * rewrite Hm. cbn [length]. now rewrite advance_S.
      * rewrite Ha. cbn [length]. lia.
Qed.

Lemma entriesOf_length (m : number) (a : nat) (chosen : list json) :
  length (entriesOf auto hebrewDate m a chosen) = length chosen.
Proof.
  revert m a; induction chosen as [|x r IH]; intros m a; cbn; auto.
Qed.

Lemma entriesOf_ids (chosen : list json) :
  forall m a,
    map Entry.id (entriesOf auto hebrewDate m a chosen)
    = idsFrom m (length chosen).
Proof.
  induction chosen as [|x r IH]; intros m a; [reflexivity|].
  cbn [entriesOf map length idsFrom]. now rewrite newEntry_id, IH.
Qed.

Lemma entriesOf_keyed (chosen : list json) :
  Forall (fun article => readable article = true) chosen ->
  forall m a, Forall keyed (entriesOf auto hebrewDate m a chosen).
Proof.
  induction 1 as [|x r Hx _ IH]; intros m a; cbn [entriesOf]; constructor.
  - now apply newEntry_keyed.
  - apply IH.
Qed.

(** The loop on a list in two parts. *)
Lemma mergeLoop_app (l1 l2 : list json) :
  forall (existing : Corpus) (m : number) (a : nat),
    mergeLoop auto hebrewDate (l1 ++ l2) existing m a
    = match mergeLoop auto hebrewDate l1 existing m a with
      | Ok (c1, m1, a1) => mergeLoop auto hebrewDate l2 c1 m1 a1
      | Throw e => Throw e
      end.
Proof.
  induction l1 as [|x r IH]; intros existing m a; [reflexivity|].
  change ((x :: r) ++ l2) with (x :: (r ++ l2)).
  rewrite !mergeLoop_step.
  destruct (isDuplicate _ _ _) as [[|]|]; auto.
Qed.

(** The loop fails with a TypeError only. *)
Lemma mergeLoop_fails (articles : list json) :
  forall (existing : Corpus) (m : number) (a : nat) (e : Error),
    mergeLoop auto hebrewDate articles existing m a = Throw e -> e = TypeError.
Proof.
  induction articles as [|article rest IH]; intros existing m a e H;
    [discriminate|].
  rewrite mergeLoop_step in H.
  destruct (isDuplicate _ _ _) as [[|]|e'] eqn:D; eauto.
  injection H as <-. now apply isDuplicate_Throw in D.
Qed.

(** The loop goes through when every record can be read and every
    stored entry has its two keys. *)
Lemma mergeLoop_total (articles : list json) :
  Forall (fun article => readable article = true) articles ->
  forall (existing : Corpus) (m : number) (a : nat),
    Forall keyed existing ->
    exists r, mergeLoop auto hebrewDate articles existing m a = Ok r.
Proof.
  induction 1 as [|article rest R _ IH]; intros existing m a K.
  - eexists. reflexivity.
  - rewrite mergeLoop_step.
    pose proof R as R'. apply readable_fields in R' as (u & t & Hu & Ht).
    rewrite Hu, Ht.
    destruct (isDuplicate_keyed existing u t K) as ([|] & -> & _).
    + now apply IH.
    + apply IH. constructor; [now apply newEntry_keyed | exact K].
Qed.

Lemma merge_Ok (existing : Corpus) (articles : list json) (c' : Corpus)
  (added : nat) :
  merge auto hebrewDate existing articles = Ok (c', added) <->
  exists m m', maxIdOf existing = Ok m
               /\ mergeLoop auto hebrewDate articles existing m 0
                  = Ok (c', m', added).
Proof.
  unfold merge. destruct (maxIdOf existing) as [m|]; split.
  - destruct (mergeLoop auto hebrewDate articles existing m 0)
      as [[[c m'] a]|] eqn:L; [|discriminate].
    intros H. injection H as <- <-. exists m, m'. split; [reflexivity | exact L].
  - intros (m0 & m' & E & H). injection E as <-. now rewrite H.
  - discriminate.
  - intros (m0 & m' & E & _). discriminate.
Qed.

Lemma merge_inserted (existing : Corpus) (articles : list json)
  (c' : Corpus) (added : nat) :
  merge auto hebrewDate existing articles = Ok (c', added) ->
  exists m chosen,
    maxIdOf existing = Ok m
    /\ subseq chosen articles
    /\ Forall (fun article => readable article = true) chosen
    /\ length chosen = added
    /\ c' = rev (entriesOf auto hebrewDate m 0 chosen) ++ existing.
Proof.
  intros H. apply merge_Ok in H as (m & m' & Hm & H).
  apply mergeLoop_inserted in H as (chosen & Hs & Hr & Hc & _ & Ha).
  exists m, chosen. cbn in Ha. auto.
Qed.

Lemma merge_fails (existing : Corpus) (articles : list json) (e : Error) :
  merge auto hebrewDate existing articles = Throw e -> e = TypeError.
Proof.
  unfold merge. destruct (maxIdOf existing) as [m|e'] eqn:M.
  - destruct (mergeLoop auto hebrewDate articles existing m 0)
      as [[[c m'] a]|e'] eqn:L; [discriminate|].
    intros H. injection H as <-. now apply mergeLoop_fails in L.
  - intros H. injection H as <-. now apply reduceMax_Throw in M.
Qed.

(** A merge returns a corpus as soon as every record can be read, every
    stored entry has its two keys and every stored id converts to
    text. *)
Lemma merge_total (existing : Corpus) (articles : list json) (m : number) :
  Forall (fun article => readable article = true) articles ->
  Forall keyed existing ->
  maxIdOf existing = Ok m ->
  exists c' added, merge auto hebrewDate existing articles = Ok (c', added).
Proof.
  intros R K M. unfold merge. rewrite M.
  destruct (mergeLoop_total articles R existing m 0 K) as ([[c m'] a] & ->).
  now exists c, a.
Qed.

(** ** Distinct keys *)

Lemma present_In {A} (l : list (option A)) (x : A) :
  In x (present l) <-> In (Some x) l.
Proof.
  induction l as [|[a|] r IH]; cbn [present In]; [tauto| |].
  - rewrite IH. split; intros [H | H]; auto; left; congruence.
  - rewrite IH. split; [auto | intros [H | H]; [discriminate | auto]].
Qed.

(** The loop keeps the dedup keys pairwise distinct. *)
Lemma mergeLoop_distinct (articles : list json) :
  forall (existing : Corpus) (m : number) (a : nat) c' m' a',
    distinctKeys existing ->
    mergeLoop auto hebrewDate articles existing m a = Ok (c', m', a') ->
    distinctKeys c'.
Proof.
  induction articles as [|article rest IH]; intros existing m a c' m' a' D H.
  - now injection H as <- <- <-.
  - rewrite mergeLoop_step in H.
    destruct (isDuplicate _ _ _) as [[|]|] eqn:Dup; [| |discriminate].
    + eapply IH; eauto.
    + eapply IH; [|exact H].
      pose proof Dup as R. apply answered_readable in R.
      apply readable_fields in R as (u & t & Hu & Ht).
      rewrite Hu, Ht in Dup. rewrite isDuplicate_false_iff in Dup.
      destruct (newEntry_keys auto (hebrewDate a) (increment m) article u t
                  Hu Ht) as [Ku Kt].
      destruct D as [Du Dt]. split; cbn [map present].
      * rewrite Ku. cbn [present]. constructor; [|exact Du].
        intros Hin. apply present_In, in_map_iff in Hin as (e & He & Hin).
        destruct (Dup e Hin) as (_ & N & _). now apply N.
      * rewrite Kt. cbn [present]. constructor; [|exact Dt].
        intros Hin. apply present_In, in_map_iff in Hin as (e & He & Hin).
        destruct (Dup e Hin) as (_ & _ & N). now apply N.
Qed.

Lemma merge_distinct (existing : Corpus) (articles : list json)
  (c' : Corpus) (added : nat) :
  distinctKeys existing ->
  merge auto hebrewDate existing articles = Ok (c', added) ->
  distinctKeys c'.
Proof.
  intros D H. apply merge_Ok in H as (m & m' & _ & H).
  eapply mergeLoop_distinct; eauto.
Qed.

End MergeLoop.
(** ** Fresh ids *)

Lemma idsFrom_length (m : number) (n : nat) : length (idsFrom m n) = n.
Proof. revert m; induction n; intros m; simpl; auto. Qed.

(** Below [2^53] the ids are the numerals of the integers that follow
    the running maximum. *)
Lemma idsFrom_nth (n : nat) :
  forall (z : Z) (i : nat),
    (0 <= z)%Z -> (z + Z.of_nat n <= two53)%Z -> (i < n)%nat ->
    nth_error (idsFrom (Fin z) n) i
    = Some (Some (JStr (decimal (z + Z.of_nat i + 1)))).
Proof.
  induction n as [|n IH]; intros z i Hz Hn Hi; [lia|].
  cbn [idsFrom]. rewrite increment_safe by lia.
  rewrite numberToString_safe by lia.
  destruct i as [|i]; cbn [nth_error].
  - do 4 f_equal. lia.
  - rewrite IH by lia. do 4 f_equal. lia.
Qed.

Lemma idsFrom_members (n : nat) :
  forall (z : Z) (x : jsval),
    (0 <= z)%Z -> (z + Z.of_nat n <= two53)%Z ->
    In x (idsFrom (Fin z) n) ->
    exists i, (z < i <= z + Z.of_nat n)%Z /\ x = Some (JStr (decimal i)).
Proof.
  induction n as [|n IH]; intros z x Hz Hn; [intros []|].
  cbn [idsFrom]. rewrite increment_safe by lia.
  rewrite numberToString_safe by lia. intros [<- | Hin].
  - exists (z + 1)%Z. split; [lia | reflexivity].
  - apply IH in Hin as (i & Hi & ->); [|lia|lia]. exists i. split; [lia | reflexivity].
Qed.

Lemma idsFrom_NoDup (n : nat) :
  forall z, (0 <= z)%Z -> (z + Z.of_nat n <= two53)%Z ->
            NoDup (idsFrom (Fin z) n).
Proof.
  induction n as [|n IH]; intros z Hz Hn; cbn [idsFrom]; constructor.
  - rewrite increment_safe by lia. rewrite numberToString_safe by lia.
    intros Hin. apply idsFrom_members in Hin as (i & Hi & E); [|lia|lia].
    injection E as E. apply decimal_inj in E; lia.
  - rewrite increment_safe by lia. apply IH; lia.
Qed.

Lemma countDown_snoc (m : Z) (k : nat) :
  countDown m (S k) = countDown (m + 1) k ++ [Some (JStr (decimal (m + 1)))].
Proof.
  induction k as [|k IH].
  - cbn. do 4 f_equal.
  - change (countDown m (S (S k)))
      with (Some (JStr (decimal (m + Z.of_nat (S (S k))))) :: countDown m (S k)).
    rewrite IH. cbn [countDown app]. do 4 f_equal. lia.
Qed.

Lemma idsFrom_countDown (k : nat) :
  forall z, (0 <= z)%Z -> (z + Z.of_nat k <= two53)%Z ->
            rev (idsFrom (Fin z) k) = countDown z k.
Proof.
  induction k as [|k IH]; intros z Hz Hk; [reflexivity|].
  rewrite countDown_snoc. cbn [idsFrom rev].
  rewrite increment_safe by lia. rewrite IH by lia.
  now rewrite numberToString_safe by lia.
Qed.

(** Reading back an id the merge wrote gives its number. *)
Lemma idNumber_decimal (e : json) (n : Z) :
  (0 <= n <= two53)%Z -> Entry.id e = Some (JStr (decimal n)) ->
  idNumber e = Ok (Fin n).
Proof.
  intros Hn H. unfold idNumber. unfold Entry.id in H.
  assert (N : e <> JNull) by (intros ->; discriminate).
  rewrite (field_getProp e _ N), H. cbn [bindR toText toStr].
  rewrite parseInt_decimal by exact Hn. now destruct n.
Qed.

Lemma maxIdOf_finite_nonneg (existing : Corpus) (m : Z) :
  maxIdOf existing = Ok (Fin m) -> (0 <= m)%Z.
Proof. intros H. now apply maxIdOf_nonneg in H. Qed.

(** Fresh ids exceed every id read from the corpus: unique ids stay
    unique, as long as the ids stay within [2^53]. *)
Lemma merge_ids_unique (auto : bool) (hebrewDate : nat -> jsstring)
  (existing : Corpus) (articles : list json) (c' : Corpus) (added : nat)
  (m : Z) :
  merge auto hebrewDate existing articles = Ok (c', added) ->
  maxIdOf existing = Ok (Fin m) ->
  (m + Z.of_nat added <= two53)%Z ->
  NoDup (map Entry.id existing) -> NoDup (map Entry.id c').
Proof.
  intros H M B U.
  destruct (merge_inserted _ _ _ _ _ _ H) as (m0 & chosen & M' & _ & _ & Hl & Hc).
  rewrite M in M'. injection M' as <-.
  pose proof (maxIdOf_finite_nonneg _ _ M) as Hm.
  rewrite Hc, map_app, map_rev, entriesOf_ids, Hl.
  apply NoDup_app; auto.
  - apply NoDup_rev. now apply idsFrom_NoDup.
  - intros x Hx Hin. apply in_rev in Hx.
    apply idsFrom_members in Hx as (i & Hi & ->); [|lia|lia].
    apply in_map_iff in Hin as (e & He & Hin).
    destruct (maxIdOf_upper existing _ e M Hin) as (n & Hn & Hle).
    rewrite (idNumber_decimal e i) in Hn by (auto; lia).
    injection Hn as <-. cbn in Hle. lia.
Qed.

(** The merge of the sample articles into the sample corpus. *)
Lemma sampleCorpus_distinct : distinctKeys sampleCorpus.
Proof.
  split; vm_compute; repeat constructor; intros [].
Qed.

Lemma sample_merge :
  merge false sampleClock sampleCorpus sampleArticles = Ok (sampleMerged, 2%nat).
Proof. vm_compute. reflexivity. Qed.

Lemma sample_max : maxIdOf sampleCorpus = Ok (Fin 7).
Proof. vm_compute. reflexivity. Qed.

Lemma big_merge :
  merge false sampleClock bigCorpus sampleArticles = Ok (bigMerged, 2%nat).
Proof. vm_compute. reflexivity. Qed.

(** C3 (as the code has it).  In a merge of either mode, the entries
    inserted get the spellings of the running maximum after each
    increment, the maximum starting at the largest numeric id of the
    corpus before the merge (0 when there is none), an id spelling the
    number n in decimal counting as n.  As long as the maximum and the
    insertions stay within 2^53, these are the numerals of max+1,
    max+2, ..., the n-th inserted entry getting max+n, and when the ids
    of that corpus were unique, the ids of the resulting corpus are
    unique. *)
Theorem merge_assigns_consecutive_fresh_ids :
  forall (auto : bool) (hebrewDate : nat -> jsstring) (existing : Corpus)
         (articles : list json) (corpus' : Corpus) (added : nat),
    merge auto hebrewDate existing articles = Ok (corpus', added) ->
    exists max : number,
      maxIdOf existing = Ok max
      /\ ((forall e n, (0 <= n <= two53)%Z ->
                       Entry.id e = Some (JStr (decimal n)) ->
                       idNumber e = Ok (Fin n))
          /\ numberLe (Fin 0) max
          /\ (forall e, In e existing ->
                        exists n, idNumber e = Ok n /\ numberLe n max)
          /\ (max = Fin 0 \/ exists e, In e existing /\ idNumber e = Ok max))
      /\ exists inserted,
           corpus' = rev inserted ++ existing
           /\ length inserted = added
           /\ map Entry.id inserted = idsFrom max added
           /\ forall m : Z,
                max = Fin m -> (m + Z.of_nat added <= two53)%Z ->
                (forall n, (n < added)%nat ->
                   option_map Entry.id (nth_error inserted n)
                   = Some (Some (JStr (decimal (m + Z.of_nat n + 1)))))
                /\ (NoDup (map Entry.id existing) ->
                    NoDup (map Entry.id corpus')).
Proof.
  intros auto date existing articles corpus' added H.
  destruct (merge_inserted _ _ _ _ _ _ H) as (max & chosen & M & _ & _ & Hl & Hc).
  exists max. split; [exact M|]. split.
  { split; [exact idNumber_decimal|].
    split; [now apply maxIdOf_nonneg in M|].
    split; [intros e Hin; now apply (maxIdOf_upper existing)|].
    now apply maxIdOf_attained. }
  exists (entriesOf auto date max 0 chosen).
  split; [exact Hc|]. split; [now rewrite entriesOf_length|].
  split; [now rewrite entriesOf_ids, Hl|].
  intros m -> B. split.
  - intros n Hn.
    rewrite <- nth_error_map, entriesOf_ids, Hl.
    apply idsFrom_nth; auto. now apply maxIdOf_finite_nonneg in M.
  - now apply (merge_ids_unique auto date existing articles corpus' added m).
Qed.

Lemma merge_assigns_consecutive_fresh_ids_witness :
  merge false sampleClock sampleCorpus sampleArticles = Ok (sampleMerged, 2%nat)
  /\ maxIdOf sampleCorpus = Ok (Fin 7)
  /\ NoDup (map Entry.id sampleCorpus)
  /\ NoDup (map Entry.id sampleMerged)
  /\ map Entry.id sampleMerged
     = [Some (JStr (js "9")); Some (JStr (js "8")); Some (JStr (js "7"))].
Proof.
  assert (U : NoDup (map Entry.id sampleCorpus))
    by (vm_compute; repeat constructor; intros []).
  split; [exact sample_merge|]. split; [exact sample_max|]. split; [exact U|].
  destruct (merge_assigns_consecutive_fresh_ids
              false sampleClock sampleCorpus sampleArticles sampleMerged 2
              sample_merge) as (max & M & _ & ins & _ & _ & _ & Hb).
  rewrite sample_max in M. injection M as <-.
  destruct (Hb 7%Z eq_refl) as (_ & Hu); [vm_compute; discriminate|].
  split; [exact (Hu U) | vm_compute; reflexivity].
Defined.

(** C3, the claim as stated, refuted: past 2^53 the increment stops;
    the ids of a corpus that were unique are no longer so after a merge,
    and the entries inserted do not get max+1 and max+2. *)
Lemma ids_repeat_past_two53 :
  merge false sampleClock bigCorpus sampleArticles = Ok (bigMerged, 2%nat)
  /\ maxIdOf bigCorpus = Ok (Fin 9007199254740992)
  /\ NoDup (map Entry.id bigCorpus)
  /\ map Entry.id bigMerged
     = [Some (JStr (js "9007199254740992"));
        Some (JStr (js "9007199254740992"));
        Some (JStr (js "9007199254740992"))]
  /\ ~ NoDup (map Entry.id bigMerged).
Proof.
  split; [exact big_merge|]. split; [vm_compute; reflexivity|].
  split; [vm_compute; repeat constructor; intros []|].
  assert (E : map Entry.id bigMerged
              = [Some (JStr (js "9007199254740992"));
                 Some (JStr (js "9007199254740992"));
                 Some (JStr (js "9007199254740992"))])
    by (vm_compute; reflexivity).
  split; [exact E|]. rewrite E. intros N. inversion N as [|? ? Hn _]; subst.
  apply Hn. now left.
Qed.

(** C4.  A merge of either mode keeps the corpus free of two entries
    with the same normalized sourceUrl or the same normalized title. *)
Theorem merge_preserves_distinct_keys :
  forall (auto : bool) (hebrewDate : nat -> jsstring) (existing : Corpus)
         (articles : list json) (corpus' : Corpus) (added : nat),
    distinctKeys existing ->
    merge auto hebrewDate existing articles = Ok (corpus', added) ->
    distinctKeys corpus'.
Proof.
  intros auto date existing articles corpus' added D H.
  exact (merge_distinct auto date existing articles corpus' added D H).
Qed.

Lemma merge_preserves_distinct_keys_witness :
  distinctKeys sampleCorpus
  /\ merge false sampleClock sampleCorpus sampleArticles = Ok (sampleMerged, 2%nat)
  /\ distinctKeys sampleMerged.
Proof.
  split; [exact sampleCorpus_distinct|]. split; [exact sample_merge|].
  exact (merge_preserves_distinct_keys
           false sampleClock sampleCorpus sampleArticles sampleMerged 2
           sampleCorpus_distinct sample_merge).
Defined.

(** ** Rounding to a double *)

Section Doubles.

Local Open Scope Z_scope.

Lemma two53_pow : two53 = 2 ^ 53.
Proof. reflexivity. Qed.

Lemma log2_above (a : Z) : two53 < a -> 53 <= Z.log2 a.
Proof.
  intros H. rewrite two53_pow in H.
  apply Z.log2_le_pow2; lia.
Qed.

(** The quotient of [a] by the power of two that leaves 53 bits. *)
Lemma mantissa_bounds (a : Z) :
  two53 < a ->
  2 ^ 52 <= a / 2 ^ (Z.log2 a - 52) < 2 ^ 53.
Proof.
  intros H. pose proof (log2_above a H) as L.
  assert (P : 0 < a) by (unfold two53 in H; lia).
  destruct (Z.log2_spec a P) as [Lo Hi].
  assert (E : 0 < 2 ^ (Z.log2 a - 52)) by (apply Z.pow_pos_nonneg; lia).
  split.
  - apply Z.div_le_lower_bound; [exact E|].
    rewrite <- Z.pow_add_r by lia.
    replace (Z.log2 a - 52 + 52) with (Z.log2 a) by lia. exact Lo.
  - apply Z.div_lt_upper_bound; [exact E|].
    rewrite <- Z.pow_add_r by lia.
    replace (Z.log2 a - 52 + 53) with (Z.succ (Z.log2 a)) by lia. exact Hi.
Qed.

Lemma roundRatio_integer (a : Z) :
  two53 < a ->
  exists q',
    (q' = a / 2 ^ (Z.log2 a - 52) \/ q' = a / 2 ^ (Z.log2 a - 52) + 1)
    /\ (roundRatio a 1 = Infinite
        \/ roundRatio a 1 = Finite q' (Z.log2 a - 52)).
Proof.
  intros H. pose proof (log2_above a H) as L.
  pose proof (mantissa_bounds a H) as [Q1 Q2].
  assert (P : 0 < a) by (unfold two53 in H; lia).
  destruct (Z.log2_spec a P) as [Lo Hi].
  unfold roundRatio. change (Z.log2 1) with 0. rewrite Z.sub_0_r.
  cbv zeta.
  assert (C1 : (0 <=? Z.log2 a) = true) by (apply Z.leb_le; lia).
  rewrite C1.
  assert (C2 : (1 * 2 ^ Z.log2 a <=? a) = true) by (apply Z.leb_le; lia).
  rewrite C2.
  rewrite (Z.max_l (Z.log2 a - 52) (-1074)) by lia.
  assert (C3 : (Z.log2 a - 52 <? 0) = false) by (apply Z.ltb_ge; lia).
  rewrite C3. rewrite Z.mul_1_l.
  set (e := Z.log2 a - 52) in *.
  set (q := a / 2 ^ e) in *.
  match goal with
  | |- context [if ?c then q + 1 else q] =>
      set (q' := if c then q + 1 else q)
  end.
  assert (Hq : q' = q \/ q' = q + 1)
    by (subst q'; match goal with |- context [if ?c then _ else _] => destruct c end; auto).
  exists q'. split; [exact Hq|].
  assert (C4 : (q' =? 0) = false) by (apply Z.eqb_neq; lia).
  rewrite C4.
  destruct ((971 <? e) || (e =? 971) && (2 ^ 53 <=? q')); auto.
Qed.

(** A quotient of 53 bits, or the next power of two, times a power of
    two is a double. *)
Lemma scaled_double (q e : Z) :
  1 <= e -> 2 ^ 52 <= q <= 2 ^ 53 -> isDouble (q * 2 ^ e).
Proof.
  intros He Hq.
  assert (E : 0 < 2 ^ e) by (apply Z.pow_pos_nonneg; lia).
  assert (E2 : 2 <= 2 ^ e).
  { replace 2 with (2 ^ 1) at 1 by reflexivity.
    apply Z.pow_le_mono_r; lia. }
  destruct (Z.eq_dec (q * 2 ^ e) two53) as [T | T].
  { left. rewrite T. unfold two53. lia. }
  right. split; [rewrite two53_pow in *; nia|].
  destruct (Z.eq_dec q (2 ^ 53)) as [-> | N].
  - rewrite <- Z.pow_add_r by lia.
    rewrite Z.log2_pow2 by lia.
    replace (53 + e - 52) with (e + 1) by lia.
    replace (53 + e) with (52 + (e + 1)) by lia.
    rewrite Z.pow_add_r by lia. apply Z.mod_mul. lia.
  - rewrite Z.log2_mul_pow2 by lia.
    assert (L : Z.log2 q = 52).
    { apply Z.log2_unique; [lia|]. change (Z.succ 52) with 53. lia. }
    rewrite L. replace (e + 52 - 52) with e by lia.
    apply Z.mod_mul. lia.
Qed.

Lemma roundInteger_double (z : Z) : 0 <= z -> runningMax (roundInteger z).
Proof.
  intros Hz. unfold roundInteger.
  destruct (Z.leb_spec (Z.abs z) two53) as [S | S].
  - left. lia.
  - assert (A : two53 < z) by lia.
    rewrite Z.abs_eq by lia.
    destruct (roundRatio_integer z A) as (q' & Hq & [-> | ->]).
    + destruct (z <? 0) eqn:N; [apply Z.ltb_lt in N; lia | exact I].
    + pose proof (mantissa_bounds z A) as [Q1 Q2].
      pose proof (log2_above z A) as L.
      rewrite Z.sgn_pos by (unfold two53 in A; lia). rewrite Z.mul_1_l.
      apply scaled_double; lia.
Qed.

(** Adding one to a double and rounding does not go below it. *)
Lemma increment_ge (m : number) :
  runningMax m -> numberLe m (increment m) /\ runningMax (increment m).
Proof.
  destruct m as [z| |]; cbn [runningMax increment numberLe]; try tauto.
  intros D.
  assert (Hz : 0 <= z) by (destruct D as [D | D]; unfold two53 in *; lia).
  split; [|apply roundInteger_double; lia].
  unfold roundInteger.
  destruct (Z.leb_spec (Z.abs (z + 1)) two53) as [S | S];
    [cbn [numberLe]; lia|].
  rewrite Z.abs_eq in * by lia.
  assert (A : two53 < z + 1) by lia.
  assert (M : z mod 2 ^ (Z.log2 z - 52) = 0 /\ 53 <= Z.log2 z).
  { destruct D as [D | [D1 D2]].
    - assert (z = two53) as -> by lia. split; reflexivity || (cbv; discriminate).
    - split; [exact D2 | now apply log2_above]. }
  destruct M as [M L].
  set (e := Z.log2 z - 52) in *.
  assert (E : 0 < 2 ^ e) by (apply Z.pow_pos_nonneg; lia).
  assert (E2 : 2 <= 2 ^ e).
  { replace 2 with (2 ^ 1) at 1 by reflexivity.
    apply Z.pow_le_mono_r; lia. }
  apply Z.mod_divide in M; [|lia]. destruct M as (c & Hc).
  assert (P : 0 < z) by (unfold two53 in A; lia).
  destruct (Z.log2_spec z P) as [Lo Hi].
  assert (L1 : Z.log2 (z + 1) = Z.log2 z).
  { apply Z.log2_unique; [lia|]. split; [lia|].
    (* z is a multiple of 2^e below 2^(L+1), itself such a multiple *)
    assert (c < 2 ^ 53).
    { replace (Z.succ (Z.log2 z)) with (53 + e) in Hi by lia.
      rewrite Z.pow_add_r in Hi by lia. nia. }
    replace (Z.succ (Z.log2 z)) with (53 + e) by lia.
    rewrite Z.pow_add_r by lia. nia. }
  destruct (roundRatio_integer (z + 1) A) as (q' & Hq & [-> | ->]).
  - destruct (z + 1 <? 0) eqn:N; [apply Z.ltb_lt in N; lia | exact I].
  - rewrite L1 in *. fold e in Hq |- *.
    assert (Q : (z + 1) / 2 ^ e = c).
    { rewrite Hc. rewrite Z.add_comm, Z.div_add by lia.
      rewrite Z.div_small by lia. reflexivity. }
    rewrite Q in Hq.
    rewrite Z.sgn_pos by lia. rewrite Z.mul_1_l. cbn [numberLe].
    destruct Hq as [-> | ->]; nia.
Qed.


Lemma roundInteger_nonpositive (z : Z) :
  z <= 0 -> numberLe (roundInteger z) (Fin 0).
Proof.
  intros Hz. unfold roundInteger.
  destruct (Z.leb_spec (Z.abs z) two53) as [S | S]; [exact Hz|].
  assert (A : two53 < Z.abs z) by lia.
  assert (N : z < 0) by (unfold two53 in *; lia).
  destruct (roundRatio_integer (Z.abs z) A) as (q' & Hq & [-> | ->]).
  - apply Z.ltb_lt in N. now rewrite N.
  - pose proof (mantissa_bounds (Z.abs z) A) as [Q1 Q2].
    pose proof (log2_above (Z.abs z) A) as L.
    assert (E : 0 < 2 ^ (Z.log2 (Z.abs z) - 52))
      by (apply Z.pow_pos_nonneg; lia).
    rewrite Z.sgn_neg by exact N. cbn [numberLe]. nia.
Qed.

Lemma isDouble_zero : isDouble 0.
Proof. left. unfold two53. lia. Qed.

Lemma runningMax_nonneg (m : number) : runningMax m -> numberLe (Fin 0) m.
Proof.
  destruct m as [z| |]; cbn; auto.
  intros [D | D]; unfold two53 in *; lia.
Qed.

End Doubles.

(** What [parseInt] returns is a double at or above zero, or a number
    at or below zero. *)
Lemma parseInt_double (s : jsstring) (x : number) :
  parseInt s = Some x -> runningMax x \/ numberLe x (Fin 0).
Proof.
  unfold parseInt.
  destruct (readDigits _) eqn:R; try discriminate;
    intros H; injection H as <-;
    (destruct (firstIs (N.eqb 45) (trimStart s));
     [right; apply roundInteger_nonpositive; lia
     | left; apply roundInteger_double; lia]).
Qed.

Lemma idNumber_double (e : json) (x : number) :
  idNumber e = Ok x -> runningMax x \/ numberLe x (Fin 0).
Proof.
  unfold idNumber.
  destruct (getProp (Some e) (js "id")) as [i|]; [|discriminate].
  cbn [bindR]. destruct (toText i) as [text|]; [|discriminate].
  cbn [bindR]. intros H. injection H as <-.
  destruct (parseInt text) as [n|] eqn:P; cbn [orZero].
  - apply parseInt_double in P.
    destruct n as [[| |]| |]; auto.
  - left. exact isDouble_zero.
Qed.

Lemma fold_runningMax (ns : list number) :
  Forall (fun x => runningMax x \/ numberLe x (Fin 0)) ns ->
  forall init, runningMax init -> runningMax (fold_left Math_max ns init).
Proof.
  induction 1 as [|x r Hx _ IH]; intros init Hi; [exact Hi|].
  cbn [fold_left]. apply IH. destruct Hx as [Hx | Hx].
  - destruct (Math_max_either init x) as [-> | ->]; assumption.
  - rewrite Math_max_absorbs; [exact Hi | |].
    + eapply numberLe_trans; [exact Hx | now apply runningMax_nonneg].
    + intros ->. exact Hi.
Qed.

(** The maximum the merge starts from is a double at or above zero, or
    infinite. *)
Lemma maxIdOf_runningMax (existing : Corpus) (m : number) :
  maxIdOf existing = Ok m -> runningMax m.
Proof.
  intros H. apply maxIdOf_fold in H as (ns & Hns & ->).
  apply fold_runningMax; [|exact isDouble_zero].
  apply Forall_forall. intros x Hx. unfold idsOf in Hns.
  revert ns Hns x Hx. induction existing as [|a r IH]; intros ns Hns x Hx.
  - injection Hns as <-. destruct Hx.
  - cbn [mapR] in Hns. destruct (idNumber a) as [n|] eqn:E; [|discriminate].
    cbn [bindR] in Hns. destruct (mapR idNumber r) as [ns'|]; [|discriminate].
    cbn [bindR] in Hns. injection Hns as <-. destruct Hx as [<- | Hx].
    + now apply idNumber_double in E.
    + now apply (IH ns' eq_refl).
Qed.

(** The running maximum never goes down. *)
Lemma advance_monotone (m : number) (i : nat) :
  runningMax m ->
  runningMax (advance m i) /\ numberLe (advance m i) (advance m (S i)).
Proof.
  intros H. induction i as [|i [IH _]].
  - split; [exact H | now apply increment_ge].
  - assert (R : runningMax (advance m (S i))) by now apply increment_ge.
    split; [exact R | now apply (increment_ge (advance m (S i)))].
Qed.

Lemma advance_le (m : number) (i j : nat) :
  runningMax m -> (i <= j)%nat -> numberLe (advance m i) (advance m j).
Proof.
  intros H. induction 1 as [|j _ IH]; [apply numberLe_refl|].
  eapply numberLe_trans; [exact IH|]. now apply advance_monotone.
Qed.

Lemma idsFrom_advance (n : nat) :
  forall m,
    idsFrom m n
    = map (fun i => Some (JStr (numberToString (advance m i)))) (seq 1 n).
Proof.
  induction n as [|n IH]; intros m; [reflexivity|].
  cbn [idsFrom seq map]. change (advance m 1) with (increment m).
  f_equal. rewrite IH, <- (seq_shift n 1), map_map.
  apply map_ext. intros i. now rewrite advance_S.
Qed.

(** ** The order of a merge *)

Section MergeOrder.

Variable auto : bool.
Variable hebrewDate : nat -> jsstring.

(** A merge that succeeds has succeeded on every prefix of its records;
    what it does with the next record is one round of the loop. *)
Lemma merge_rounds (existing : Corpus) (pre post : list json) (article : json)
  (c' : Corpus) (k : nat) (max : number) :
  merge auto hebrewDate existing (pre ++ article :: post) = Ok (c', k) ->
  maxIdOf existing = Ok max ->
  exists c1 k1 duplicate,
    merge auto hebrewDate existing pre = Ok (c1, k1)
    /\ isDuplicate (JArr c1) (Entry.sourceUrl article) (Entry.title article)
       = Ok duplicate
    /\ merge auto hebrewDate existing (pre ++ [article])
       = Ok (if duplicate then (c1, k1)
             else (newEntry auto (hebrewDate k1) (advance max (S k1)) article
                   :: c1, S k1)).
Proof.
  intros H M. apply merge_Ok in H as (m & m' & M' & H).
  rewrite M in M'. injection M' as <-.
  rewrite mergeLoop_app in H.
  destruct (mergeLoop auto hebrewDate pre existing max 0)
    as [[[c1 m1] k1]|] eqn:P; [|discriminate].
  pose proof P as Q.
  apply mergeLoop_inserted in Q as (chosen & _ & _ & _ & Hm & Hk).
  cbn in Hk. subst k1.
  rewrite mergeLoop_step in H.
  destruct (isDuplicate (JArr c1) (Entry.sourceUrl article) (Entry.title article))
    as [duplicate|] eqn:D; [|discriminate].
  exists c1, (length chosen), duplicate.
  split; [unfold merge; now rewrite M, P|]. split; [exact D|].
  unfold merge. rewrite M, mergeLoop_app, P, mergeLoop_step, D.
  destruct duplicate; cbn [mergeLoop]; [reflexivity|].
  now rewrite Hm.
Qed.

Lemma firstn_rev_app {A} (l1 l2 : list A) :
  firstn (length l1) (rev l1 ++ l2) = rev l1.
Proof.
  rewrite <- length_rev. rewrite firstn_app, Nat.sub_diag, firstn_all.
  cbn. apply app_nil_r.
Qed.

Lemma skipn_rev_app {A} (l1 l2 : list A) :
  skipn (length l1) (rev l1 ++ l2) = l2.
Proof.
  rewrite <- length_rev. rewrite skipn_app, Nat.sub_diag, skipn_all.
  reflexivity.
Qed.

End MergeOrder.

(** C7.  A merge of either mode that inserts k entries into a corpus of
    length L returns a corpus of length L + k: its first k entries are
    the new ones, the newest first, and the entries after them are the
    previous corpus, unchanged.  The new entries are built, in the order
    of the input, from the records that were no duplicate when their
    turn came: the merge of a prefix of the records followed by one
    more record is the merge of the prefix, with the entry of that
    record in front exactly when the record is no duplicate of the
    corpus as merged so far.  The id of a new entry spells the running
    maximum after its insertion, and the running maximum never goes
    down: from the front the ids do not go up, the first being the
    highest.  As long as they stay within 2^53 they are the numerals of
    max+k, ..., max+1. *)
Theorem merge_prepends_in_input_order :
  forall (auto : bool) (hebrewDate : nat -> jsstring) (existing : Corpus)
         (articles : list json) (corpus' : Corpus) (k : nat),
    merge auto hebrewDate existing articles = Ok (corpus', k) ->
    length corpus' = (length existing + k)%nat
    /\ skipn k corpus' = existing
    /\ exists max : number,
         maxIdOf existing = Ok max
         /\ (exists chosen,
               subseq chosen articles
               /\ length chosen = k
               /\ rev (firstn k corpus') = entriesOf auto hebrewDate max 0 chosen)
         /\ (forall pre article post,
               articles = pre ++ article :: post ->
               exists c1 k1 duplicate,
                 merge auto hebrewDate existing pre = Ok (c1, k1)
                 /\ isDuplicate (JArr c1) (Entry.sourceUrl article)
                                (Entry.title article)
                    = Ok duplicate
                 /\ merge auto hebrewDate existing (pre ++ [article])
                    = Ok (if duplicate then (c1, k1)
                          else (newEntry auto (hebrewDate k1)
                                         (advance max (S k1)) article :: c1,
                                S k1)))
         /\ map Entry.id (rev (firstn k corpus'))
            = map (fun i => Some (JStr (numberToString (advance max i))))
                  (seq 1 k)
         /\ (forall i j, (i <= j)%nat ->
                         numberLe (advance max i) (advance max j))
         /\ (forall m : Z,
               max = Fin m -> (m + Z.of_nat k <= two53)%Z ->
               map Entry.id (firstn k corpus') = countDown m k
               /\ ((0 < k)%nat ->
                   option_map Entry.id (hd_error corpus')
                   = Some (Some (JStr (decimal (m + Z.of_nat k)))))).
Proof.
  intros auto date existing articles corpus' k H.
  destruct (merge_inserted _ _ _ _ _ _ H) as (max & chosen & M & Hs & _ & Hl & Hc).
  assert (Hk : length (entriesOf auto date max 0 chosen) = k)
    by now rewrite entriesOf_length.
  assert (F : firstn k corpus' = rev (entriesOf auto date max 0 chosen)).
  { rewrite Hc, <- Hk. apply firstn_rev_app. }
  split; [rewrite Hc, length_app, length_rev, Hk; apply Nat.add_comm|].
  split; [rewrite Hc, <- Hk; apply skipn_rev_app|].
  exists max. split; [exact M|]. split.
  { exists chosen. split; [exact Hs|]. split; [exact Hl|].
    now rewrite F, rev_involutive. }
  split.
  { intros pre article post ->.
    exact (merge_rounds auto date existing pre post article corpus' k max H M). }
  split.
  { rewrite F, rev_involutive, entriesOf_ids, Hl. apply idsFrom_advance. }
  split.
  { intros i j. apply advance_le. now apply maxIdOf_runningMax in M. }
  intros m -> B.
  assert (I : map Entry.id (firstn k corpus') = countDown m k).
  { rewrite F, map_rev, entriesOf_ids, Hl.
    apply idsFrom_countDown; [now apply maxIdOf_finite_nonneg in M | exact B]. }
  split; [exact I|].
  intros Hpos. destruct k as [|j]; [lia|].
  destruct corpus' as [|e c]; [discriminate|].
  cbn [firstn map countDown] in I. injection I as I _.
  cbn [hd_error option_map]. now rewrite I.
Qed.

Lemma merge_prepends_in_input_order_witness :
  merge false sampleClock sampleCorpus sampleArticles = Ok (sampleMerged, 2%nat)
  /\ length sampleMerged = (length sampleCorpus + 2)%nat
  /\ skipn 2 sampleMerged = sampleCorpus
  /\ map Entry.id (firstn 2 sampleMerged)
     = [Some (JStr (js "9")); Some (JStr (js "8"))].
Proof.
  split; [exact sample_merge|].
  destruct (merge_prepends_in_input_order
              false sampleClock sampleCorpus sampleArticles sampleMerged 2
              sample_merge)
    as (Hlen & Hskip & max & M & _ & _ & _ & _ & Hids).
  split; [exact Hlen|]. split; [exact Hskip|].
  rewrite sample_max in M. injection M as <-.
  destruct (Hids 7%Z eq_refl) as (I & _); [vm_compute; discriminate|].
  exact I.
Defined.

(** Past 2^53 no new entry has an id above the others: the two entries
    inserted carry one and the same id, that of the entry that was
    there. *)
Example new_ids_tie_past_two53 :
  merge false sampleClock bigCorpus sampleArticles = Ok (bigMerged, 2%nat)
  /\ skipn 2 bigMerged = bigCorpus
  /\ map Entry.id (firstn 2 bigMerged)
     = [Some (JStr (js "9007199254740992")); Some (JStr (js "9007199254740992"))]
  /\ map Entry.id bigCorpus = [Some (JStr (js "9007199254740992"))]
  /\ idsOf bigMerged
     = Ok [Fin 9007199254740992; Fin 9007199254740992; Fin 9007199254740992].
Proof.
  split; [exact big_merge|]. vm_compute. repeat split.
Qed.

(** ** The steps of a run *)

Lemma mapM_scoutSource (w : World) (l : list Source) (st : RunState) :
  mapM (scoutSource w) l st
  = (Ok (map (yield w) l), mkState (file st) (log st ++ map FetchSource l)).
Proof.
  revert st; induction l as [|s l IH]; intros [f lg].
  - simpl. unfold ret. now rewrite app_nil_r.
  - cbn [mapM map]. unfold bind at 1.
    assert (E : scoutSource w s (mkState f lg)
                = (Ok (yield w s), mkState f (lg ++ [FetchSource s]))).
    { unfold scoutSource, yield, bind, emit, ret. simpl.
      destruct (adapter w s); reflexivity. }
    rewrite E. unfold bind at 1. rewrite IH. unfold ret. simpl.
    now rewrite <- app_assoc.
Qed.

Lemma fetchAll_form (w : World) (st : RunState) :
  fetchAll w st
  = (Ok (concat (map (yield w) sources)),
     mkState (file st) (log st ++ map FetchSource sources)).
Proof.
  unfold fetchAll, bind. rewrite mapM_scoutSource. reflexivity.
Qed.

Lemma forEach_firstn {A} (f : A -> result unit) (n : nat) (l : list A) :
  forEach f l = Ok tt -> forEach f (firstn n l) = Ok tt.
Proof.
  revert n; induction l as [|x r IH]; intros [|n] H; try reflexivity.
  cbn [firstn forEach] in *. destruct (f x) as [[]|]; [|discriminate].
  now apply IH.
Qed.

(** The summarizer on candidates it can render. *)
Lemma summarize_form (w : World) (items : list Item.t) (st : RunState) :
  forEach printable (firstn MAX_ARTICLES_PER_BATCH items) = Ok tt ->
  summarizeWithClaude w items st
  = (summarizeResult w, mkState (file st) (log st ++ requests w items)).
Proof.
  intros P. destruct st as [f lg].
  unfold summarizeWithClaude, summarizeResult, requests, slice0.
  split_key w; try (unfold throw; simpl; now rewrite app_nil_r).
  unfold bind, emit, throw, lift. rewrite P. simpl.
  destruct (service w) as [|[|] status body]; reflexivity.
Qed.

(** The summarizer on any candidates: it fails before the request on
    candidates it cannot render. *)
Lemma summarize_cases (w : World) (items : list Item.t) (st : RunState) :
  summarizeWithClaude w items st
  = (summarizeResult w, mkState (file st) (log st ++ requests w items))
  \/ (exists e, summarizeWithClaude w items st = (Throw e, st)).
Proof.
  destruct (forEach printable (firstn MAX_ARTICLES_PER_BATCH items))
    as [[]|e] eqn:P; [left; now apply summarize_form|].
  unfold summarizeWithClaude, slice0.
  split_key w; try (right; eexists; reflexivity).
  right. exists e. unfold bind, lift. now rewrite P.
Qed.

Lemma mergeAndWrite_form (w : World) (auto : bool) (existing : json)
  (articles : json) (st : RunState) :
  mergeAndWrite w auto existing articles st
  = persist (mergeResult w auto existing articles) st.
Proof.
  unfold mergeAndWrite, mergeResult, persist, bind, lift, writeCorpus, bindR.
  destruct (asArray existing) as [entries|e]; [|reflexivity].
  destruct (iterate articles) as [list|e]; [|reflexivity].
  destruct (merge auto (hebrewDate w) entries list) as [[c k]|e]; [|reflexivity].
  simpl. destruct (diskWritable w); reflexivity.
Qed.

Lemma loadExisting_form (st : RunState) :
  loadExisting st = (Ok (existingOf (file st)), st).
Proof. unfold loadExisting, existingOf. destruct (file st); reflexivity. Qed.

(** A run on the scouting path. *)
Lemma run_scout (w : World) :
  applyMode w = false \/ articlesJson w = None ->
  run w =
  match lengthText (existingOf (disk w)) with
  | Throw e => (Throw e, mkState (disk w) [])
  | Ok _ =>
      match filtered w with
      | Throw e => (Throw e, fetched w)
      | Ok [] => (Ok tt, fetched w)
      | Ok items =>
          match forEach printable items with
          | Throw e => (Throw e, fetched w)
          | Ok _ =>
              if autoMode w then
                match summarizeResult w with
                | Throw e =>
                    (Throw e,
                     mkState (disk w) (log (fetched w) ++ requests w items))
                | Ok summarized =>
                    persist (mergeResult w true (existingOf (disk w)) summarized)
                            (mkState (disk w)
                                     (log (fetched w) ++ requests w items))
                end
              else (Ok tt, fetched w)
          end
      end
  end.
Proof.
  intros Hpath.
  assert (E : run w
              = (existing <- loadExisting ;;
                 lift (lengthText existing) ;;;
                 allItems <- fetchAll w ;;
                 newItems <- lift (freshItems existing allItems) ;;
                 match newItems with
                 | [] => ret tt
                 | _ :: _ =>
                     lift (forEach printable newItems) ;;;
                     if autoMode w then
                       summarized <- summarizeWithClaude w newItems ;;
                       mergeAndWrite w true existing summarized
                     else ret tt
                 end) (mkState (disk w) [])).
  { unfold run, main.
    destruct (applyMode w); destruct (articlesJson w);
      try reflexivity; destruct Hpath; discriminate. }
  rewrite E. clear E.
  unfold bind at 1. rewrite loadExisting_form. cbn [file].
  unfold bind at 1. unfold lift at 1.
  destruct (lengthText (existingOf (disk w))) as [s|e]; [|reflexivity].
  unfold bind at 1. rewrite fetchAll_form. cbn [file log app].
  unfold bind at 1. unfold lift at 1. fold (filtered w). fold (fetched w).
  destruct (filtered w) as [[|i r]|e]; try reflexivity.
  unfold bind at 1. unfold lift at 1.
  destruct (forEach printable (i :: r)) as [[]|e] eqn:P; [|reflexivity].
  destruct (autoMode w); [|reflexivity].
  unfold bind. rewrite summarize_form by now apply forEach_firstn.
  destruct (summarizeResult w); [|reflexivity].
  rewrite mergeAndWrite_form. reflexivity.
Qed.

(** A run on the manual-injection path. *)
Lemma run_apply (w : World) (arg : jsstring) :
  applyMode w = true -> articlesJson w = Some arg ->
  run w =
  match JSON_parse (skipn (length (js "--articles=")) arg) with
  | None => (Throw SyntaxError, mkState (disk w) [])
  | Some newArticles =>
      persist (mergeResult w false (existingOf (disk w)) newArticles)
              (mkState (disk w) [])
  end.
Proof.
  intros Ha Hj. unfold run, main. rewrite Ha, Hj.
  destruct (JSON_parse _); [|reflexivity].
  unfold bind. rewrite loadExisting_form, mergeAndWrite_form. reflexivity.
Qed.

Lemma mergeResult_Ok (w : World) (auto : bool) (existing : json)
  (articles : json) (c : Corpus) :
  mergeResult w auto existing articles = Ok c ->
  exists entries l k,
    existing = JArr entries
    /\ iterate articles = Ok l
    /\ merge auto (hebrewDate w) entries l = Ok (c, k)
    /\ diskWritable w = true.
Proof.
  unfold mergeResult, bindR.
  destruct existing as [| | | |entries|]; cbn [asArray]; try discriminate.
  destruct (iterate articles) as [l|]; [|discriminate].
  destruct (merge auto (hebrewDate w) entries l) as [[c' k]|] eqn:E; [|discriminate].
  destruct (diskWritable w); [|discriminate].
  simpl. intros H. injection H as <-. now exists entries, l, k.
Qed.

Lemma persist_file (r : result Corpus) (st : RunState) :
  file (snd (persist r st))
  = match r with Ok c => Document (JArr c) | Throw _ => file st end.
Proof. destruct r; reflexivity. Qed.

Lemma persist_log (r : result Corpus) (st : RunState) :
  log (snd (persist r st))
  = log st ++ match r with Ok c => [WriteFile c] | Throw _ => [] end.
Proof. destruct r; simpl; [reflexivity | now rewrite app_nil_r]. Qed.

Lemma persist_fst (r : result Corpus) (st : RunState) :
  fst (persist r st) = match r with Ok _ => Ok tt | Throw e => Throw e end.
Proof. destruct r; reflexivity. Qed.

Lemma requests_no_write (w : World) (items : list Item.t) :
  existsb isWrite (requests w items) = false.
Proof. unfold requests. now split_key w. Qed.

Lemma fetches_no_write (l : list Source) :
  existsb isWrite (map FetchSource l) = false.
Proof. induction l; simpl; auto. Qed.

Lemma fetches_no_post (l : list Source) :
  filter isPost (map FetchSource l) = [].
Proof. induction l; simpl; auto. Qed.

Create HintDb scout.
#[local] Hint Resolve fetches_no_write fetches_no_post requests_no_write : scout.

(** ** Aggregator *)

(** C6.  Whatever adapters fail, and with whatever error, the Aggregator
    does not fail: it starts the five adapters in their fixed order and
    returns, in that order, the output of those that succeeded, a failed
    adapter contributing the empty list. *)
Theorem aggregator_isolates_failures :
  forall (w : World) (st : RunState),
    fetchAll w st
    = (Ok (concat
             (map (fun s => match adapter w s with
                            | Fetched items => items
                            | Failed _ => []
                            end)
                  [GoogleNews; ScienceDaily; MedicalNewsToday; PubMed; OpenAlex])),
       mkState (file st)
               (log st ++ [FetchSource GoogleNews; FetchSource ScienceDaily;
                           FetchSource MedicalNewsToday; FetchSource PubMed;
                           FetchSource OpenAlex])).
Proof. intros w st. apply fetchAll_form. Qed.

(** ** Summarizer *)

Lemma firstn_batch_length (items : list Item.t) :
  (length (firstn MAX_ARTICLES_PER_BATCH items) <= 10)%nat.
Proof. apply firstn_le_length. Qed.

Lemma mapi_length {A B} (f : nat -> A -> B) (i : nat) (l : list A) :
  length (mapi f i l) = length l.
Proof. revert i; induction l; intros i; simpl; auto. Qed.

Lemma path_cases (w : World) :
  (exists arg, applyMode w = true /\ articlesJson w = Some arg)
  \/ (applyMode w = false \/ articlesJson w = None).
Proof.
  destruct (applyMode w); [|now right; left].
  destruct (articlesJson w) as [arg|]; [left; now exists arg | now right; right].
Qed.

Lemma newItems_filtered (w : World) (items : list Item.t) :
  filtered w = Ok items -> newItems w = items.
Proof. unfold newItems. now intros ->. Qed.

Lemma newItems_unfiltered (w : World) (e : Error) :
  filtered w = Throw e -> newItems w = [].
Proof. unfold newItems. now intros ->. Qed.

(** The events of a run: on the manual-injection path at most a write;
    on the scouting path the five fetches, then at most one request,
    then at most one write. *)
Lemma run_log (w : World) :
  exists fetches posts writes,
    log (snd (run w)) = fetches ++ posts ++ writes
    /\ (fetches = [] \/ fetches = map FetchSource sources)
    /\ (posts = [] \/ posts = requests w (newItems w))
    /\ ((writes = [] /\ file (snd (run w)) = disk w)
        \/ exists c auto articles,
             writes = [WriteFile c]
             /\ fst (run w) = Ok tt
             /\ file (snd (run w)) = Document (JArr c)
             /\ mergeResult w auto (existingOf (disk w)) articles = Ok c).
Proof.
  destruct (path_cases w) as [(arg & Ha & Hj) | Hs].
  - rewrite (run_apply w arg Ha Hj).
    destruct (JSON_parse _) as [v|].
    + destruct (mergeResult w false (existingOf (disk w)) v) as [c|e] eqn:E.
      * exists [], [], [WriteFile c]. repeat split; auto.
        right. exists c, false, v. auto.
      * exists [], [], []. repeat split; auto.
    + exists [], [], []. repeat split; auto.
  - rewrite (run_scout w Hs).
    destruct (lengthText (existingOf (disk w))) as [s|e].
    2:{ exists [], [], []. repeat split; auto. }
    destruct (filtered w) as [[|i r]|e] eqn:F.
    1,3: exists (map FetchSource sources), [], []; cbn [snd log fetched file];
         rewrite !app_nil_r; repeat split; auto.
    rewrite (newItems_filtered w _ F).
    destruct (forEach printable (i :: r)) as [[]|e].
    2:{ exists (map FetchSource sources), [], []. cbn [snd log fetched file].
        rewrite !app_nil_r. repeat split; auto. }
    destruct (autoMode w).
    2:{ exists (map FetchSource sources), [], []. cbn [snd log fetched file].
        rewrite !app_nil_r. repeat split; auto. }
    destruct (summarizeResult w) as [v|e].
    + destruct (mergeResult w true (existingOf (disk w)) v) as [c|e] eqn:E.
      * exists (map FetchSource sources), (requests w (i :: r)), [WriteFile c].
        cbn [persist fst snd log file fetched]. rewrite <- app_assoc.
        repeat split; auto. right. exists c, true, v. auto.
      * exists (map FetchSource sources), (requests w (i :: r)), [].
        cbn [persist snd log file fetched]. rewrite !app_nil_r.
        repeat split; auto.
    + exists (map FetchSource sources), (requests w (i :: r)), [].
      cbn [snd log file fetched]. rewrite !app_nil_r. repeat split; auto.
Qed.

Lemma requests_posts (w : World) (items : list Item.t) :
  requests w items = []
  \/ exists key,
       requests w items
       = [PostSummarize key (renderItems (firstn MAX_ARTICLES_PER_BATCH items))].
Proof.
  unfold requests. destruct (ANTHROPIC_API_KEY w) as [[|c k]|];
    [now left | right; now exists (c :: k) | now left].
Qed.

Lemma run_posts (w : World) :
  filter isPost (log (snd (run w))) = []
  \/ exists key,
       filter isPost (log (snd (run w)))
       = [PostSummarize key
            (renderItems (firstn MAX_ARTICLES_PER_BATCH (newItems w)))].
Proof.
  destruct (run_log w) as (fs & ps & ws & -> & Hf & Hp & Hw).
  assert (Ef : filter isPost fs = [])
    by (destruct Hf as [-> | ->]; auto with scout).
  assert (Ew : filter isPost ws = [])
    by (destruct Hw as [[-> _] | (c & a & v & -> & _)]; reflexivity).
  rewrite !filter_app, Ef, Ew, app_nil_r. simpl.
  destruct Hp as [-> | ->]; [now left|].
  destruct (requests_posts w (newItems w)) as [-> | (key & ->)];
    [now left | right; now exists key].
Qed.

(** C5.  Whatever the list of candidates handed to the summarizer, the
    request it sends carries the blocks of its first
    MAX_ARTICLES_PER_BATCH = 10 candidates and of no other; and a run
    sends at most one request, built from the first ten of its new
    candidates: what exceeds the cap is sent nowhere. *)
Theorem request_carries_at_most_ten_candidates :
  forall (w : World) (items : list Item.t) (st : RunState),
    MAX_ARTICLES_PER_BATCH = 10%nat
    /\ (let batch := firstn MAX_ARTICLES_PER_BATCH items in
        let blocks := mapi renderItem 0 batch in
        (length batch <= 10)%nat
        /\ length blocks = length batch
        /\ (log (snd (summarizeWithClaude w items st)) = log st
            \/ exists key,
                 log (snd (summarizeWithClaude w items st))
                 = log st ++ [PostSummarize key (join [10; 10] blocks)]))
    /\ (filter isPost (log (snd (run w))) = []
        \/ exists key,
             filter isPost (log (snd (run w)))
             = [PostSummarize key
                  (renderItems (firstn MAX_ARTICLES_PER_BATCH (newItems w)))]).
Proof.
  intros w items st. split; [reflexivity|]. split.
  - cbv zeta. split; [apply firstn_batch_length|].
    split; [apply mapi_length|].
    destruct (summarize_cases w items st) as [-> | (e & ->)]; [|now left].
    cbn [snd log].
    destruct (requests_posts w items) as [-> | (key & ->)].
    + left. apply app_nil_r.
    + right. now exists key.
  - apply run_posts.
Qed.

(** ** Validation failures *)

Lemma no_write_not_in (l : list Event) (c : Corpus) :
  existsb isWrite l = false -> ~ In (WriteFile c) l.
Proof.
  intros H Hin.
  assert (T : existsb isWrite l = true)
    by (apply existsb_exists; exists (WriteFile c); auto).
  congruence.
Qed.

(** Each validation condition makes the summarizer fail. *)
Lemma validation_throws (w : World) :
  validationFails w -> exists e, summarizeResult w = Throw e.
Proof.
  unfold summarizeResult.
  intros [H | [H | [H | [H | H]]]].
  - destruct H as [-> | ->]; eexists; reflexivity.
  - destruct H as (status & body & ->).
    split_key w; eexists; reflexivity.
  - destruct H as (data & text & (status & body & -> & Hp & Ht) & Hm).
    split_key w; try (eexists; reflexivity).
    unfold readReply. rewrite Hp, Ht. simpl. rewrite Hm.
    eexists; reflexivity.
  - destruct H as (data & text & (status & body & -> & Hp & Ht) & Hn).
    split_key w; try (eexists; reflexivity).
    unfold readReply. rewrite Hp, Ht. simpl.
    destruct (isMaxTokens data); [eexists; reflexivity|].
    unfold extractArray. rewrite Hn. eexists; reflexivity.
  - destruct H as (data & text & m & (status & body & -> & Hp & Ht) & Hn & Hj).
    split_key w; try (eexists; reflexivity).
    unfold readReply. rewrite Hp, Ht. simpl.
    destruct (isMaxTokens data); [eexists; reflexivity|].
    unfold extractArray. rewrite Hn, Hj. eexists; reflexivity.
Qed.

Lemma summarizeResult_replied (w : World) (data : json) (text : jsstring) :
  credentialPresent w -> repliedWith w data text -> isMaxTokens data = false ->
  summarizeResult w = extractArray text.
Proof.
  intros (c & k & Hk) (status & body & Hs & Hp & Ht) Hm.
  unfold summarizeResult, readReply. rewrite Hk, Hs, Hp, Ht. simpl.
  now rewrite Hm.
Qed.

(** The validation sequence: the error of the summarizer is that of the
    first check that fails, in the order credential, HTTP status,
    truncation, array located, array parsed. *)
Lemma validation_sequence (w : World) :
  (credentialMissing w -> summarizeResult w = Throw MissingApiKey)
  /\ (credentialPresent w ->
      (forall status body,
          service w = Responded false status body ->
          summarizeResult w = Throw (ApiError status body))
      /\ (forall data text,
            repliedWith w data text ->
            (isMaxTokens data = true -> summarizeResult w = Throw Truncated)
            /\ (isMaxTokens data = false -> matchArray text = None ->
                summarizeResult w = Throw NoJsonArray)
            /\ (isMaxTokens data = false ->
                forall jsonMatch,
                  matchArray text = Some jsonMatch ->
                  JSON_parse jsonMatch = None ->
                  summarizeResult w = Throw ParseFailed))).
Proof.
  split.
  - unfold summarizeResult. intros [-> | ->]; reflexivity.
  - intros Hk. split.
    + intros status body Hs. destruct Hk as (c & k & Hk).
      unfold summarizeResult. now rewrite Hk, Hs.
    + intros data text Hr. split; [|split].
      * intros Hm. destruct Hk as (c & k & Hk).
        destruct Hr as (status & body & Hs & Hp & Ht).
        unfold summarizeResult, readReply.
        rewrite Hk, Hs, Hp, Ht. simpl. now rewrite Hm.
      * intros Hm Hn.
        rewrite (summarizeResult_replied w data text Hk Hr Hm).
        unfold extractArray. now rewrite Hn.
      * intros Hm jsonMatch Hn Hj.
        rewrite (summarizeResult_replied w data text Hk Hr Hm).
        unfold extractArray. now rewrite Hn, Hj.
Qed.

(** A scouting run whose summarizer fails, or is not reached, leaves
    the file alone. *)
Lemma scout_run_without_summary (w : World) (e : Error) :
  applyMode w = false \/ articlesJson w = None ->
  summarizeResult w = Throw e ->
  file (snd (run w)) = disk w
  /\ existsb isWrite (log (snd (run w))) = false
  /\ (autoMode w = true -> newItems w <> [] ->
      exists e', fst (run w) = Throw e').
Proof.
  intros Hs He. rewrite (run_scout w Hs). rewrite He.
  destruct (lengthText (existingOf (disk w))) as [s|e0].
  2:{ cbn [fst snd file log]. split; [reflexivity|]. split; [reflexivity|].
      intros _ _. now exists e0. }
  destruct (filtered w) as [[|i r]|e0] eqn:F.
  - rewrite (newItems_filtered w _ F). cbn [fst snd file log fetched].
    split; [reflexivity|]. split; [apply fetches_no_write | congruence].
  - rewrite (newItems_filtered w _ F).
    destruct (forEach printable (i :: r)) as [[]|e0].
    + destruct (autoMode w); cbn [fst snd file log fetched].
      * split; [reflexivity|]. split; [|intros _ _; now exists e].
        rewrite existsb_app, fetches_no_write, requests_no_write. reflexivity.
      * split; [reflexivity|]. split; [apply fetches_no_write | discriminate].
    + cbn [fst snd file log fetched].
      split; [reflexivity|]. split; [apply fetches_no_write|].
      intros _ _. now exists e0.
  - cbn [fst snd file log fetched].
    split; [reflexivity|]. split; [apply fetches_no_write|].
    intros _ _. now exists e0.
Qed.

(** C2 (as the code has it).  In auto mode, when one of the five
    validation conditions of the summarizer holds, the corpus file is
    never written and stays as it was; and the run ends with an error
    whenever the summarizer is reached, that is whenever a new candidate
    is left after the pre-filter. *)
Theorem failed_validation_never_writes :
  forall w : World,
    scoutsInAutoMode w ->
    validationFails w ->
    file (snd (run w)) = disk w
    /\ existsb isWrite (log (snd (run w))) = false
    /\ (newItems w <> [] -> exists e, fst (run w) = Throw e).
Proof.
  intros w [Ha Hs] Hv.
  destruct (validation_throws w Hv) as (e & He).
  destruct (scout_run_without_summary w e Hs He) as (Hf & Hl & Hr).
  split; [exact Hf|]. split; [exact Hl|].
  intros Hn. exact (Hr Ha Hn).
Qed.

(** C2, the claim as stated, refuted: in auto mode with the credential
    missing and nothing new at the sources, the run ends without any
    error. *)
Lemma missing_credential_without_error :
  scoutsInAutoMode quietWorld
  /\ credentialMissing quietWorld
  /\ validationFails quietWorld
  /\ fst (run quietWorld) = Ok tt
  /\ exitCode quietWorld = 0%Z.
Proof.
  repeat split; try (vm_compute; reflexivity).
  - now left.
  - now left.
  - left. now left.
Qed.


(** Without the credential and with two new candidates, the run fails
    and the file is untouched. *)
Lemma failed_validation_never_writes_witness :
  scoutsInAutoMode keylessWorld
  /\ validationFails keylessWorld
  /\ file (snd (run keylessWorld)) = disk keylessWorld
  /\ existsb isWrite (log (snd (run keylessWorld))) = false
  /\ (newItems keylessWorld <> [] ->
      exists e, fst (run keylessWorld) = Throw e).
Proof.
  assert (Ha : scoutsInAutoMode keylessWorld)
    by (split; [reflexivity | left; reflexivity]).
  assert (Hv : validationFails keylessWorld)
    by (left; left; reflexivity).
  split; [exact Ha|]. split; [exact Hv|].
  exact (failed_validation_never_writes keylessWorld Ha Hv).
Defined.
(** ** What stops a scouting run *)

Lemma filterR_Throw {A} (cb : A -> result bool) (l : list A) (e : Error) :
  filterR cb l = Throw e -> exists x, In x l /\ cb x = Throw e.
Proof.
  induction l as [|x r IH]; [discriminate|]. cbn [filterR].
  destruct (cb x) as [keep|e'] eqn:E.
  - destruct (filterR cb r) as [kept|e'] eqn:F; [discriminate|].
    intros H. injection H as <-. destruct (IH eq_refl) as (y & Hin & Hy).
    exists y. split; [now right | exact Hy].
  - intros H. injection H as <-. exists x. split; [now left | exact E].
Qed.

Lemma freshItems_Throw (existing : json) (allItems : list Item.t) (e : Error) :
  freshItems existing allItems = Throw e -> e = TypeError.
Proof.
  intros H. apply filterR_Throw in H as (item & _ & H).
  destruct (isDuplicate existing (Some (Item.link item)) (Some (Item.title item)))
    as [d|e'] eqn:D; cbn [bindR] in H; [discriminate|].
  injection H as <-. now apply isDuplicate_Throw in D.
Qed.

Lemma forEach_printable_Throw (items : list Item.t) (e : Error) :
  forEach printable items = Throw e -> e = TypeError.
Proof.
  intros H. apply forEach_Throw in H as (x & _ & H).
  now apply printable_Throw in H.
Qed.

(** ** The credential *)




(** ** What the summarizer accepts *)

Lemma greedyThrough_none (close : N) (s : jsstring) :
  forallb (fun c => negb (c =? close)) s = true ->
  greedyThrough close s = None.
Proof.
  induction s as [|c r IH]; simpl; [reflexivity|].
  intros H. apply andb_true_iff in H as [Hc Hr].
  rewrite (IH Hr). apply negb_true_iff in Hc. now rewrite Hc.
Qed.

Lemma greedyThrough_last (close : N) (body post : jsstring) :
  forallb (fun c => negb (c =? close)) post = true ->
  greedyThrough close (body ++ close :: post) = Some (body ++ [close]).
Proof.
  intros Hp. induction body as [|c b IH]; simpl.
  - rewrite (greedyThrough_none close post Hp). now rewrite N.eqb_refl.
  - now rewrite IH.
Qed.

(** An array between a prefix with no opening bracket and a suffix with
    no closing bracket is what the pattern matches. *)
Lemma matchArray_prose (pre inner post : jsstring) :
  forallb (fun c => negb (isOpenBracket c)) pre = true ->
  forallb (fun c => negb (isCloseBracket c)) post = true ->
  matchArray (pre ++ 91 :: inner ++ 93 :: post) = Some (91 :: inner ++ [93]).
Proof.
  intros Hpre Hpost. induction pre as [|c p IH].
  - simpl. now rewrite (greedyThrough_last 93 inner post Hpost).
  - simpl in Hpre. apply andb_true_iff in Hpre as [Hc Hp].
    apply negb_true_iff in Hc. unfold isOpenBracket in Hc.
    simpl. rewrite Hc. now apply IH.
Qed.

Lemma extractArray_errors (text : jsstring) (e : Error) :
  extractArray text = Throw e -> e = NoJsonArray \/ e = ParseFailed.
Proof.
  unfold extractArray. destruct (matchArray text) as [m|].
  - destruct (JSON_parse m); [discriminate|]. intros H. right. congruence.
  - intros H. left. congruence.
Qed.

(** The merge-and-write step fails with a TypeError, before the write,
    or with the error of the write. *)
Lemma mergeResult_Throw (w : World) (auto : bool) (existing articles : json)
  (e : Error) :
  mergeResult w auto existing articles = Throw e ->
  e = TypeError \/ (e = IOError /\ diskWritable w = false).
Proof.
  unfold mergeResult.
  destruct existing as [| | | |entries|]; cbn [asArray bindR];
    try (intros H; left; congruence).
  destruct (iterate articles) as [l|e'] eqn:I; cbn [bindR].
  - destruct (merge auto (hebrewDate w) entries l) as [[c k]|e'] eqn:M;
      cbn [bindR].
    + destruct (diskWritable w); [discriminate|].
      intros H. right. split; congruence.
    + intros H. injection H as <-. left. now apply merge_fails in M.
  - intros H. injection H as <-. left.
    destruct articles; cbn in I; congruence.
Qed.

Lemma listsCandidates_run (w : World) :
  applyMode w = false \/ articlesJson w = None ->
  autoMode w = true ->
  listsCandidates w ->
  run w
  = match summarizeResult w with
    | Throw e =>
        (Throw e,
         mkState (disk w) (map FetchSource sources ++ requests w (newItems w)))
    | Ok summarized =>
        persist (mergeResult w true (existingOf (disk w)) summarized)
                (mkState (disk w)
                         (map FetchSource sources ++ requests w (newItems w)))
    end.
Proof.
  intros Hs Ha ((s & L) & N & P). rewrite (run_scout w Hs), L, Ha.
  unfold newItems in *. destruct (filtered w) as [[|i r]|e]; try congruence.
  now rewrite P.
Qed.

(** C9 (as the code has it).  With the credential present, a successful
    reply and no truncation, the summarizer returns whatever the
    substring of the reply text from its first opening bracket to its
    last closing bracket parses to: the candidates sent play no part in
    it, and text around the array, free of brackets, is dropped.  In a
    run that gets as far as the summarizer, the parsed value goes to the
    merge, and the run aborts, the file left as it was: where the text
    has no such substring or the substring does not parse; where the
    merge fails, with a TypeError, on a value that is no list of records
    with a title and a sourceUrl that are strings, or on a corpus it
    cannot read; and where the write fails.  Otherwise the run writes
    the merged corpus. *)
Theorem summarizer_takes_the_bracketed_substring :
  forall (w : World) (data : json) (text : jsstring),
    credentialPresent w ->
    repliedWith w data text ->
    isMaxTokens data = false ->
    (forall items st,
        fst (summarizeWithClaude w items st)
        = match forEach printable (firstn MAX_ARTICLES_PER_BATCH items) with
          | Ok _ => extractArray text
          | Throw _ => Throw TypeError
          end)
    /\ (forall pre inner post,
          text = pre ++ js "[" ++ inner ++ js "]" ++ post ->
          forallb (fun c => negb (isOpenBracket c)) pre = true ->
          forallb (fun c => negb (isCloseBracket c)) post = true ->
          extractArray text
          = match JSON_parse (js "[" ++ inner ++ js "]") with
            | Some v => Ok v
            | None => Throw ParseFailed
            end)
    /\ (forall e, extractArray text = Throw e ->
                  e = NoJsonArray \/ e = ParseFailed)
    /\ (scoutsInAutoMode w -> listsCandidates w ->
        (forall v, extractArray text = Ok v ->
           run w = persist (mergeResult w true (existingOf (disk w)) v)
                     (mkState (disk w)
                        (map FetchSource sources ++ requests w (newItems w))))
        /\ (forall e, extractArray text = Throw e ->
              fst (run w) = Throw e
              /\ file (snd (run w)) = disk w
              /\ existsb isWrite (log (snd (run w))) = false)
        /\ (forall v e,
              extractArray text = Ok v ->
              mergeResult w true (existingOf (disk w)) v = Throw e ->
              fst (run w) = Throw e
              /\ (e = TypeError \/ (e = IOError /\ diskWritable w = false))
              /\ file (snd (run w)) = disk w
              /\ existsb isWrite (log (snd (run w))) = false)
        /\ (forall v c,
              extractArray text = Ok v ->
              mergeResult w true (existingOf (disk w)) v = Ok c ->
              fst (run w) = Ok tt
              /\ file (snd (run w)) = Document (JArr c))).
Proof.
  intros w data text Hk Hr Hm.
  pose proof (summarizeResult_replied w data text Hk Hr Hm) as E.
  split; [|split; [|split]].
  - intros items st.
    destruct (forEach printable (firstn MAX_ARTICLES_PER_BATCH items))
      as [[]|e] eqn:P.
    + rewrite summarize_form by exact P. exact E.
    + pose proof (forEach_printable_Throw _ _ P) as ->.
      destruct Hk as (c & k & Hk).
      unfold summarizeWithClaude, slice0, bind, lift. now rewrite Hk, P.
  - intros pre inner post -> Hpre Hpost. unfold extractArray.
    change (js "[" ++ inner ++ js "]" ++ post) with (91 :: inner ++ 93 :: post).
    now rewrite (matchArray_prose pre inner post Hpre Hpost).
  - apply extractArray_errors.
  - intros [Ha Hs] Hl.
    pose proof (listsCandidates_run w Hs Ha Hl) as R. rewrite E in R.
    split; [|split; [|split]].
    + intros v Hv. now rewrite R, Hv.
    + intros e He. rewrite R, He. cbn [fst snd file log].
      split; [reflexivity|]. split; [reflexivity|].
      rewrite existsb_app, fetches_no_write, requests_no_write. reflexivity.
    + intros v e Hv He. rewrite R, Hv, He. cbn [persist fst snd file log].
      split; [reflexivity|].
      split; [now apply mergeResult_Throw in He|]. split; [reflexivity|].
      rewrite existsb_app, fetches_no_write, requests_no_write. reflexivity.
    + intros v c Hv Hc. rewrite R, Hv, Hc. cbn [persist fst snd file log].
      split; reflexivity.
Qed.

(** C9, the claim as stated, refuted: a reply with one record for two
    candidates, and a reply with the array inside a sentence, are both
    merged and written; neither run aborts. *)
Lemma short_or_wrapped_reply_is_merged :
  (length (newItems shortReplyWorld) = 2%nat
   /\ (exists record, summarizeResult shortReplyWorld = Ok (JArr [record]))
   /\ fst (run shortReplyWorld) = Ok tt
   /\ length (loaded (disk shortReplyWorld)) = 1%nat
   /\ length (loaded (file (snd (run shortReplyWorld)))) = 2%nat)
  /\ (firstIs isOpenBracket (replyTextOf proseWorld) = false
      /\ lastIs isCloseBracket (replyTextOf proseWorld) = false
      /\ fst (run proseWorld) = Ok tt
      /\ length (loaded (disk proseWorld)) = 1%nat
      /\ length (loaded (file (snd (run proseWorld)))) = 3%nat).
Proof.
  split.
  - split; [vm_compute; reflexivity|].
    split; [eexists; vm_compute; reflexivity|].
    repeat split; vm_compute; reflexivity.
  - repeat split; vm_compute; reflexivity.
Qed.

(** A reply without any bracket aborts the run. *)
Lemma summarizer_takes_the_bracketed_substring_witness :
  credentialPresent refusalWorld
  /\ repliedWith refusalWorld (replyData refusalWorld) (replyTextOf refusalWorld)
  /\ isMaxTokens (replyData refusalWorld) = false
  /\ fst (run refusalWorld) = Throw NoJsonArray
  /\ file (snd (run refusalWorld)) = disk refusalWorld.
Proof.
  assert (Hk : credentialPresent refusalWorld)
    by (do 2 eexists; reflexivity).
  assert (Hr : repliedWith refusalWorld (replyData refusalWorld)
                           (replyTextOf refusalWorld))
    by (do 2 eexists; repeat split; vm_compute; reflexivity).
  assert (Hm : isMaxTokens (replyData refusalWorld) = false)
    by (vm_compute; reflexivity).
  assert (Ha : scoutsInAutoMode refusalWorld)
    by (split; [reflexivity | left; reflexivity]).
  assert (Hl : listsCandidates refusalWorld).
  { split; [eexists; vm_compute; reflexivity|].
    split; vm_compute; [discriminate | reflexivity]. }
  assert (He : extractArray (replyTextOf refusalWorld) = Throw NoJsonArray)
    by (vm_compute; reflexivity).
  split; [exact Hk|]. split; [exact Hr|]. split; [exact Hm|].
  destruct (summarizer_takes_the_bracketed_substring
              refusalWorld _ _ Hk Hr Hm) as (_ & _ & _ & H).
  destruct (H Ha Hl) as (_ & Hab & _).
  destruct (Hab NoJsonArray He) as (H1 & H2 & _).
  split; assumption.
Defined.

(** A reply that parses, with a record that has no [sourceUrl]: the
    merge fails on it and nothing is written. *)
Example unreadable_record_in_reply :
  run (mkWorld [js "--auto"] (Some (js "sk-test")) twoNewArticles
         (Responded true 200
            (replyBody (jsq "[{'title':'Walk more'}]") (js "end_turn")))
         sampleClock (Document (JArr sampleCorpus)) true)
  = (Throw TypeError,
     mkState (Document (JArr sampleCorpus))
       (map FetchSource sources
        ++ [PostSummarize (js "sk-test")
              (renderItems
                 [sampleItem (js "Walking adds years") (js "https://example.com/walk");
                  sampleItem (js "Sleep and aging") (js "https://example.com/sleep")])])).
Proof. vm_compute. reflexivity. Qed.

(** ** A corpus file that cannot be read *)

Lemma run_depends_on_loaded (w : World) (d : FileState) :
  existingOf d = existingOf (disk w) ->
  fst (run (withDisk w d)) = fst (run w)
  /\ log (snd (run (withDisk w d))) = log (snd (run w)).
Proof.
  intros Hl.
  destruct (path_cases w) as [(arg & Ha & Hj) | Hs].
  - rewrite (run_apply w arg Ha Hj), (run_apply (withDisk w d) arg Ha Hj).
    destruct (JSON_parse _) as [v|]; [|now split].
    change (disk (withDisk w d)) with d. rewrite Hl.
    change (mergeResult (withDisk w d) false (existingOf (disk w)) v)
      with (mergeResult w false (existingOf (disk w)) v).
    now destruct (mergeResult w false (existingOf (disk w)) v).
  - rewrite (run_scout w Hs), (run_scout (withDisk w d) Hs).
    assert (En : filtered (withDisk w d) = filtered w)
      by (unfold filtered; cbn [disk withDisk]; now rewrite Hl).
    rewrite En.
    change (autoMode (withDisk w d)) with (autoMode w).
    change (summarizeResult (withDisk w d)) with (summarizeResult w).
    change (disk (withDisk w d)) with d. rewrite Hl.
    destruct (lengthText (existingOf (disk w))); [|now split].
    destruct (filtered w) as [[|i r]|e]; try now split.
    destruct (forEach printable (i :: r)) as [[]|e]; [|now split].
    destruct (autoMode w); [|now split].
    destruct (summarizeResult w) as [v|e]; [|now split].
    change (mergeResult (withDisk w d) true (existingOf (disk w)) v)
      with (mergeResult w true (existingOf (disk w)) v).
    change (requests (withDisk w d) (i :: r)) with (requests w (i :: r)).
    now destruct (mergeResult w true (existingOf (disk w)) v).
Qed.

Lemma existingOf_array (f : FileState) (entries : Corpus) :
  existingOf f = JArr entries -> loaded f = entries.
Proof. unfold loaded. now intros ->. Qed.

(** What a run writes is what a merge returned, and it is what the
    file then holds. *)
Lemma run_write (w : World) (c : Corpus) :
  In (WriteFile c) (log (snd (run w))) ->
  file (snd (run w)) = Document (JArr c)
  /\ exists auto records k,
       merge auto (hebrewDate w) (loaded (disk w)) records = Ok (c, k).
Proof.
  destruct (run_log w) as (fs & ps & ws & -> & Hf & Hp & Hw).
  intros Hin. apply in_app_or in Hin as [Hin | Hin].
  { exfalso. revert Hin. apply no_write_not_in.
    destruct Hf as [-> | ->]; auto with scout. }
  apply in_app_or in Hin as [Hin | Hin].
  { exfalso. revert Hin. apply no_write_not_in.
    destruct Hp as [-> | ->]; auto with scout. }
  destruct Hw as [[-> _] | (c' & auto & v & -> & _ & Hfile & Hm)];
    [contradiction|].
  destruct Hin as [Hin | []]. injection Hin as ->.
  split; [exact Hfile|].
  apply mergeResult_Ok in Hm as (entries & l & k & He & _ & Hm & _).
  rewrite (existingOf_array _ _ He). now exists auto, l, k.
Qed.

(** C10.  When the corpus file is missing, unreadable or not JSON,
    [loadExisting] returns the empty list and does not fail; the run
    then goes as on an empty corpus: no candidate is a duplicate of it,
    the running maximum starts at 0 so the first id is 1, the outcome and
    the events are those of the run on an empty document; and when the
    run writes, the file holds exactly the entries inserted, with the ids
    1, 2, ... from the last to the first. *)
Theorem unreadable_corpus_reads_as_empty :
  forall w : World,
    disk w = Absent \/ (exists text, disk w = Malformed text) ->
    (forall events,
        loadExisting (mkState (disk w) events)
        = (Ok (JArr []), mkState (disk w) events))
    /\ (forall url title : jsstring,
           isDuplicate (JArr (loaded (disk w))) (Some (JStr url))
                       (Some (JStr title))
           = Ok false)
    /\ (exists max, maxIdOf (loaded (disk w)) = Ok max
                    /\ max = Fin 0
                    /\ numberToString (increment max) = js "1")
    /\ fst (run w) = fst (run (withDisk w (Document (JArr []))))
    /\ log (snd (run w)) = log (snd (run (withDisk w (Document (JArr [])))))
    /\ (forall c, In (WriteFile c) (log (snd (run w))) ->
          file (snd (run w)) = Document (JArr c)
          /\ map Entry.id c = rev (idsFrom (Fin 0) (length c))).
Proof.
  intros w Hd.
  assert (He : existingOf (disk w) = JArr [])
    by (destruct Hd as [-> | (text & ->)]; reflexivity).
  assert (Hl : loaded (disk w) = []) by now apply existingOf_array.
  split; [|split; [|split; [|split; [|split]]]].
  - intros events. rewrite loadExisting_form. cbn [file]. now rewrite He.
  - intros url title. now rewrite Hl.
  - rewrite Hl. exists (Fin 0). repeat split.
  - symmetry. apply (run_depends_on_loaded w (Document (JArr []))).
    now rewrite He.
  - symmetry. apply (run_depends_on_loaded w (Document (JArr []))).
    now rewrite He.
  - intros c Hin. apply run_write in Hin as (Hf & auto & l & k & Hm).
    split; [exact Hf|]. rewrite Hl in Hm.
    apply merge_inserted in Hm as (m & chosen & M & _ & _ & Hlen & Hc).
    injection M as <-.
    rewrite app_nil_r in Hc. subst c.
    rewrite map_rev, entriesOf_ids, length_rev, entriesOf_length. reflexivity.
Qed.

(** With the file missing, an injected record becomes entry 1 of a
    new document. *)
Lemma unreadable_corpus_reads_as_empty_witness :
  (disk lostFileWorld = Absent
   \/ (exists text, disk lostFileWorld = Malformed text))
  /\ fst (run lostFileWorld) = Ok tt
  /\ fst (run lostFileWorld)
     = fst (run (withDisk lostFileWorld (Document (JArr []))))
  /\ map Entry.id (loaded (file (snd (run lostFileWorld))))
     = [Some (JStr (js "1"))].
Proof.
  assert (Hd : disk lostFileWorld = Absent
               \/ (exists text, disk lostFileWorld = Malformed text))
    by (left; reflexivity).
  split; [exact Hd|]. split; [vm_compute; reflexivity|].
  destruct (unreadable_corpus_reads_as_empty lostFileWorld Hd)
    as (_ & _ & _ & Hrun & _ & _).
  split; [exact Hrun | vm_compute; reflexivity].
Defined.

(** ** What a run leaves on disk *)

Lemma filter_isWrite_none (l : list Event) :
  existsb isWrite l = false -> filter isWrite l = [].
Proof.
  induction l as [|e l IH]; simpl; [reflexivity|].
  destruct (isWrite e); simpl; [discriminate | exact IH].
Qed.

(** All or nothing.  A run either fails and leaves the file as it was,
    or ends without writing, or ends after one write of the corpus its
    merge returned, which is then what the file holds. *)
Lemma run_outcome (w : World) :
  (exists e, fst (run w) = Throw e
             /\ file (snd (run w)) = disk w
             /\ filter isWrite (log (snd (run w))) = [])
  \/ (fst (run w) = Ok tt
      /\ file (snd (run w)) = disk w
      /\ filter isWrite (log (snd (run w))) = [])
  \/ (fst (run w) = Ok tt
      /\ exists auto c records k,
           merge auto (hebrewDate w) (loaded (disk w)) records = Ok (c, k)
           /\ file (snd (run w)) = Document (JArr c)
           /\ filter isWrite (log (snd (run w))) = [WriteFile c]).
Proof.
  destruct (run_log w) as (fs & ps & ws & L & Hf & Hp & Hw).
  assert (Ef : filter isWrite fs = [])
    by (destruct Hf as [-> | ->]; [reflexivity|];
        apply filter_isWrite_none, fetches_no_write).
  assert (Ep : filter isWrite ps = [])
    by (destruct Hp as [-> | ->]; [reflexivity|];
        apply filter_isWrite_none, requests_no_write).
  rewrite L, !filter_app, Ef, Ep. cbn [app].
  destruct Hw as [[-> Hfile] | (c & auto & v & -> & Hok & Hfile & Hm)].
  - destruct (fst (run w)) as [[]|e].
    + right; left. auto.
    + left. exists e. auto.
  - right; right. split; [exact Hok|].
    apply mergeResult_Ok in Hm as (entries & l & k & He & _ & Hm & _).
    rewrite (existingOf_array _ _ He). now exists auto, c, l, k.
Qed.

(* ================================================================== *)
(** * Part III. Further properties of the pipeline                      *)
(* ================================================================== *)

(** ** The ids after a merge *)

Lemma numberLe_antisym (a b : number) : numberLe a b -> numberLe b a -> a = b.
Proof. destruct a, b; simpl; try tauto. intros. f_equal. lia. Qed.

Lemma mapR_total {A B} (f : A -> result B) (l : list A) :
  Forall (fun x => exists y, f x = Ok y) l -> exists ys, mapR f l = Ok ys.
Proof.
  induction 1 as [|x r (y & Hy) _ (ys & IH)]; [now exists []|].
  exists (y :: ys). cbn [mapR]. now rewrite Hy, IH.
Qed.

Lemma mapR_each {A B} (f : A -> result B) (l : list A) (ys : list B) :
  mapR f l = Ok ys -> Forall (fun x => exists y, f x = Ok y) l.
Proof.
  intros H. apply Forall_forall. intros x Hin.
  destruct (mapR_In f l ys x H Hin) as (y & Hy & _). now exists y.
Qed.

Lemma maxIdOf_readable (c : Corpus) :
  (exists max, maxIdOf c = Ok max)
  <-> Forall (fun e => exists n, idNumber e = Ok n) c.
Proof.
  split.
  - intros (max & H). apply maxIdOf_fold in H as (ns & H & _).
    now apply mapR_each in H.
  - intros H. apply mapR_total in H as (ns & H).
    exists (fold_left Math_max ns (Fin 0)). apply maxIdOf_fold. now exists ns.
Qed.

(** The maximum is the one number at or above zero and every id that
    is zero or an id. *)
Lemma maxIdOf_unique (c : Corpus) (top : number) :
  Forall (fun e => exists n, idNumber e = Ok n) c ->
  numberLe (Fin 0) top ->
  (forall e n, In e c -> idNumber e = Ok n -> numberLe n top) ->
  top = Fin 0 \/ (exists e, In e c /\ idNumber e = Ok top) ->
  maxIdOf c = Ok top.
Proof.
  intros R Hz Hu Ha. apply maxIdOf_readable in R as (max & M).
  rewrite M. f_equal. apply numberLe_antisym.
  - destruct (maxIdOf_attained c max M) as [-> | (e & Hin & He)];
      [exact Hz | now apply (Hu e)].
  - destruct Ha as [-> | (e & Hin & He)]; [now apply maxIdOf_nonneg in M|].
    destruct (maxIdOf_upper c max e M Hin) as (n & Hn & Hle).
    rewrite He in Hn. now injection Hn as <-.
Qed.

Section FreshEntries.

Variable auto : bool.
Variable date : nat -> jsstring.

Lemma entriesOf_idNumbers (chosen : list json) (z : Z) (a : nat) (e : json) :
  (0 <= z)%Z -> (z + Z.of_nat (length chosen) <= two53)%Z ->
  In e (entriesOf auto date (Fin z) a chosen) ->
  exists i, (z < i <= z + Z.of_nat (length chosen))%Z
            /\ Entry.id e = Some (JStr (decimal i))
            /\ idNumber e = Ok (Fin i).
Proof.
  intros Hz Hb Hin.
  assert (Hid : In (Entry.id e) (idsFrom (Fin z) (length chosen)))
    by (rewrite <- (entriesOf_ids auto date chosen (Fin z) a); now apply in_map).
  apply idsFrom_members in Hid as (i & Hi & E); [|lia|lia].
  exists i. split; [exact Hi|]. split; [exact E|].
  apply idNumber_decimal; [lia | exact E].
Qed.

Lemma entriesOf_last (chosen : list json) (z : Z) (a : nat) :
  (0 <= z)%Z -> (z + Z.of_nat (length chosen) <= two53)%Z ->
  chosen <> [] ->
  exists e, In e (entriesOf auto date (Fin z) a chosen)
            /\ idNumber e = Ok (Fin (z + Z.of_nat (length chosen))).
Proof.
  intros Hz Hb Hn.
  assert (Hk : (length chosen - 1 < length chosen)%nat)
    by (destruct chosen; [congruence | cbn; lia]).
  pose proof (idsFrom_nth (length chosen) z (length chosen - 1) Hz Hb Hk) as E.
  rewrite <- (entriesOf_ids auto date chosen (Fin z) a) in E.
  rewrite nth_error_map in E.
  destruct (nth_error (entriesOf auto date (Fin z) a chosen) (length chosen - 1))
    as [e|] eqn:N; [|discriminate].
  exists e. split; [now apply nth_error_In in N|].
  cbn [option_map] in E. injection E as E.
  apply idNumber_decimal; [lia|]. rewrite E. do 3 f_equal. lia.
Qed.

Lemma entriesOf_readable_ids (chosen : list json) :
  forall m a,
    Forall (fun e => exists n, idNumber e = Ok n)
           (entriesOf auto date m a chosen).
Proof.
  induction chosen as [|x r IH]; intros m a; cbn [entriesOf]; constructor.
  - eexists. apply idNumber_newEntry.
  - apply IH.
Qed.

(** Entries whose ids read below 2^53 were numbered below 2^53. *)
Lemma entriesOf_bounded (chosen : list json) :
  forall (z : Z) (a : nat),
    (0 <= z <= two53 - 1)%Z ->
    (forall e n, In e (entriesOf auto date (Fin z) a chosen) ->
                 idNumber e = Ok n -> numberLe n (Fin (two53 - 1))) ->
    (z + Z.of_nat (length chosen) <= two53 - 1)%Z.
Proof.
  induction chosen as [|x r IH]; intros z a Hz Hb; [cbn [length Z.of_nat]; lia|].
  cbn [entriesOf] in Hb.
  rewrite increment_safe in Hb by lia.
  assert (H1 : (z + 1 <= two53 - 1)%Z).
  { specialize (Hb _ (Fin (z + 1)) (or_introl eq_refl)).
    rewrite idNumber_newEntry_safe in Hb by lia.
    specialize (Hb eq_refl). exact Hb. }
  specialize (IH (z + 1)%Z (S a)).
  cbn [length]. rewrite Nat2Z.inj_succ.
  assert ((z + 1 + Z.of_nat (length r) <= two53 - 1)%Z); [|lia].
  apply IH; [lia|]. intros e n Hin. apply Hb. now right.
Qed.

End FreshEntries.

(** The corpus a merge returns has ids that convert to text. *)
Lemma merge_readable_ids (auto : bool) (date : nat -> jsstring)
  (existing : Corpus) (articles : list json) (c' : Corpus) (added : nat) :
  merge auto date existing articles = Ok (c', added) ->
  Forall (fun e => exists n, idNumber e = Ok n) c'.
Proof.
  intros H.
  destruct (merge_inserted _ _ _ _ _ _ H) as (m & chosen & M & _ & _ & _ & ->).
  apply Forall_app. split.
  - apply Forall_rev, entriesOf_readable_ids.
  - apply maxIdOf_readable. now exists m.
Qed.

Lemma merge_maximum (auto : bool) (date : nat -> jsstring)
  (existing : Corpus) (articles : list json) (c' : Corpus) (added : nat)
  (m : Z) :
  merge auto date existing articles = Ok (c', added) ->
  maxIdOf existing = Ok (Fin m) ->
  (m + Z.of_nat added <= two53)%Z ->
  maxIdOf c' = Ok (Fin (m + Z.of_nat added)).
Proof.
  intros H M B.
  pose proof (merge_readable_ids _ _ _ _ _ _ H) as R.
  destruct (merge_inserted _ _ _ _ _ _ H) as (m0 & chosen & M' & _ & _ & Hl & Hc).
  rewrite M in M'. injection M' as <-.
  pose proof (maxIdOf_finite_nonneg _ _ M) as Hm.
  rewrite <- Hl in B |- *.
  apply maxIdOf_unique; [exact R | cbn; lia | |].
  - intros e n Hin Hn. rewrite Hc in Hin.
    apply in_app_or in Hin as [Hin | Hin].
    + apply in_rev in Hin.
      apply entriesOf_idNumbers in Hin as (i & Hi & _ & E); [|lia|lia].
      rewrite E in Hn. injection Hn as <-. cbn. lia.
    + destruct (maxIdOf_upper existing _ e M Hin) as (n' & Hn' & Hle).
      rewrite Hn in Hn'. injection Hn' as <-.
      eapply numberLe_trans; [exact Hle|]. cbn. lia.
  - destruct chosen as [|x r] eqn:Ec.
    + cbn [length Z.of_nat]. rewrite Z.add_0_r.
      destruct (maxIdOf_attained existing _ M) as [E | (e & Hin & E)].
      * left. exact E.
      * right. exists e. split; [|exact E].
        rewrite Hc. apply in_or_app. now right.
    + right.
      destruct (entriesOf_last auto date (x :: r) m 0 Hm B) as (e & Hin & E);
        [discriminate|].
      exists e. split; [|exact E].
      rewrite Hc. apply in_or_app. left. now apply in_rev in Hin.
Qed.

(** Where the ids of the merged corpus read below 2^53, the merge has
    stayed within 2^53. *)
Lemma merge_stays_below (auto : bool) (date : nat -> jsstring)
  (existing : Corpus) (articles : list json) (c' : Corpus) (added : nat) :
  merge auto date existing articles = Ok (c', added) ->
  belowTwo53 c' ->
  exists m, maxIdOf existing = Ok (Fin m)
            /\ (m + Z.of_nat added <= two53 - 1)%Z.
Proof.
  intros H B.
  pose proof (merge_readable_ids _ _ _ _ _ _ H) as R.
  destruct (merge_inserted _ _ _ _ _ _ H) as (m0 & chosen & M & _ & _ & Hl & Hc).
  apply maxIdOf_readable in R as (max' & M').
  specialize (B max' M').
  assert (U : forall e n, In e c' -> idNumber e = Ok n ->
                          numberLe n (Fin (two53 - 1))).
  { intros e n Hin Hn.
    destruct (maxIdOf_upper c' _ e M' Hin) as (n' & Hn' & Hle).
    rewrite Hn in Hn'. injection Hn' as <-.
    eapply numberLe_trans; eauto. }
  assert (Z0 : numberLe m0 (Fin (two53 - 1))).
  { destruct (maxIdOf_attained existing _ M) as [-> | (e & Hin & E)].
    - cbn [numberLe]. unfold two53. lia.
    - apply (U e); [|exact E]. rewrite Hc. apply in_or_app. now right. }
  pose proof (maxIdOf_nonneg _ _ M) as Z1.
  destruct m0 as [z| |]; cbn [numberLe] in Z0, Z1; try tauto.
  exists z. split; [exact M|]. rewrite <- Hl.
  apply (entriesOf_bounded auto date chosen z 0); [lia|].
  intros e n Hin. apply U. rewrite Hc. apply in_or_app. left.
  now apply -> in_rev.
Qed.

(** ** The run as a whole *)

(** X1.  All or nothing, whatever the mode and whatever fails (the
    arguments, a source, the summarizer, a record in the middle of the
    merge loop, the write itself): a run that fails leaves the file as it
    was and has written nothing; a run that ends normally has either
    written nothing and left the file as it was, or written exactly
    once, the corpus a merge of the loaded corpus returned, which is what
    the file then holds. *)
Theorem run_writes_all_or_nothing :
  forall w : World,
    (exists e, fst (run w) = Throw e
               /\ file (snd (run w)) = disk w
               /\ filter isWrite (log (snd (run w))) = [])
    \/ (fst (run w) = Ok tt
        /\ file (snd (run w)) = disk w
        /\ filter isWrite (log (snd (run w))) = [])
    \/ (fst (run w) = Ok tt
        /\ exists auto c records k,
             merge auto (hebrewDate w) (loaded (disk w)) records = Ok (c, k)
             /\ file (snd (run w)) = Document (JArr c)
             /\ filter isWrite (log (snd (run w))) = [WriteFile c]).
Proof. exact run_outcome. Qed.

(** X2.  From one run to the next the corpus on disk keeps its two
    invariants: if no two stored entries share a dedup key before a run,
    none do after it; and if the stored ids are unique before, they are
    unique after, whatever the mode and the outcome of the run, as long
    as the ids on disk after the run still read below 2^53. *)
Theorem run_keeps_corpus_invariants :
  forall w : World,
    (distinctKeys (loaded (disk w)) ->
     distinctKeys (loaded (file (snd (run w)))))
    /\ (NoDup (map Entry.id (loaded (disk w))) ->
        belowTwo53 (loaded (file (snd (run w)))) ->
        NoDup (map Entry.id (loaded (file (snd (run w)))))).
Proof.
  intros w.
  destruct (run_outcome w)
    as [(e & _ & -> & _) | [(_ & -> & _) | (_ & auto & c & l & k & Hm & -> & _)]];
    try (split; intros H; intros; exact H).
  change (loaded (Document (JArr c))) with c.
  split.
  - intros H. exact (merge_distinct auto (hebrewDate w) _ l c k H Hm).
  - intros U B.
    destruct (merge_stays_below _ _ _ _ _ _ Hm B) as (m & M & Hb).
    apply (merge_ids_unique auto (hebrewDate w) _ l c k m Hm M); [lia | exact U].
Qed.

Lemma filterR_kept {A} (cb : A -> result bool) (l kept : list A) :
  filterR cb l = Ok kept -> incl kept l.
Proof.
  revert kept; induction l as [|x r IH]; intros kept H.
  - injection H as <-. apply incl_refl.
  - cbn [filterR] in H. destruct (cb x) as [keep|]; [|discriminate].
    destruct (filterR cb r) as [kept'|]; [|discriminate].
    injection H as <-. specialize (IH kept' eq_refl).
    destruct keep.
    + intros y [<- | Hy]; [now left | right; now apply IH].
    + intros y Hy. right. now apply IH.
Qed.

Lemma filterR_total {A} (cb : A -> result bool) (l : list A) :
  Forall (fun x => exists b, cb x = Ok b) l -> exists kept, filterR cb l = Ok kept.
Proof.
  induction 1 as [|x r (b & Hb) _ (kept & IH)]; [now exists []|].
  cbn [filterR]. rewrite Hb, IH. eexists. reflexivity.
Qed.

(** On a corpus with its keys, the pre-filter goes through candidates
    whose title and link are strings; the listing prints candidates
    whose fields are strings. *)
Lemma freshItems_plain (c : Corpus) (allItems : list Item.t) :
  Forall keyed c -> Forall plainItem allItems ->
  exists kept, freshItems (JArr c) allItems = Ok kept /\ incl kept allItems.
Proof.
  intros K P.
  destruct (filterR_total
              (fun item =>
                 bindR (isDuplicate (JArr c) (Some (Item.link item))
                                    (Some (Item.title item)))
                       (fun duplicate => Ok (negb duplicate))) allItems)
    as (kept & H).
  { eapply Forall_impl; [|exact P].
    intros item (t & s & l & d & -> & _ & -> & _).
    destruct (isDuplicate_keyed c l t K) as (b & -> & _). now eexists. }
  exists kept. split; [exact H | now apply filterR_kept in H].
Qed.

Lemma plain_printable (items : list Item.t) :
  Forall plainItem items -> forEach printable items = Ok tt.
Proof.
  induction 1 as [|item r (t & s & l & d & Ht & Hs & Hl & Hd) _ IH];
    [reflexivity|].
  cbn [forEach]. unfold printable. rewrite Ht, Hs, Hl, Hd. cbn. exact IH.
Qed.

Lemma yields_plain (w : World) :
  (forall s item, In item (yield w s) -> plainItem item) ->
  Forall plainItem (concat (map (yield w) sources)).
Proof.
  intros H. apply Forall_forall. intros item Hin.
  apply in_concat in Hin as (l & Hl & Hin).
  apply in_map_iff in Hl as (s & <- & _). now apply (H s).
Qed.


Lemma sampleCorpus_file_keyed (args : list jsstring) (key : option jsstring)
  (answers : Source -> AdapterResult) (reply : ServiceReply) :
  keyedCorpus (disk (mkWorld args key answers reply sampleClock
                             (Document (JArr sampleCorpus)) true)).
Proof. exists sampleCorpus. split; [reflexivity | exact sampleCorpus_keyed]. Qed.

Lemma twoNewArticles_plain (s : Source) (item : Item.t) :
  In item (match twoNewArticles s with Fetched items => items | Failed _ => [] end) ->
  plainItem item.
Proof.
  destruct s; cbn; try tauto.
  intros [<- | [<- | []]]; do 4 eexists; repeat split; reflexivity.
Qed.


(** X4.  With [--apply] and [--articles=], the run never touches the
    network, [--auto] or not: no adapter is started and no summarization
    request is sent; its only possible event is the one write. *)
Theorem apply_mode_stays_offline :
  forall (w : World) (arg : jsstring),
    applyMode w = true ->
    articlesJson w = Some arg ->
    filter isFetch (log (snd (run w))) = []
    /\ filter isPost (log (snd (run w))) = []
    /\ (log (snd (run w)) = []
        \/ exists c, log (snd (run w)) = [WriteFile c]).
Proof.
  intros w arg Ha Hj. rewrite (run_apply w arg Ha Hj).
  destruct (JSON_parse _) as [v|]; [|repeat split; now left].
  destruct (mergeResult w false (existingOf (disk w)) v) as [c|e];
    cbn [persist snd log app filter isFetch isPost].
  - repeat split. right. now exists c.
  - repeat split. now left.
Qed.

Lemma apply_mode_stays_offline_witness :
  applyMode lostFileWorld = true
  /\ (exists arg, articlesJson lostFileWorld = Some arg)
  /\ filter isFetch (log (snd (run lostFileWorld))) = []
  /\ filter isPost (log (snd (run lostFileWorld))) = [].
Proof.
  split; [reflexivity|]. split; [eexists; reflexivity|].
  destruct (apply_mode_stays_offline lostFileWorld _ eq_refl eq_refl)
    as (Hf & Hp & _).
  split; assumption.
Defined.

(** ** The merge, once more *)

(** Through entries that have their keys, the check reaches a match
    further down. *)
Lemma isDuplicate_behind (new c : Corpus) (u t : jsstring) :
  Forall keyed new ->
  isDuplicate (JArr c) (Some (JStr u)) (Some (JStr t)) = Ok true ->
  isDuplicate (JArr (new ++ c)) (Some (JStr u)) (Some (JStr t)) = Ok true.
Proof.
  rewrite !isDuplicate_strings. intros K H.
  induction K as [|e r Ke _ IH]; [exact H|].
  cbn [app some].
  destruct (keyed_answers (normalizeUrl u) (normalizeTitle t) e Ke)
    as ([|] & ->); [reflexivity | exact IH].
Qed.

Section MergeAgain.

Variable auto : bool.
Variable date : nat -> jsstring.

(** After the loop, every record it went through is a duplicate of the
    corpus it returned, which is the corpus it started from under new
    entries that have their keys. *)
Lemma mergeLoop_covers (articles : list json) :
  forall (existing : Corpus) (m : number) (a : nat) c' m' a',
    mergeLoop auto date articles existing m a = Ok (c', m', a') ->
    (exists new, c' = new ++ existing /\ Forall keyed new)
    /\ forall article,
         In article articles ->
         isDuplicate (JArr c') (Entry.sourceUrl article) (Entry.title article)
         = Ok true.
Proof.
  induction articles as [|article rest IH]; intros existing m a c' m' a' H.
  - injection H as <- <- <-. split; [now exists [] | intros ? []].
  - rewrite mergeLoop_step in H.
    destruct (isDuplicate (JArr existing) (Entry.sourceUrl article)
                          (Entry.title article)) as [[|]|] eqn:D;
      [| |discriminate].
    + destruct (IH _ _ _ _ _ _ H) as ((new & -> & K) & Hr).
      split; [now exists new|].
      intros x [<- | Hin]; [|exact (Hr x Hin)].
      pose proof D as R. apply answered_readable in R.
      apply readable_fields in R as (u & t & Hu & Ht).
      rewrite Hu, Ht in D |- *. now apply isDuplicate_behind.
    + destruct (IH _ _ _ _ _ _ H) as ((new & -> & K) & Hr).
      pose proof D as R. apply answered_readable in R.
      split.
      * exists (new ++ [newEntry auto (date a) (increment m) article]).
        split; [now rewrite <- app_assoc|].
        apply Forall_app. split; [exact K|].
        constructor; [now apply newEntry_keyed | constructor].
      * intros x [<- | Hin]; [|exact (Hr x Hin)].
        pose proof R as R'. apply readable_fields in R' as (u & t & Hu & Ht).
        rewrite Hu, Ht. apply isDuplicate_behind; [exact K|].
        rewrite isDuplicate_strings. cbn [some].
        destruct (newEntry_keys auto (date a) (increment m) article u t Hu Ht)
          as [Ku Kt].
        assert (S : sameKeys (normalizeUrl u) (normalizeTitle t)
                      (newEntry auto (date a) (increment m) article) = Ok true).
        { apply sameKeys_true. split; [now apply newEntry_keyed | now left]. }
        now rewrite S.
Qed.

Lemma mergeLoop_Ok_readable (articles : list json) :
  forall (existing : Corpus) (m : number) (a : nat) r,
    mergeLoop auto date articles existing m a = Ok r ->
    forallb readable articles = true.
Proof.
  induction articles as [|article rest IH]; intros existing m a r H;
    [reflexivity|].
  rewrite mergeLoop_step in H. cbn [forallb].
  destruct (isDuplicate (JArr existing) (Entry.sourceUrl article)
                        (Entry.title article)) as [[|]|] eqn:D;
    [| |discriminate];
    rewrite (answered_readable _ _ _ D); cbn [andb]; eapply IH; eauto.
Qed.

(** A loop that meets only duplicates changes nothing. *)
Lemma mergeLoop_all_duplicates (articles : list json) (c : Corpus) :
  (forall article,
      In article articles ->
      isDuplicate (JArr c) (Entry.sourceUrl article) (Entry.title article)
      = Ok true) ->
  forall m a, mergeLoop auto date articles c m a = Ok (c, m, a).
Proof.
  induction articles as [|article rest IH]; intros Hd m a; [reflexivity|].
  rewrite mergeLoop_step, (Hd article (or_introl eq_refl)).
  apply IH. intros x Hin. apply Hd. now right.
Qed.

Lemma mergeLoop_unreadable (articles : list json) :
  forallb readable articles = false ->
  forall (existing : Corpus) (m : number) (a : nat),
    mergeLoop auto date articles existing m a = Throw TypeError.
Proof.
  intros Hr existing m a.
  destruct (mergeLoop auto date articles existing m a) as [r|e] eqn:E.
  - apply mergeLoop_Ok_readable in E. congruence.
  - now rewrite (mergeLoop_fails _ _ _ _ _ _ _ E).
Qed.

End MergeAgain.

Lemma merge_twice (auto : bool) (date : nat -> jsstring) (existing : Corpus)
  (articles : list json) (corpus' : Corpus) (added : nat) :
  merge auto date existing articles = Ok (corpus', added) ->
  forall (auto' : bool) (date' : nat -> jsstring),
    merge auto' date' corpus' articles = Ok (corpus', 0%nat).
Proof.
  intros H auto' date'.
  pose proof (merge_readable_ids _ _ _ _ _ _ H) as R.
  apply maxIdOf_readable in R as (max' & M').
  apply merge_Ok in H as (m & m' & _ & H).
  destruct (mergeLoop_covers _ _ _ _ _ _ _ _ _ H) as (_ & Hd).
  unfold merge. rewrite M'.
  now rewrite (mergeLoop_all_duplicates auto' date' _ _ Hd).
Qed.

(** X5.  The merge is idempotent: merging again the articles of a merge
    that succeeded, in either mode and at any later date, inserts
    nothing and returns the corpus unchanged. *)
Theorem merge_is_idempotent :
  forall (auto : bool) (date : nat -> jsstring) (existing : Corpus)
         (articles : list json) (corpus' : Corpus) (added : nat),
    merge auto date existing articles = Ok (corpus', added) ->
    forall (auto' : bool) (date' : nat -> jsstring),
      merge auto' date' corpus' articles = Ok (corpus', 0%nat).
Proof. exact merge_twice. Qed.

(** Merging the sample articles a second time adds nothing. *)
Lemma merge_is_idempotent_witness :
  merge false sampleClock sampleCorpus sampleArticles = Ok (sampleMerged, 2%nat)
  /\ merge true sampleClock sampleMerged sampleArticles = Ok (sampleMerged, 0%nat).
Proof.
  split; [exact sample_merge|].
  exact (merge_is_idempotent false sampleClock sampleCorpus sampleArticles
           sampleMerged 2 sample_merge true sampleClock).
Defined.

(** X6.  In apply mode with an array of records, one record that is
    [null] or whose [sourceUrl] or [title] is not a string, wherever it
    stands in the array, aborts the run with a TypeError before anything
    is written, the records before it included; so does a corpus file
    that parses to something else than an array.  When every record can
    be read, the corpus is an array (or cannot be read at all) whose
    entries have their keys and ids that convert to text, and the file
    can be written, the run succeeds. *)
Theorem apply_needs_every_record_readable :
  forall (w : World) (arg : jsstring) (records : list json),
    applyMode w = true ->
    articlesJson w = Some arg ->
    JSON_parse (skipn (length (js "--articles=")) arg) = Some (JArr records) ->
    (forallb readable records = false ->
     run w = (Throw TypeError, mkState (disk w) []))
    /\ ((forall c, existingOf (disk w) <> JArr c) ->
        run w = (Throw TypeError, mkState (disk w) []))
    /\ (forallb readable records = true ->
        keyedCorpus (disk w) -> numberedCorpus (disk w) ->
        diskWritable w = true ->
        fst (run w) = Ok tt
        /\ exists c, log (snd (run w)) = [WriteFile c]).
Proof.
  intros w arg records Ha Hj Hp. rewrite (run_apply w arg Ha Hj), Hp.
  split; [|split].
  - intros Hr.
    destruct (mergeResult w false (existingOf (disk w)) (JArr records))
      as [c|e] eqn:E.
    + apply mergeResult_Ok in E as (entries & l & k & _ & Hi & Hm & _).
      injection Hi as <-. apply merge_Ok in Hm as (m & m' & _ & Hm).
      apply mergeLoop_Ok_readable in Hm. congruence.
    + cbn [persist].
      destruct (mergeResult_Throw _ _ _ _ _ E) as [-> | [-> Hw]];
        [reflexivity|].
      exfalso. revert E. unfold mergeResult.
      destruct (existingOf (disk w)) as [| | | |entries|];
        cbn [asArray bindR iterate]; try discriminate.
      unfold merge. destruct (maxIdOf entries) as [m|e0] eqn:M0.
      * now rewrite mergeLoop_unreadable.
      * apply reduceMax_Throw in M0 as ->. discriminate.
  - intros Hn. unfold mergeResult.
    destruct (existingOf (disk w)) as [| | | |c|]; try reflexivity.
    now destruct (Hn c).
  - intros Hr (c & Hc & K) (max & M) Hw.
    rewrite (existingOf_array _ _ Hc) in M.
    assert (R : Forall (fun article => readable article = true) records)
      by (apply Forall_forall; now apply forallb_forall).
    destruct (merge_total false (hebrewDate w) c records max R K M)
      as (c' & k & Hm).
    unfold mergeResult. rewrite Hc. cbn [asArray iterate bindR].
    rewrite Hm. cbn [bindR fst]. rewrite Hw. cbn.
    split; [reflexivity | now exists c'].
Qed.

(** The first record of the sample can be read, the second cannot: the
    run stops with a TypeError and the first record is not stored. *)
Lemma apply_needs_every_record_readable_witness :
  run halfReadableWorld
  = (Throw TypeError, mkState (Document (JArr sampleCorpus)) []).
Proof.
  refine (proj1 (apply_needs_every_record_readable halfReadableWorld
                   (jsq "--articles=[{'title':'Walk more','sourceUrl':'https://example.com/walk'},{'title':'No link'}]")
                   halfReadableRecords _ _ _) _);
    vm_compute; reflexivity.
Defined.

(** A corpus file that holds an object, not an array. *)
Example apply_on_a_corpus_that_is_no_array :
  run (mkWorld [js "--apply"; jsq "--articles=[]"] None nothingNew Unreachable
               sampleClock (Document (JObj [(js "articles", JArr [])])) true)
  = (Throw TypeError, mkState (Document (JObj [(js "articles", JArr [])])) []).
Proof. vm_compute. reflexivity. Qed.

(** X7.  The running maximum survives the file: after a merge that
    inserted [added] entries, the greatest id read back from the new
    corpus is the old maximum plus [added], as long as that stays within
    2^53, so the next run continues the numbering where this one
    stopped. *)
Theorem merge_advances_the_maximum :
  forall (auto : bool) (date : nat -> jsstring) (existing : Corpus)
         (articles : list json) (corpus' : Corpus) (added : nat) (max : Z),
    merge auto date existing articles = Ok (corpus', added) ->
    maxIdOf existing = Ok (Fin max) ->
    (max + Z.of_nat added <= two53)%Z ->
    maxIdOf corpus' = Ok (Fin (max + Z.of_nat added)).
Proof.
  intros auto date existing articles corpus' added max H M B.
  exact (merge_maximum auto date existing articles corpus' added max H M B).
Qed.

Lemma merge_advances_the_maximum_witness :
  merge false sampleClock sampleCorpus sampleArticles = Ok (sampleMerged, 2%nat)
  /\ maxIdOf sampleCorpus = Ok (Fin 7)
  /\ maxIdOf sampleMerged = Ok (Fin 9).
Proof.
  split; [exact sample_merge|]. split; [exact sample_max|].
  apply (merge_advances_the_maximum false sampleClock sampleCorpus
           sampleArticles sampleMerged 2 7 sample_merge sample_max).
  vm_compute. discriminate.
Defined.

(** ** The pattern of the summarizer, in full *)

Lemma greedyThrough_none_inv (close : N) (s : jsstring) :
  greedyThrough close s = None ->
  forallb (fun c => negb (c =? close)) s = true.
Proof.
  induction s as [|c r IH]; simpl; [reflexivity|].
  destruct (greedyThrough close r); [discriminate|].
  destruct (c =? close); [discriminate|]. intros _. now rewrite IH.
Qed.

Lemma greedyThrough_Some (close : N) (s m : jsstring) :
  greedyThrough close s = Some m ->
  exists body post,
    m = body ++ [close] /\ s = body ++ close :: post
    /\ forallb (fun c => negb (c =? close)) post = true.
Proof.
  revert m; induction s as [|c r IH]; intros m; simpl; [discriminate|].
  destruct (greedyThrough close r) as [m'|] eqn:G.
  - intros H. injection H as <-.
    destruct (IH m' eq_refl) as (body & post & -> & -> & Hp).
    now exists (c :: body), post.
  - destruct (c =? close) eqn:E; [|discriminate].
    intros H. injection H as <-. apply N.eqb_eq in E. subst c.
    exists [], r. repeat split. now apply greedyThrough_none_inv.
Qed.

Lemma greedyThrough_found (close : N) (body post : jsstring) :
  greedyThrough close (body ++ close :: post) <> None.
Proof.
  intros H. apply greedyThrough_none_inv in H.
  rewrite forallb_app in H. simpl in H. rewrite N.eqb_refl in H.
  simpl in H. now rewrite andb_false_r in H.
Qed.

Lemma matchArray_Some (s m : jsstring) :
  matchArray s = Some m ->
  exists pre inner post,
    s = pre ++ m ++ post /\ m = 91 :: inner ++ [93]
    /\ forallb (fun c => negb (isOpenBracket c)) pre = true
    /\ forallb (fun c => negb (isCloseBracket c)) post = true.
Proof.
  induction s as [|c r IH]; simpl; [discriminate|].
  destruct (c =? 91) eqn:E.
  - apply N.eqb_eq in E. subst c.
    destruct (greedyThrough 93 r) as [m'|] eqn:G.
    + intros H. injection H as <-.
      apply greedyThrough_Some in G as (body & post & -> & -> & Hp).
      exists [], body, post. simpl. rewrite <- app_assoc. auto.
    + intros H. destruct (IH H) as (pre & inner & post & -> & -> & _).
      exfalso. revert G.
      replace (pre ++ (91 :: inner ++ [93]) ++ post)
        with ((pre ++ 91 :: inner) ++ 93 :: post)
        by (rewrite <- !app_assoc; simpl; now rewrite <- app_assoc).
      apply greedyThrough_found.
  - intros H. destruct (IH H) as (pre & inner & post & -> & -> & Hpre & Hpost).
    exists (c :: pre), inner, post. simpl. unfold isOpenBracket at 1.
    rewrite E. auto.
Qed.

Lemma matchArray_None (a b c : jsstring) :
  matchArray (a ++ 91 :: b ++ 93 :: c) <> None.
Proof.
  induction a as [|x a IH]; simpl.
  - destruct (greedyThrough 93 (b ++ 93 :: c)) eqn:G; [discriminate|].
    now apply greedyThrough_found in G.
  - destruct (x =? 91); [|exact IH].
    destruct (greedyThrough 93 (a ++ 91 :: b ++ 93 :: c)); [discriminate|].
    exact IH.
Qed.

(** X8.  What [text.match(/\[[\s\S]*\]/)] returns, for every text: when
    an opening bracket has a closing bracket somewhere after it, the
    substring from the first opening bracket of the text to its last
    closing bracket; otherwise no match.  So nested arrays stay whole,
    and a second array or any bracket in the prose around the first one
    is swallowed into the match. *)
Theorem matchArray_spans_first_open_to_last_close :
  forall s : jsstring,
    match matchArray s with
    | Some m =>
        exists pre inner post,
          s = pre ++ m ++ post /\ m = js "[" ++ inner ++ js "]"
          /\ forallb (fun c => negb (isOpenBracket c)) pre = true
          /\ forallb (fun c => negb (isCloseBracket c)) post = true
    | None =>
        forall a b c, s <> a ++ js "[" ++ b ++ js "]" ++ c
    end.
Proof.
  intros s. destruct (matchArray s) as [m|] eqn:E.
  - exact (matchArray_Some s m E).
  - intros a b c ->. exact (matchArray_None a b c E).
Qed.

(* ================================================================== *)
(** * Part IV. The source adapters                                     *)
(* ================================================================== *)

(** ** Prefixes *)

Lemma startsWith_true_iff (p s : jsstring) :
  startsWith p s = true <-> exists r, s = p ++ r.
Proof.
  unfold startsWith. rewrite streq_true_iff. split.
  - intros H. exists (skipn (length p) s).
    rewrite H at 1. apply eq_sym, firstn_skipn.
  - intros (r & ->). rewrite firstn_app, Nat.sub_diag, firstn_all.
    simpl. now rewrite app_nil_r.
Qed.

Lemma startsWith_app (p r : jsstring) : startsWith p (p ++ r) = true.
Proof. apply startsWith_true_iff. now exists r. Qed.

Lemma skipn_exact {A} (p r : list A) : skipn (length p) (p ++ r) = r.
Proof. induction p; simpl; auto. Qed.

(** Only the first [length p] units of the text are looked at. *)
Lemma startsWith_long (p x more : jsstring) :
  (length p <= length x)%nat -> startsWith p (x ++ more) = startsWith p x.
Proof.
  intros H. unfold startsWith. rewrite firstn_app.
  replace (length p - length x)%nat with 0%nat by lia.
  simpl. now rewrite app_nil_r.
Qed.

Lemma clearOf_cons (lit f more : jsstring) (c : N) :
  clearOf lit (c :: f) = true ->
  startsWith lit ((c :: f) ++ lit ++ more) = false /\ clearOf lit f = true.
Proof.
  cbn [clearOf]. intros H. apply andb_true_iff in H as [H1 H2].
  split; [|exact H2]. apply negb_true_iff in H1.
  rewrite app_assoc, startsWith_long; [exact H1|].
  rewrite length_app. simpl. lia.
Qed.

Lemma absent_cons (lit s : jsstring) (c : N) :
  absent lit (c :: s) = true ->
  startsWith lit (c :: s) = false /\ absent lit s = true.
Proof.
  cbn [absent]. intros H. apply andb_true_iff in H as [H1 H2].
  now apply negb_true_iff in H1.
Qed.

Lemma absent_here (lit s : jsstring) :
  absent lit s = true -> startsWith lit s = false.
Proof.
  destruct s; cbn [absent]; intros H; apply andb_true_iff in H as [H1 _];
    now apply negb_true_iff in H1.
Qed.

(** ** The pattern matcher *)

Lemma lazyAny_eq {A} (k : jsstring -> jsstring -> option A)
  (taken s : jsstring) :
  lazyAny k taken s
  = match k (rev taken) s with
    | Some r => Some r
    | None =>
        match s with
        | [] => None
        | c :: r => lazyAny k (c :: taken) r
        end
    end.
Proof. destruct s; reflexivity. Qed.

Lemma exec_eq (p : list token) (s : jsstring) :
  exec p s
  = match matchHere p s with
    | Some r => Some r
    | None =>
        match s with
        | [] => None
        | _ :: r => exec p r
        end
    end.
Proof. destruct s; reflexivity. Qed.

(** What a lazy wildcard returns was returned by the rest of the
    pattern, after some prefix of the text. *)
Lemma lazyAny_Some {A} (k : jsstring -> jsstring -> option A)
  (s : jsstring) :
  forall (taken : jsstring) (r : A),
    lazyAny k taken s = Some r ->
    exists a b, s = a ++ b /\ k (rev taken ++ a) b = Some r.
Proof.
  induction s as [|c s IH]; intros taken r; rewrite lazyAny_eq.
  - destruct (k (rev taken) []) eqn:K; [|discriminate].
    intros H. injection H as <-. exists [], [].
    split; [reflexivity | now rewrite app_nil_r].
  - destruct (k (rev taken) (c :: s)) eqn:K.
    + intros H. injection H as <-. exists [], (c :: s).
      split; [reflexivity | now rewrite app_nil_r].
    + intros H. apply IH in H as (a & b & -> & H). exists (c :: a), b.
      split; [reflexivity|]. simpl in H. now rewrite <- app_assoc in H.
Qed.

(** A lazy wildcard in front of a literal stops where the literal first
    starts, when the rest of the pattern matches from there. *)
Lemma matchHere_lazy_lit (captured : bool) (lit : jsstring) (p : list token)
  (f more : jsstring) (caps : list jsstring) (after : jsstring) :
  clearOf lit f = true ->
  matchHere p more = Some (caps, after) ->
  matchHere (Lazy captured :: Lit lit :: p) (f ++ lit ++ more)
  = Some (if captured then f :: caps else caps, after).
Proof.
  intros Hf Hm. cbn [matchHere].
  set (k := fun taken rest => _).
  enough (G : forall taken,
             lazyAny k taken (f ++ lit ++ more)
             = Some (if captured then (rev taken ++ f) :: caps else caps, after))
    by exact (G []).
  induction f as [|c f IH]; intros taken; rewrite lazyAny_eq.
  - subst k. cbn beta. change ([] ++ lit ++ more) with (lit ++ more).
    rewrite startsWith_app, skipn_exact, Hm. now rewrite app_nil_r.
  - apply (clearOf_cons lit f more c) in Hf as [H1 H2].
    unfold k at 1. cbn beta. rewrite H1.
    change ((c :: f) ++ lit ++ more) with (c :: (f ++ lit ++ more)).
    cbn iota. rewrite (IH H2 (c :: taken)). simpl. now rewrite <- app_assoc.
Qed.

Lemma matchHere_lit (lit : jsstring) (p : list token) (more : jsstring) :
  matchHere (Lit lit :: p) (lit ++ more) = matchHere p more.
Proof. cbn [matchHere]. now rewrite startsWith_app, skipn_exact. Qed.

(** The search passes a stretch in which the first literal of the
    pattern does not start. *)
Lemma exec_gap (lit : jsstring) (p : list token) (gap more : jsstring)
  (r : list jsstring * jsstring) :
  clearOf lit gap = true ->
  matchHere (Lit lit :: p) (lit ++ more) = Some r ->
  exec (Lit lit :: p) (gap ++ lit ++ more) = Some r.
Proof.
  intros Hg Hm. induction gap as [|c g IH]; rewrite exec_eq.
  - simpl app. now rewrite Hm.
  - apply (clearOf_cons lit g more c) in Hg as [H1 H2].
    cbn [matchHere]. rewrite H1.
    change ((c :: g) ++ lit ++ more) with (c :: (g ++ lit ++ more)).
    cbn iota. now apply IH.
Qed.

Lemma exec_absent (lit : jsstring) (p : list token) (s : jsstring) :
  absent lit s = true -> exec (Lit lit :: p) s = None.
Proof.
  induction s as [|c s IH]; intros H; rewrite exec_eq; cbn [matchHere].
  - now rewrite (absent_here _ _ H).
  - apply absent_cons in H as [H1 H2]. rewrite H1. now apply IH.
Qed.

(** A match takes at least the literals of the pattern. *)
Lemma matchHere_shrinks (p : list token) :
  forall (s : jsstring) (caps : list jsstring) (rest : jsstring),
    matchHere p s = Some (caps, rest) ->
    (length rest + litLength p <= length s)%nat.
Proof.
  induction p as [|[lit|captured] p IH]; intros s caps rest; cbn [matchHere litLength].
  - intros H. injection H as _ <-. lia.
  - destruct (startsWith lit s) eqn:E; [|discriminate].
    apply startsWith_true_iff in E as (r & ->). rewrite skipn_exact.
    intros H. apply IH in H. rewrite length_app. lia.
  - intros H. apply lazyAny_Some in H as (a & b & -> & H).
    destruct (matchHere p b) as [[caps' after]|] eqn:M; [|discriminate].
    injection H as _ <-. apply IH in M. rewrite length_app. lia.
Qed.

Lemma exec_shrinks (p : list token) (s : jsstring) :
  forall (caps : list jsstring) (rest : jsstring),
    exec p s = Some (caps, rest) ->
    (length rest + litLength p <= length s)%nat.
Proof.
  induction s as [|c s IH]; intros caps rest; rewrite exec_eq.
  - destruct (matchHere p []) as [r|] eqn:M; [|discriminate].
    intros H. injection H as ->. now apply matchHere_shrinks in M.
  - destruct (matchHere p (c :: s)) as [r|] eqn:M.
    + intros H. injection H as ->. now apply matchHere_shrinks in M.
    + intros H. apply IH in H. simpl. lia.
Qed.

(** ** The loop of [parseRSSItems] *)

Lemma itemPattern_literals : (0 < litLength itemPattern)%nat.
Proof. vm_compute. lia. Qed.

Lemma rssLoop_enough_fuel (n : nat) :
  forall xml : jsstring,
    (length xml <= n)%nat -> exists items, rssLoop n xml = Some items.
Proof.
  induction n as [|n IH]; intros xml Hn.
  - destruct xml; [|simpl in Hn; lia]. now exists [].
  - cbn [rssLoop]. destruct (exec itemPattern xml) as [[caps rest]|] eqn:E.
    + apply exec_shrinks in E. pose proof itemPattern_literals.
      destruct (IH rest) as (items & ->); [lia|]. eauto.
    + now exists [].
Qed.

Lemma rssLoop_more_fuel (n : nat) :
  forall (xml : jsstring) (items : list Rss.t) (m : nat),
    rssLoop n xml = Some items -> (n <= m)%nat -> rssLoop m xml = Some items.
Proof.
  induction n as [|n IH]; intros xml items m H Hm.
  - destruct m; [exact H|]. simpl in H. cbn [rssLoop].
    destruct (exec itemPattern xml) as [[caps rest]|]; [discriminate|exact H].
  - destruct m as [|m]; [lia|]. cbn [rssLoop] in *.
    destruct (exec itemPattern xml) as [[caps rest]|]; [|exact H].
    destruct (rssLoop n rest) as [l|] eqn:R; [|discriminate].
    now rewrite (IH rest l m R) by lia.
Qed.

(** The loop, without its fuel. *)
Lemma parseRSSItems_eq (xml : jsstring) :
  parseRSSItems xml
  = match exec itemPattern xml with
    | Some (caps, rest) => rssItem caps :: parseRSSItems rest
    | None => []
    end.
Proof.
  unfold parseRSSItems.
  destruct (exec itemPattern xml) as [[caps rest]|] eqn:E.
  - pose proof (exec_shrinks _ _ _ _ E) as Hs.
    pose proof itemPattern_literals as Hl.
    destruct (length xml) as [|n] eqn:L; [lia|].
    cbn [rssLoop]. rewrite E.
    destruct (rssLoop_enough_fuel (length rest) rest (le_n _)) as (items & R).
    rewrite R. rewrite (rssLoop_more_fuel _ _ _ n R) by lia. reflexivity.
  - destruct (length xml); cbn [rssLoop]; now rewrite E.
Qed.

(** The match of the pattern on a well-formed block. *)
Lemma exec_render (b : Block.t) (rest : jsstring) :
  wellFormed b = true ->
  exec itemPattern (render b ++ rest)
  = Some ([Block.title b; Block.link b; Block.pubDate b], rest).
Proof.
  unfold wellFormed. rewrite !andb_true_iff.
  intros [[[[[[[H1 H2] H3] H4] H5] H6] H7] H8].
  unfold render, itemPattern. rewrite <- !app_assoc.
  apply exec_gap; [exact H1|]. rewrite matchHere_lit.
  rewrite (matchHere_lazy_lit false _ _ _ _
             [Block.title b; Block.link b; Block.pubDate b] rest H2);
    [reflexivity|].
  rewrite (matchHere_lazy_lit true _ _ _ _
             [Block.link b; Block.pubDate b] rest H3); [reflexivity|].
  rewrite (matchHere_lazy_lit false _ _ _ _
             [Block.link b; Block.pubDate b] rest H4); [reflexivity|].
  rewrite (matchHere_lazy_lit true _ _ _ _ [Block.pubDate b] rest H5);
    [reflexivity|].
  rewrite (matchHere_lazy_lit false _ _ _ _ [Block.pubDate b] rest H6);
    [reflexivity|].
  rewrite (matchHere_lazy_lit true _ _ _ _ [] rest H7); [reflexivity|].
  now rewrite (matchHere_lazy_lit false _ _ _ _ [] rest H8).
Qed.

Lemma feed_cons (b : Block.t) (blocks : list Block.t) (tail : jsstring) :
  feed (b :: blocks) tail = render b ++ feed blocks tail.
Proof. unfold feed. simpl. now rewrite <- app_assoc. Qed.

Lemma parseRSSItems_feed (blocks : list Block.t) (tail : jsstring) :
  forallb wellFormed blocks = true ->
  absent (js "<item>") tail = true ->
  parseRSSItems (feed blocks tail) = map itemOf blocks.
Proof.
  intros Hb Ht. induction blocks as [|b blocks IH].
  - rewrite parseRSSItems_eq. unfold feed, itemPattern. simpl app.
    now rewrite exec_absent.
  - cbn [forallb] in Hb. apply andb_true_iff in Hb as [Hw Hb].
    rewrite feed_cons, parseRSSItems_eq, (exec_render b _ Hw), (IH Hb).
    reflexivity.
Qed.

(** X9.  A feed read back: when in every item each stretch ends where
    its closing tag first starts, and no item starts after the last
    one, the parser returns one entry per item, in feed order, with the
    title trimmed, freed of CDATA markers and trimmed again, and the
    link and the date trimmed. *)
Theorem parseRSSItems_reads_a_feed_back :
  forall (blocks : list Block.t) (tail : jsstring),
    forallb wellFormed blocks = true ->
    absent (js "<item>") tail = true ->
    parseRSSItems (feed blocks tail) = map itemOf blocks.
Proof.
  intros blocks tail Hb Ht. induction blocks as [|b blocks IH].
  - rewrite parseRSSItems_eq. unfold feed, itemPattern. simpl app.
    now rewrite exec_absent.
  - cbn [forallb] in Hb. apply andb_true_iff in Hb as [Hw Hb].
    rewrite feed_cons, parseRSSItems_eq, (exec_render b _ Hw), (IH Hb).
    reflexivity.
Qed.

Lemma parseRSSItems_reads_a_feed_back_witness :
  parseRSSItems sampleFeed
  = [Rss.mk (js "Walking adds years - The Daily") (js "https://example.com/walk")
            (js "Mon, 02 Nov 2026");
     Rss.mk (js "Sleep and aging - a review - Health Weekly")
            (js "https://example.com/sleep") (js "Sun, 01 Nov 2026");
     Rss.mk (js "Old news") (js "https://example.com/old")
            (js "Sat, 31 Oct 2026")].
Proof.
  exact (parseRSSItems_reads_a_feed_back sampleBlocks sampleTail
           eq_refl eq_refl).
Defined.

Lemma render_fused (b1 b2 : Block.t) :
  render (fused b1 b2) = renderUndated b1 ++ render b2.
Proof.
  unfold render, renderUndated, fused. cbn [Block.gap Block.lead Block.title
    Block.afterTitle Block.link Block.afterLink Block.pubDate Block.trail].
  now rewrite <- !app_assoc.
Qed.

(** X10.  An item without a [pubDate] element is not skipped: the match
    runs on into the next item, whose date it takes and whose title and
    link are lost.  Two items come back as one. *)
Theorem undated_item_swallows_the_next :
  forall (b1 b2 : Block.t) (blocks : list Block.t) (tail : jsstring),
    wellFormed (fused b1 b2) = true ->
    forallb wellFormed blocks = true ->
    absent (js "<item>") tail = true ->
    parseRSSItems (renderUndated b1 ++ render b2 ++ feed blocks tail)
    = Rss.mk (Rss.title (itemOf b1)) (Rss.link (itemOf b1))
             (trim (Block.pubDate b2))
      :: map itemOf blocks.
Proof.
  intros b1 b2 blocks tail Hf Hb Ht.
  rewrite app_assoc, <- render_fused, parseRSSItems_eq, (exec_render _ _ Hf).
  now rewrite (parseRSSItems_feed blocks tail Hb Ht).
Qed.

Lemma undated_item_swallows_the_next_witness :
  parseRSSItems
    (renderUndated (sampleBlock [] (js "Walking adds years")
                      (js "https://example.com/walk") [])
     ++ render (sampleBlock [] (js "Sleep and aging")
                  (js "https://example.com/sleep") (js "Sun, 01 Nov 2026"))
     ++ feed [] sampleTail)
  = [Rss.mk (js "Walking adds years") (js "https://example.com/walk")
            (js "Sun, 01 Nov 2026")].
Proof.
  exact (undated_item_swallows_the_next
           (sampleBlock [] (js "Walking adds years")
              (js "https://example.com/walk") [])
           (sampleBlock [] (js "Sleep and aging")
              (js "https://example.com/sleep") (js "Sun, 01 Nov 2026"))
           [] sampleTail eq_refl eq_refl eq_refl).
Defined.

(** ** Trimming *)

Lemma trimStart_fixed (s : jsstring) :
  firstIs isWhiteSpace s = false -> trimStart s = s.
Proof. destruct s as [|c r]; simpl; [reflexivity|]. now intros ->. Qed.

Lemma firstIs_rev (p : N -> bool) (s : jsstring) :
  firstIs p (rev s) = lastIs p s.
Proof. now rewrite <- (rev_involutive s) at 2; rewrite lastIs_rev. Qed.

Lemma trimEnd_fixed (s : jsstring) :
  lastIs isWhiteSpace s = false -> trimEnd s = s.
Proof.
  intros H. unfold trimEnd. rewrite trimStart_fixed, rev_involutive;
    [reflexivity | now rewrite firstIs_rev].
Qed.

Lemma trim_fixed (s : jsstring) :
  firstIs isWhiteSpace s = false -> lastIs isWhiteSpace s = false ->
  trim s = s.
Proof.
  intros Hf Hl. unfold trim. rewrite (trimStart_fixed s Hf).
  now apply trimEnd_fixed.
Qed.

Lemma trim_idempotent (s : jsstring) : trim (trim s) = trim s.
Proof.
  destruct (trim_spec s) as (a & b & _ & _ & _ & Hf & Hl).
  now apply trim_fixed.
Qed.

Lemma trimStart_space (a s : jsstring) :
  forallb isWhiteSpace a = true -> trimStart (a ++ s) = trimStart s.
Proof.
  induction a as [|c a IH]; simpl; [reflexivity|].
  intros H. apply andb_true_iff in H as [-> H]. now apply IH.
Qed.

(** Trimming removes the white space around a text that neither starts
    nor ends with white space. *)
Lemma trim_padded (a x b : jsstring) :
  forallb isWhiteSpace a = true -> forallb isWhiteSpace b = true ->
  firstIs isWhiteSpace x = false -> lastIs isWhiteSpace x = false ->
  x <> [] ->
  trim (a ++ x ++ b) = x.
Proof.
  intros Ha Hb Hf Hl Hx. unfold trim.
  rewrite (trimStart_space a _ Ha).
  rewrite trimStart_fixed by (destruct x; [congruence | exact Hf]).
  unfold trimEnd. rewrite rev_app_distr, trimStart_space.
  - rewrite trimStart_fixed by now rewrite firstIs_rev.
    apply rev_involutive.
  - rewrite forallb_forall in *. intros c Hc. apply Hb. now apply in_rev.
Qed.

Lemma rssLoop_items (n : nat) :
  forall (xml : jsstring) (items : list Rss.t),
    rssLoop n xml = Some items ->
    Forall (fun item => exists caps, item = rssItem caps) items.
Proof.
  induction n as [|n IH]; intros xml items; cbn [rssLoop];
    destruct (exec itemPattern xml) as [[caps rest]|];
    try discriminate; try (intros H; injection H as <-; constructor).
  destruct (rssLoop n rest) as [l|] eqn:R; [|discriminate].
  intros H. injection H as <-. constructor; [now exists caps | eauto].
Qed.

(** X11.  Whatever the text of the feed, no field of an entry the parser
    returns starts or ends with white space: trimming any of them
    changes nothing. *)
Theorem parseRSSItems_fields_are_trimmed :
  forall xml : jsstring,
    Forall (fun item =>
              trim (Rss.title item) = Rss.title item
              /\ trim (Rss.link item) = Rss.link item
              /\ trim (Rss.pubDate item) = Rss.pubDate item)
           (parseRSSItems xml).
Proof.
  intros xml. unfold parseRSSItems.
  destruct (rssLoop (length xml) xml) as [items|] eqn:R; [|constructor].
  apply rssLoop_items in R. eapply Forall_impl; [|exact R].
  intros item (caps & ->). unfold rssItem. cbn [Rss.title Rss.link Rss.pubDate].
  now rewrite !trim_idempotent.
Qed.

(** ** CDATA sections *)

Lemma removeMarkers_skip (a r : jsstring) :
  removeMarkers (length a) (a ++ r) = removeMarkers 0 r.
Proof. induction a; simpl; auto. Qed.

Lemma stripCdata_open (r : jsstring) : stripCdata (cdataOpen ++ r) = stripCdata r.
Proof.
  unfold stripCdata.
  change (cdataOpen ++ r) with (60 :: (tl cdataOpen ++ r)).
  cbn [removeMarkers].
  change (60 :: (tl cdataOpen ++ r)) with (cdataOpen ++ r).
  rewrite startsWith_app. exact (removeMarkers_skip (tl cdataOpen) r).
Qed.

Lemma stripCdata_body (body : jsstring) :
  unmarked cdataClose body = true -> stripCdata (body ++ cdataClose) = body.
Proof.
  unfold stripCdata. induction body as [|c body IH]; [reflexivity|].
  cbn [unmarked]. rewrite !andb_true_iff, !negb_true_iff.
  intros [[H1 H2] H3].
  change ((c :: body) ++ cdataClose) with (c :: (body ++ cdataClose)) in *.
  cbn [removeMarkers]. rewrite H1, H2. now rewrite (IH H3).
Qed.

(** X12.  A title given as one CDATA section, with white space around
    it, comes back as the trimmed content of the section, provided the
    content holds no CDATA marker of its own. *)
Theorem cdata_title_is_unwrapped :
  forall (before body after link pubDate : jsstring),
    forallb isWhiteSpace before = true ->
    forallb isWhiteSpace after = true ->
    unmarked cdataClose body = true ->
    rssItem [before ++ cdataOpen ++ body ++ cdataClose ++ after; link; pubDate]
    = Rss.mk (trim body) (trim link) (trim pubDate).
Proof.
  intros before body after link pubDate Hb Ha Hu.
  unfold rssItem. cbn [nth]. f_equal. f_equal.
  replace (before ++ cdataOpen ++ body ++ cdataClose ++ after)
    with (before ++ (cdataOpen ++ body ++ cdataClose) ++ after)
    by now rewrite <- !app_assoc.
  rewrite trim_padded; auto.
  - rewrite stripCdata_open. now apply stripCdata_body.
  - rewrite app_assoc. rewrite <- firstIs_rev, rev_app_distr. reflexivity.
  - discriminate.
Qed.

Lemma cdata_title_is_unwrapped_witness :
  rssItem [js " <![CDATA[ Walking [adds] years ]]> "; js "https://example.com/walk";
           js "Mon, 02 Nov 2026"]
  = Rss.mk (js "Walking [adds] years") (js "https://example.com/walk")
           (js "Mon, 02 Nov 2026").
Proof.
  exact (cdata_title_is_unwrapped (js " ") (js " Walking [adds] years ") (js " ")
           (js "https://example.com/walk") (js "Mon, 02 Nov 2026")
           eq_refl eq_refl eq_refl).
Defined.

(** ** Titles of Google News *)

Lemma splitFrom_skip (sep a : jsstring) :
  forall cur r, splitFrom sep (length a) cur (a ++ r) = splitFrom sep 0 cur r.
Proof. induction a; simpl; auto. Qed.

Lemma splitFrom_absent (sep l : jsstring) :
  absent sep l = true ->
  forall cur, splitFrom sep 0 cur l = [rev cur ++ l].
Proof.
  induction l as [|c l IH]; intros H cur.
  - simpl. now rewrite app_nil_r.
  - apply absent_cons in H as [H1 H2]. cbn [splitFrom]. rewrite H1.
    rewrite (IH H2). simpl. now rewrite <- app_assoc.
Qed.

Lemma splitFrom_part (x : N) (sep' p rest : jsstring) :
  clearOf (x :: sep') p = true ->
  forall cur,
    splitFrom (x :: sep') 0 cur (p ++ (x :: sep') ++ rest)
    = (rev cur ++ p) :: splitFrom (x :: sep') 0 [] rest.
Proof.
  induction p as [|c p IH]; intros H cur.
  - change ([] ++ (x :: sep') ++ rest) with (x :: (sep' ++ rest)).
    cbn [splitFrom].
    change (x :: (sep' ++ rest)) with ((x :: sep') ++ rest).
    rewrite startsWith_app, app_nil_r. f_equal.
    cbn [length]. rewrite Nat.sub_succ, Nat.sub_0_r. apply splitFrom_skip.
  - apply (clearOf_cons _ p rest c) in H as [H1 H2].
    change ((c :: p) ++ (x :: sep') ++ rest)
      with (c :: (p ++ (x :: sep') ++ rest)) in *.
    cbn [splitFrom]. rewrite H1, (IH H2). simpl. now rewrite <- app_assoc.
Qed.

Lemma join_cons (sep p : jsstring) (rest : list jsstring) :
  rest <> [] -> join sep (p :: rest) = p ++ sep ++ join sep rest.
Proof. destruct rest; [congruence | reflexivity]. Qed.

(** Splitting undoes joining, when the separator starts inside no part
    and does not occur in the last one. *)
Lemma split_join (x : N) (sep' : jsstring) (parts : list jsstring)
  (l : jsstring) :
  forallb (clearOf (x :: sep')) parts = true ->
  absent (x :: sep') l = true ->
  split (x :: sep') (join (x :: sep') (parts ++ [l])) = parts ++ [l].
Proof.
  intros Hp Hl. unfold split. induction parts as [|p parts IH].
  - simpl. now rewrite splitFrom_absent.
  - cbn [forallb] in Hp. apply andb_true_iff in Hp as [H1 H2].
    change ((p :: parts) ++ [l]) with (p :: (parts ++ [l])).
    rewrite join_cons by (now destruct parts).
    rewrite (splitFrom_part x sep' p _ H1). simpl rev. simpl app at 1.
    now rewrite (IH H2).
Qed.

(** X13.  How [fetchGoogleNews] reads a title: written as parts joined
    by [" - "], the last part is the publisher and the parts before it,
    joined again, are the title, both trimmed.  A title without the
    separator is kept whole under the publisher "Google News"; so is a
    title whose text before the publisher is empty, while its publisher
    is still taken. *)
Theorem google_title_gives_headline_and_publisher :
  forall (item : Rss.t) (parts : list jsstring) (publisher : jsstring),
    Rss.title item = join dash (parts ++ [publisher]) ->
    forallb (clearOf dash) parts = true ->
    absent dash publisher = true ->
    googleItem item
    = Item.mk (trim (match join dash parts with
                     | [] => Rss.title item
                     | headline => headline
                     end))
              (trim (match parts with
                     | [] => js "Google News"
                     | _ => publisher
                     end))
              (Rss.link item) (Rss.pubDate item) (js "google-news").
Proof.
  intros item parts publisher Ht Hp Hl. unfold googleItem.
  rewrite Ht. change dash with (32 :: js "- ") in *.
  rewrite (split_join 32 (js "- ") parts publisher Hp Hl).
  rewrite removelast_last, last_last, length_app.
  destruct parts as [|p parts]; [reflexivity|].
  replace (1 <? length (p :: parts) + length [publisher])%nat with true
    by (symmetry; apply Nat.ltb_lt; simpl; lia).
  cbv zeta. now destruct (join (32 :: js "- ") (p :: parts)).
Qed.

Lemma google_title_gives_headline_and_publisher_witness :
  googleItem (Rss.mk (js "Sleep and aging - a review - Health Weekly")
                     (js "https://example.com/sleep") (js "Sun, 01 Nov 2026"))
  = Item.mk (js "Sleep and aging - a review") (js "Health Weekly")
            (js "https://example.com/sleep") (js "Sun, 01 Nov 2026")
            (js "google-news").
Proof.
  exact (google_title_gives_headline_and_publisher
           (Rss.mk (js "Sleep and aging - a review - Health Weekly")
                   (js "https://example.com/sleep") (js "Sun, 01 Nov 2026"))
           [js "Sleep and aging"; js "a review"] (js "Health Weekly")
           eq_refl eq_refl eq_refl).
Defined.

(** ** The three feed adapters *)

(** X14.  On a well-formed feed answered with success, each feed
    adapter returns the first [MAX_PER_SOURCE] items of the feed, in
    feed order, under its own source label; Google News items carry the
    publisher read from their title instead. *)
Theorem feed_adapters_return_the_first_two :
  forall (blocks : list Block.t) (tail : jsstring) (status : Z),
    forallb wellFormed blocks = true ->
    absent (js "<item>") tail = true ->
    fetchScienceDaily (Answered true status (feed blocks tail))
    = Fetched (map (fun b => Item.mk (Rss.title (itemOf b)) (js "ScienceDaily")
                                     (Rss.link (itemOf b))
                                     (Rss.pubDate (itemOf b))
                                     (js "sciencedaily"))
                   (firstn 2 blocks))
    /\ fetchMedicalNewsToday (Answered true status (feed blocks tail))
       = Fetched (map (fun b => Item.mk (Rss.title (itemOf b))
                                        (js "Medical News Today")
                                        (Rss.link (itemOf b))
                                        (Rss.pubDate (itemOf b))
                                        (js "medicalnewstoday"))
                      (firstn 2 blocks))
    /\ fetchGoogleNews (Answered true status (feed blocks tail))
       = Fetched (map (fun b => googleItem (itemOf b)) (firstn 2 blocks)).
Proof.
  intros blocks tail status Hb Ht.
  unfold fetchScienceDaily, fetchMedicalNewsToday, fetchGoogleNews.
  cbn [negb]. rewrite (parseRSSItems_feed blocks tail Hb Ht).
  unfold slice0, MAX_PER_SOURCE. rewrite firstn_map, !map_map. auto.
Qed.

Lemma feed_adapters_return_the_first_two_witness :
  fetchScienceDaily (Answered true 200 sampleFeed)
  = Fetched [Item.mk (js "Walking adds years - The Daily") (js "ScienceDaily")
                     (js "https://example.com/walk") (js "Mon, 02 Nov 2026")
                     (js "sciencedaily");
             Item.mk (js "Sleep and aging - a review - Health Weekly")
                     (js "ScienceDaily") (js "https://example.com/sleep")
                     (js "Sun, 01 Nov 2026") (js "sciencedaily")]
  /\ fetchGoogleNews (Answered true 200 sampleFeed)
     = Fetched [Item.mk (js "Walking adds years") (js "The Daily")
                        (js "https://example.com/walk") (js "Mon, 02 Nov 2026")
                        (js "google-news");
                Item.mk (js "Sleep and aging - a review") (js "Health Weekly")
                        (js "https://example.com/sleep")
                        (js "Sun, 01 Nov 2026") (js "google-news")].
Proof.
  pose proof (feed_adapters_return_the_first_two sampleBlocks sampleTail 200
                eq_refl eq_refl) as (Hs & _ & Hg).
  split; [exact Hs | exact Hg].
Defined.

(** ** The two limits together *)

Lemma feed_adapter_bound (fetch : HttpResult -> AdapterResult)
  (res : HttpResult) :
  fetch = fetchGoogleNews \/ fetch = fetchScienceDaily
  \/ fetch = fetchMedicalNewsToday ->
  match fetch res with
  | Fetched items => (length items <= MAX_PER_SOURCE)%nat
  | Failed _ => True
  end.
Proof.
  intros [-> | [-> | ->]]; destruct res as [m | [|] status xml];
    cbn [fetchGoogleNews fetchScienceDaily fetchMedicalNewsToday negb]; auto;
    rewrite length_map; apply firstn_le_length.
Qed.

Lemma yield_withFeeds (w : World) (google science medical : HttpResult)
  (s : Source) :
  (length (yield w PubMed) <= MAX_PER_SOURCE)%nat ->
  (length (yield w OpenAlex) <= MAX_PER_SOURCE)%nat ->
  (length (yield (withFeeds w google science medical) s) <= MAX_PER_SOURCE)%nat.
Proof.
  intros Hp Ho. unfold yield, withFeeds. cbn [adapter].
  destruct s; try assumption.
  - pose proof (feed_adapter_bound fetchGoogleNews google (or_introl eq_refl)).
    destruct (fetchGoogleNews google); simpl; [assumption | unfold MAX_PER_SOURCE; lia].
  - pose proof (feed_adapter_bound fetchScienceDaily science
                  (or_intror (or_introl eq_refl))).
    destruct (fetchScienceDaily science); simpl; [assumption | unfold MAX_PER_SOURCE; lia].
  - pose proof (feed_adapter_bound fetchMedicalNewsToday medical
                  (or_intror (or_intror eq_refl))).
    destruct (fetchMedicalNewsToday medical); simpl;
      [assumption | unfold MAX_PER_SOURCE; lia].
Qed.

Lemma filterR_length {A} (cb : A -> result bool) (l kept : list A) :
  filterR cb l = Ok kept -> (length kept <= length l)%nat.
Proof.
  revert kept; induction l as [|x r IH]; intros kept H.
  - injection H as <-. apply Nat.le_refl.
  - cbn [filterR] in H. destruct (cb x) as [keep|]; [|discriminate].
    destruct (filterR cb r) as [kept'|]; [|discriminate].
    injection H as <-. specialize (IH kept' eq_refl).
    destruct keep; cbn [length]; lia.
Qed.

Lemma newItems_bound (w : World) :
  (forall s, (length (yield w s) <= MAX_PER_SOURCE)%nat) ->
  (length (newItems w) <= MAX_ARTICLES_PER_BATCH)%nat.
Proof.
  intros H. unfold newItems, filtered, freshItems.
  destruct (filterR _ _) as [kept|e] eqn:F; [|apply Nat.le_0_l].
  eapply Nat.le_trans; [exact (filterR_length _ _ _ F)|].
  unfold sources. cbn [map concat]. rewrite !length_app. simpl length.
  pose proof (H GoogleNews). pose proof (H ScienceDaily).
  pose proof (H MedicalNewsToday). pose proof (H PubMed).
  pose proof (H OpenAlex).
  unfold MAX_PER_SOURCE, MAX_ARTICLES_PER_BATCH in *. lia.
Qed.

(** X15.  The two limits fit: with the three feeds read by their
    adapters and at most [MAX_PER_SOURCE] items from each of the other
    two sources, a run has at most [MAX_ARTICLES_PER_BATCH] new
    candidates, so cutting the batch drops none of them: the one
    request a run may send describes every new candidate. *)
Theorem batch_limit_never_drops_a_candidate :
  forall (w0 : World) (google science medical : HttpResult),
    (length (yield w0 PubMed) <= MAX_PER_SOURCE)%nat ->
    (length (yield w0 OpenAlex) <= MAX_PER_SOURCE)%nat ->
    let w := withFeeds w0 google science medical in
    (length (newItems w) <= MAX_ARTICLES_PER_BATCH)%nat
    /\ slice0 MAX_ARTICLES_PER_BATCH (newItems w) = newItems w
    /\ (filter isPost (log (snd (run w))) = []
        \/ exists key,
             filter isPost (log (snd (run w)))
             = [PostSummarize key (renderItems (newItems w))]).
Proof.
  intros w0 google science medical Hp Ho w.
  assert (Hn : (length (newItems w) <= MAX_ARTICLES_PER_BATCH)%nat).
  { apply newItems_bound. intros s. now apply yield_withFeeds. }
  assert (Hs : slice0 MAX_ARTICLES_PER_BATCH (newItems w) = newItems w)
    by now apply firstn_all2.
  split; [exact Hn|]. split; [exact Hs|].
  destruct (run_posts w) as [E | (key & E)]; [now left|].
  right. exists key. unfold slice0 in Hs. now rewrite Hs in E.
Qed.

Lemma batch_limit_never_drops_a_candidate_witness :
  (length (newItems (withFeeds shortReplyWorld
                       (Answered true 200 sampleFeed)
                       (Answered true 200 sampleFeed)
                       (Answered false 503 [])))
   <= MAX_ARTICLES_PER_BATCH)%nat.
Proof.
  exact (proj1 (batch_limit_never_drops_a_candidate shortReplyWorld
                  (Answered true 200 sampleFeed) (Answered true 200 sampleFeed)
                  (Answered false 503 [])
                  (Nat.le_0_l _) (Nat.le_0_l _))).
Defined.

(** ** OpenAlex *)

Lemma openAlexItem_Ok (w : json) :
  nonNull w = true -> exists item, openAlexItem w = Ok item.
Proof. destruct w; try discriminate; intros _; eexists; reflexivity. Qed.

Lemma openAlexItem_null : openAlexItem JNull = Throw TypeError.
Proof. reflexivity. Qed.

Lemma mapR_length {A B} (f : A -> result B) (l : list A) :
  forall ys, mapR f l = Ok ys -> length ys = length l.
Proof.
  induction l as [|x l IH]; simpl; intros ys H.
  - now injection H as <-.
  - destruct (f x) as [y|]; [|discriminate]. simpl in H.
    destruct (mapR f l) as [zs|]; [|discriminate].
    injection H as <-. simpl. now rewrite (IH zs).
Qed.

Lemma mapR_Ok {A B} (f : A -> result B) (l : list A) :
  (exists ys, mapR f l = Ok ys) <-> Forall (fun x => exists y, f x = Ok y) l.
Proof.
  induction l as [|x l IH]; simpl.
  - split; [constructor | now exists []].
  - split.
    + intros (ys & H). destruct (f x) as [y|] eqn:F; [|discriminate].
      simpl in H. destruct (mapR f l) as [zs|] eqn:M; [|discriminate].
      constructor; [now exists y | apply IH; now exists zs].
    + intros H. inversion H as [|? ? (y & F) Hl]; subst.
      apply IH in Hl as (ys & M). exists (y :: ys). now rewrite F, M.
Qed.

(** X16.  When OpenAlex answers with success, the adapter returns items
    exactly when the body is JSON whose [results] is an array with no
    [null] among its first [MAX_PER_SOURCE] elements; it then returns one
    item for each of these elements.  A [null] further down the array
    does no harm; one among the first two loses them both. *)
Theorem openalex_reads_the_first_two_results :
  forall (status : Z) (body : jsstring),
    ((exists items, fetchOpenAlex (Answered true status body) = Gathered items)
     <-> exists data results,
           JSON_parse body = Some data
           /\ getProp (Some data) (js "results") = Ok (Some (JArr results))
           /\ forallb nonNull (firstn MAX_PER_SOURCE results) = true)
    /\ forall items,
         fetchOpenAlex (Answered true status body) = Gathered items ->
         exists data results,
           JSON_parse body = Some data
           /\ getProp (Some data) (js "results") = Ok (Some (JArr results))
           /\ mapR openAlexItem (firstn MAX_PER_SOURCE results) = Ok items
           /\ length items = Nat.min MAX_PER_SOURCE (length results).
Proof.
  intros status body.
  assert (R : forall items,
             fetchOpenAlex (Answered true status body) = Gathered items ->
             exists data results,
               JSON_parse body = Some data
               /\ getProp (Some data) (js "results") = Ok (Some (JArr results))
               /\ mapR openAlexItem (firstn MAX_PER_SOURCE results) = Ok items).
  { intros items. cbn [fetchOpenAlex negb].
    destruct (JSON_parse body) as [data|]; [|discriminate].
    unfold openAlexItems.
    destruct (getProp (Some data) (js "results")) as [[[]|]|] eqn:G;
      try discriminate.
    cbn [bindR]. unfold slice0.
    destruct (mapR openAlexItem (firstn MAX_PER_SOURCE items0)) as [l|] eqn:M;
      [|discriminate].
    intros H. injection H as <-. now exists data, items0. }
  split; [split|].
  - intros (items & H). apply R in H as (data & results & P & G & M).
    exists data, results. split; [exact P|]. split; [exact G|].
    assert (F : Forall (fun x => exists y, openAlexItem x = Ok y)
                       (firstn MAX_PER_SOURCE results))
      by (apply mapR_Ok; now exists items).
    apply forallb_forall. intros w Hw.
    rewrite Forall_forall in F. destruct (F w Hw) as (y & Hy).
    destruct w; try reflexivity. discriminate.
  - intros (data & results & P & G & N).
    assert (F : Forall (fun x => exists y, openAlexItem x = Ok y)
                       (firstn MAX_PER_SOURCE results)).
    { apply Forall_forall. intros w Hw. apply openAlexItem_Ok.
      rewrite forallb_forall in N. now apply N. }
    apply mapR_Ok in F as (items & M). exists items.
    cbn [fetchOpenAlex negb]. rewrite P. unfold openAlexItems. rewrite G.
    cbn [bindR]. unfold slice0. now rewrite M.
  - intros items H. apply R in H as (data & results & P & G & M).
    exists data, results. repeat (split; [assumption|]).
    rewrite (mapR_length _ _ _ M). apply length_firstn.
Qed.

Lemma orElse_present (v : jsval) (e d : json) :
  presentOr e d = true -> presentOr e (orElse v d) = true.
Proof.
  intros Hd. unfold orElse. destruct v as [x|]; [|exact Hd].
  destruct (truthy (Some x)) eqn:T; [|exact Hd].
  unfold presentOr. now rewrite T.
Qed.

Lemma orElse_truthy (v : jsval) (d : json) :
  truthy (Some d) = true -> truthy (Some (orElse v d)) = true.
Proof.
  intros Hd. unfold orElse. destruct v as [x|]; [|exact Hd].
  now destruct (truthy (Some x)) eqn:T.
Qed.

Lemma mapR_Forall {A B} (f : A -> result B) (P : B -> Prop) (l : list A) :
  (forall x y, f x = Ok y -> P y) ->
  forall ys, mapR f l = Ok ys -> Forall P ys.
Proof.
  intros Hf. induction l as [|x l IH]; simpl; intros ys H.
  - injection H as <-. constructor.
  - destruct (f x) as [y|] eqn:F; [|discriminate]. simpl in H.
    destruct (mapR f l) as [zs|]; [|discriminate].
    injection H as <-. constructor; [now apply (Hf x) | now apply IH].
Qed.

(** X17.  Whatever OpenAlex answers, the adapter returns at most
    [MAX_PER_SOURCE] items, and no field of an item is missing: the
    title and the source are values of the reply that count as true or
    else "Untitled" and "Academic"; the link and the date are such
    values or else the empty string. *)
Theorem openalex_items_have_every_field :
  forall res : HttpResult,
    match fetchOpenAlex res with
    | Gathered items =>
        (length items <= MAX_PER_SOURCE)%nat
        /\ Forall (fun item =>
                     truthy (Some (Work.title item)) = true
                     /\ truthy (Some (Work.source item)) = true
                     /\ presentOr (JStr []) (Work.link item) = true
                     /\ presentOr (JStr []) (Work.pubDate item) = true
                     /\ Work.origin item = js "openalex")
                  items
    | GaveUp _ => True
    end.
Proof.
  intros [m | [|] status body]; cbn [fetchOpenAlex negb]; auto.
  destruct (JSON_parse body) as [data|]; [|exact I].
  unfold openAlexItems.
  destruct (getProp (Some data) (js "results")) as [[[]|]|]; cbn [bindR]; auto.
  unfold slice0.
  destruct (mapR openAlexItem (firstn MAX_PER_SOURCE items)) as [l|] eqn:M;
    [|exact I].
  split.
  - rewrite (mapR_length _ _ _ M). apply firstn_le_length.
  - eapply mapR_Forall; [|exact M]. intros w item H.
    destruct w; try discriminate; injection H as <-;
      cbn [Work.title Work.source Work.link Work.pubDate Work.origin];
      repeat split;
      solve [ apply orElse_truthy; reflexivity
            | repeat apply orElse_present; reflexivity ].
Qed.

(** ** Running the injection twice *)

Lemma applyMode_argv (w w' : World) :
  argv w' = argv w ->
  applyMode w' = applyMode w /\ articlesJson w' = articlesJson w.
Proof. unfold applyMode, articlesJson. now intros ->. Qed.

(** X18.  Injecting the same records a second time is harmless: when a
    run with [--apply] succeeded, a later run with the same arguments on
    the file it wrote succeeds as well, writes the file once and leaves
    its content as it found it, whatever the date has become. *)
Theorem repeated_apply_is_harmless :
  forall (w w' : World) (arg : jsstring),
    applyMode w = true ->
    articlesJson w = Some arg ->
    fst (run w) = Ok tt ->
    argv w' = argv w ->
    diskWritable w' = true ->
    disk w' = file (snd (run w)) ->
    fst (run w') = Ok tt
    /\ file (snd (run w')) = file (snd (run w))
    /\ log (snd (run w')) = [WriteFile (loaded (disk w'))].
Proof.
  intros w w' arg Ha Hj Hok Hv Hw Hd.
  destruct (applyMode_argv w w' Hv) as (Ha' & Hj').
  rewrite Ha in Ha'. rewrite Hj in Hj'.
  rewrite (run_apply w' arg Ha' Hj'). rewrite (run_apply w arg Ha Hj) in *.
  destruct (JSON_parse _) as [v|]; [|discriminate].
  destruct (mergeResult w false (existingOf (disk w)) v) as [c|e] eqn:E;
    [|discriminate].
  apply mergeResult_Ok in E as (entries & l & k & He & Hi & Hm & _).
  cbn [persist snd file] in Hd. rewrite Hd.
  cbn [existingOf loaded].
  unfold mergeResult. cbn [asArray bindR]. rewrite Hi. cbn [bindR].
  rewrite (merge_twice _ _ _ _ _ _ Hm false (hebrewDate w')).
  cbn [bindR fst]. rewrite Hw. cbn. auto.
Qed.

Lemma repeated_apply_is_harmless_witness :
  fst (run lostFileWorld) = Ok tt
  /\ file (snd (run (withDisk lostFileWorld (file (snd (run lostFileWorld))))))
     = file (snd (run lostFileWorld)).
Proof.
  split; [vm_compute; reflexivity|].
  refine (proj1 (proj2 (repeated_apply_is_harmless lostFileWorld
                         (withDisk lostFileWorld (file (snd (run lostFileWorld))))
                         (jsq "--articles=[{'title':'Walk more','sourceUrl':'https://example.com/walk'}]")
                         _ _ _ _ _ _))); vm_compute; reflexivity.
Defined.

(** ** The article page *)

Lemma hasId_Ok (i : jsstring) (a : json) :
  a <> JNull ->
  hasId i a = Ok (match Entry.id a with
                  | Some (JStr s) => streq s i
                  | _ => false
                  end).
Proof.
  intros N. unfold hasId. now rewrite (field_getProp a _ N).
Qed.

Lemma relatedCard_nonnull (a : json) : relatedCard a = Ok tt -> a <> JNull.
Proof. intros H ->. discriminate. Qed.

Lemma findR_unique_id (articles : Corpus) (e : Entry.t) (i : jsstring) :
  Forall (fun a => a <> JNull) articles ->
  NoDup (map Entry.id articles) ->
  In e articles -> Entry.id e = Some (JStr i) ->
  findR (hasId i) articles = Ok (Some e).
Proof.
  induction articles as [|a articles IH]; intros N U Hin Hi; [easy|].
  inversion U as [|? ? Hn U']; subst.
  inversion N as [|? ? Na N']; subst. cbn [findR].
  rewrite (hasId_Ok i a Na).
  destruct Hin as [-> | Hin].
  - now rewrite Hi, streq_refl.
  - destruct (Entry.id a) as [[| | |j| |]|] eqn:Ej; try now apply IH.
    destruct (streq j i) eqn:Ha; [|now apply IH].
    exfalso. apply Hn. apply streq_true_iff in Ha. subst j.
    rewrite <- Hi. now apply in_map.
Qed.

Lemma filterR_others (articles : Corpus) (i : jsstring) :
  Forall (fun a => a <> JNull) articles ->
  exists others,
    filterR (fun a => bindR (hasId i a) (fun same => Ok (negb same))) articles
    = Ok others
    /\ incl others articles
    /\ forall a, In a others -> Entry.id a <> Some (JStr i).
Proof.
  induction 1 as [|a r Na _ (others & IH & Hi & Hd)].
  - exists []. split; [reflexivity|]. split; [apply incl_refl | intros ? []].
  - cbn [filterR]. rewrite (hasId_Ok i a Na). cbn [bindR]. rewrite IH.
    destruct (match Entry.id a with Some (JStr s) => streq s i | _ => false end)
      eqn:S; cbn [negb].
    + exists others. split; [reflexivity|].
      split; [intros x Hx; right; now apply Hi | exact Hd].
    + exists (a :: others). split; [reflexivity|]. split.
      * intros x [<- | Hx]; [now left | right; now apply Hi].
      * intros x [<- | Hx]; [|now apply Hd].
        intros E. rewrite E, streq_refl in S. discriminate.
Qed.

Lemma firstn_In {A} (n : nat) (l : list A) (x : A) :
  In x (firstn n l) -> In x l.
Proof.
  intros H. rewrite <- (firstn_skipn n l). apply in_or_app. now left.
Qed.

Lemma forEach_total {A} (f : A -> result unit) (l : list A) :
  Forall (fun x => f x = Ok tt) l -> forEach f l = Ok tt.
Proof.
  induction 1 as [|x r Hx _ IH]; [reflexivity|]. cbn [forEach].
  now rewrite Hx.
Qed.

Lemma decimal_nonempty (n : Z) : decimal n <> [].
Proof.
  assert (U : forall u, unitsOfUint u = [] -> u = Decimal.Nil)
    by (intros u; destruct u; cbn; congruence).
  destruct n as [|p|p]; cbn [decimal]; try discriminate.
  intros E. apply U in E. now apply N_to_uint_nonnil in E.
Qed.

Lemma renderArticle_title (a : json) :
  renderArticle a = Ok tt -> exists s, toText (field a (js "title")) = Ok s.
Proof.
  unfold renderArticle.
  destruct (getProp (Some a) (js "category")) as [c|]; [|discriminate].
  cbn [bindR]. destruct (toText c); [|discriminate]. cbn [bindR].
  destruct (toText (field a (js "title"))) as [s|]; [|discriminate].
  intros _. now exists s.
Qed.

(** X19.  Every entry a merge inserts can be opened on the article page:
    when the ids of the corpus were distinct and stay within 2^53, and
    the fields of the merged entries convert to text, looking up the id
    of a new entry in the merged corpus shows that entry and no other,
    with at most three related entries, none of which is the entry
    itself. *)
Theorem inserted_entries_open_on_the_article_page :
  forall (auto : bool) (date : nat -> jsstring) (existing : Corpus)
         (articles : list json) (corpus' : Corpus) (added : nat) (e : Entry.t)
         (max : Z),
    NoDup (map Entry.id existing) ->
    merge auto date existing articles = Ok (corpus', added) ->
    maxIdOf existing = Ok (Fin max) ->
    (max + Z.of_nat added <= two53)%Z ->
    Forall displayable corpus' ->
    In e (firstn added corpus') ->
    exists i related,
      Entry.id e = Some (JStr i)
      /\ loadArticle (JArr corpus') (Some i) = Shown e related
      /\ (length related <= 3)%nat
      /\ ~ In e related
      /\ incl related corpus'.
Proof.
  intros auto date existing articles corpus' added e max U H M B D Hin.
  pose proof (merge_ids_unique _ _ _ _ _ _ _ H M B U) as U'.
  destruct (merge_inserted _ _ _ _ _ _ H) as (m0 & chosen & M' & _ & _ & Hl & Hc).
  rewrite M in M'. injection M' as <-.
  pose proof (maxIdOf_finite_nonneg _ _ M) as Hm.
  assert (Hf : firstn added corpus' = rev (entriesOf auto date (Fin max) 0 chosen)).
  { rewrite Hc, <- Hl, <- (entriesOf_length auto date (Fin max) 0 chosen).
    apply firstn_rev_app. }
  rewrite Hf in Hin. apply in_rev in Hin.
  assert (He : In e corpus') by (rewrite Hc; apply in_or_app; left;
                                 now apply -> in_rev).
  rewrite <- Hl in B.
  destruct (entriesOf_idNumbers auto date chosen max 0 e Hm B Hin)
    as (n & Hn & Hi & _).
  assert (N : Forall (fun a => a <> JNull) corpus').
  { eapply Forall_impl; [|exact D]. intros a [_ R].
    now apply relatedCard_nonnull. }
  destruct (filterR_others corpus' (decimal n) N) as (others & Ho & Hincl & Hd).
  exists (decimal n), (slice0 3 others).
  split; [exact Hi|].
  assert (S : showArticle (JArr corpus') (decimal n)
              = Ok (Some (e, slice0 3 others))).
  { unfold showArticle. cbn [asArray bindR].
    rewrite (findR_unique_id corpus' e (decimal n) N U' He Hi). cbn [bindR].
    rewrite Forall_forall in D.
    destruct (D e He) as [Re _]. rewrite Re. cbn [bindR]. rewrite Ho.
    cbn [bindR]. rewrite forEach_total.
    - cbn [bindR]. destruct (renderArticle_title e Re) as (s & ->).
      reflexivity.
    - apply Forall_forall. intros a Ha. apply firstn_In in Ha.
      now destruct (D a (Hincl a Ha)). }
  split.
  { unfold loadArticle. rewrite S.
    destruct (decimal n) eqn:E; [now apply decimal_nonempty in E | reflexivity]. }
  split; [apply firstn_le_length|]. split.
  - intros Hr. apply firstn_In in Hr. now apply Hd in Hr.
  - intros x Hx. apply firstn_In in Hx. now apply Hincl.
Qed.

Lemma sampleMerged_displayable : Forall displayable sampleMerged.
Proof.
  apply Forall_forall. intros a Ha. vm_compute in Ha.
  destruct Ha as [<- | [<- | [<- | []]]]; split; vm_compute; reflexivity.
Qed.

Lemma inserted_entries_open_on_the_article_page_witness :
  exists e related,
    hd_error sampleMerged = Some e
    /\ loadArticle (JArr sampleMerged) (Some (js "9")) = Shown e related.
Proof.
  destruct (hd_error sampleMerged) as [e|] eqn:E; [|discriminate].
  assert (Hin : In e (firstn 2 sampleMerged)).
  { vm_compute in E. injection E as <-. vm_compute. now left. }
  assert (Hid : Entry.id e = Some (JStr (js "9"))).
  { vm_compute in E. injection E as <-. vm_compute. reflexivity. }
  destruct (inserted_entries_open_on_the_article_page false sampleClock
              sampleCorpus sampleArticles sampleMerged 2 e 7
              ltac:(vm_compute; repeat constructor; simpl; tauto) sample_merge
              sample_max ltac:(vm_compute; discriminate)
              sampleMerged_displayable Hin)
    as (i & related & Hi & H & _).
  rewrite Hid in Hi. injection Hi as <-.
  now exists e, related.
Defined.

(** ** The archive page *)

Lemma filterR_subseq {A} (f : A -> result bool) (l : list A) :
  forall shown, filterR f l = Ok shown -> subseq shown l.
Proof.
  induction l as [|x l IH]; simpl; intros shown H.
  - injection H as <-. constructor.
  - destruct (f x) as [keep|]; [|discriminate].
    destruct (filterR f l) as [kept|]; [|discriminate].
    injection H as <-. destruct keep; constructor; now apply IH.
Qed.

Lemma filterR_passed {A} (f : A -> result bool) (l : list A) :
  forall shown, filterR f l = Ok shown -> Forall (fun a => f a = Ok true) shown.
Proof.
  induction l as [|x l IH]; simpl; intros shown H.
  - injection H as <-. constructor.
  - destruct (f x) as [keep|] eqn:F; [|discriminate].
    destruct (filterR f l) as [kept|]; [|discriminate].
    injection H as <-. destruct keep; [constructor|]; auto.
Qed.

Lemma filterR_filter {A} (f : A -> result bool) (l : list A) :
  forall shown,
    filterR f l = Ok shown ->
    shown = filter (fun a => match f a with Ok true => true | _ => false end) l.
Proof.
  induction l as [|x l IH]; simpl; intros shown H.
  - now injection H as <-.
  - destruct (f x) as [keep|] eqn:F; [|discriminate].
    destruct (filterR f l) as [kept|]; [|discriminate].
    injection H as <-. rewrite <- (IH kept eq_refl). now destruct keep.
Qed.

Lemma subseq_refl {A} (l : list A) : subseq l l.
Proof. induction l; now constructor. Qed.

Lemma subseq_trans {A} (l1 l2 l3 : list A) :
  subseq l1 l2 -> subseq l2 l3 -> subseq l1 l3.
Proof.
  intros H12 H23. revert l1 H12.
  induction H23 as [|x l2 l3 H IH|x l2 l3 H IH]; intros l1 H12.
  - exact H12.
  - constructor. now apply IH.
  - inversion H12; subst; constructor; now apply IH.
Qed.

Lemma subseq_In {A} (l1 l2 : list A) (x : A) :
  subseq l1 l2 -> In x l1 -> In x l2.
Proof.
  induction 1 as [|y l1 l2 H IH|y l1 l2 H IH]; simpl; [tauto | auto |].
  intros [-> | Hx]; auto.
Qed.

Lemma trim_space (s : jsstring) : forallb isWhiteSpace s = true -> trim s = [].
Proof.
  intros H. unfold trim.
  rewrite <- (app_nil_r s), (trimStart_space s [] H). reflexivity.
Qed.

Lemma inCategory_fails (activeCategory : jsstring) (a : json) (e : Error) :
  inCategory activeCategory a = Throw e -> e = TypeError /\ a = JNull.
Proof.
  unfold inCategory. destruct a; cbn; try discriminate.
  intros H. now injection H as <-.
Qed.

Lemma lowered_fails (a : json) (k : jsstring) (e : Error) :
  lowered a k = Throw e ->
  e = TypeError /\ (a = JNull \/ asString (field a k) = Throw TypeError).
Proof.
  unfold lowered.
  destruct (getProp (Some a) k) as [v|e'] eqn:G; cbn [bindR].
  - apply getProp_field in G. subst v.
    destruct (asString (field a k)) as [s|e'] eqn:S; cbn [bindR];
      [discriminate|].
    intros H. injection H as <-. apply asString_Throw in S as ->. auto.
  - intros H. injection H as <-. split; [now apply getProp_Throw in G|].
    left. destruct a; cbn in G; congruence.
Qed.

Lemma matchesQuery_fails (query : jsstring) (a : json) (e : Error) :
  matchesQuery query a = Throw e ->
  e = TypeError
  /\ (a = JNull
      \/ asString (Entry.title a) = Throw TypeError
      \/ asString (Entry.summary a) = Throw TypeError
      \/ asString (Entry.bottomLine a) = Throw TypeError).
Proof.
  unfold matchesQuery.
  destruct (lowered a (js "title")) as [t|e'] eqn:T; cbn [bindR].
  2:{ intros H. injection H as <-.
      apply lowered_fails in T as (-> & [-> | T]); auto. }
  destruct (includesText query t); [discriminate|].
  destruct (lowered a (js "summary")) as [s|e'] eqn:S; cbn [bindR].
  2:{ intros H. injection H as <-.
      apply lowered_fails in S as (-> & [-> | S]); auto. }
  destruct (includesText query s); [discriminate|].
  destruct (lowered a (js "bottomLine")) as [b|e'] eqn:B; cbn [bindR];
    [discriminate|].
  intros H. injection H as <-.
  apply lowered_fails in B as (-> & [-> | B]); auto 6.
Qed.

Lemma archiveCard_fails (a : json) (e : Error) :
  archiveCard a = Throw e -> e = TypeError.
Proof.
  unfold archiveCard.
  destruct (getProp (Some a) (js "category")) as [c|e'] eqn:G; cbn [bindR];
    [|intros H; injection H as <-; now apply getProp_Throw in G].
  destruct (asString c) as [s|e'] eqn:S; cbn [bindR];
    [|intros H; injection H as <-; now apply asString_Throw in S].
  repeat match goal with
         | |- context [bindR (toText ?x) _] =>
             let E := fresh "E" in
             destruct (toText x) eqn:E; cbn [bindR];
             [|intros H; injection H as <-; now apply toText_Throw in E]
         end.
  discriminate.
Qed.

Lemma plain_matchesQuery (query : jsstring) (a : json) :
  plainEntry a -> exists b, matchesQuery query a = Ok b.
Proof.
  intros ((t & s & b & Ht & Hs & Hb) & C).
  assert (N : a <> JNull) by (intros ->; discriminate).
  unfold matchesQuery, lowered. rewrite !(field_getProp a _ N).
  unfold Entry.title, Entry.summary, Entry.bottomLine in *.
  rewrite Ht, Hs, Hb. cbn [bindR asString].
  destruct (includesText query (toLowerCase t)); [now eexists|].
  destruct (includesText query (toLowerCase s)); now eexists.
Qed.

Lemma plain_inCategory (activeCategory : jsstring) (a : json) :
  plainEntry a -> exists b, inCategory activeCategory a = Ok b.
Proof.
  intros (_ & C).
  assert (N : a <> JNull) by (intros ->; discriminate).
  unfold inCategory. rewrite (field_getProp a _ N). now eexists.
Qed.


Lemma splitFrom_nonempty (sep s : jsstring) :
  forall skip cur, splitFrom sep skip cur s <> [].
Proof.
  induction s as [|c r IH]; intros skip cur; cbn [splitFrom]; [discriminate|].
  destruct skip; [|apply IH].
  destruct (startsWith sep (c :: r)); [discriminate | apply IH].
Qed.

Lemma splitFrom_skipn (sep s : jsstring) :
  forall skip cur, splitFrom sep skip cur s = splitFrom sep 0 cur (skipn skip s).
Proof.
  induction s as [|c r IH]; intros skip cur.
  - now rewrite skipn_nil.
  - destruct skip; [reflexivity|]. cbn [splitFrom skipn]. apply IH.
Qed.

(** Joining what [split] returns gives the text back. *)
Lemma join_splitFrom (x : N) (sep' s : jsstring) :
  forall skip cur,
    join (x :: sep') (splitFrom (x :: sep') skip cur s) = rev cur ++ skipn skip s.
Proof.
  induction s as [|c r IH]; intros skip cur.
  - rewrite skipn_nil, app_nil_r. reflexivity.
  - destruct skip as [|k]; cbn [splitFrom skipn]; [|apply IH].
    destruct (startsWith (x :: sep') (c :: r)) eqn:E.
    + rewrite join_cons by apply splitFrom_nonempty. rewrite IH.
      apply startsWith_true_iff in E as (rest & E).
      injection E as -> ->. cbn [length rev app].
      rewrite Nat.sub_succ, Nat.sub_0_r, skipn_exact. reflexivity.
    + rewrite IH. simpl. now rewrite <- app_assoc.
Qed.

Lemma splitFrom_cur (sep s : jsstring) :
  forall cur,
    splitFrom sep 0 cur s
    = match splitFrom sep 0 [] s with
      | p :: parts => (rev cur ++ p) :: parts
      | [] => [rev cur]
      end.
Proof.
  induction s as [|c r IH]; intros cur.
  - simpl. now rewrite app_nil_r.
  - cbn [splitFrom]. destruct (startsWith sep (c :: r)).
    + simpl. now rewrite app_nil_r.
    + rewrite (IH (c :: cur)), (IH [c]).
      destruct (splitFrom sep 0 [] r); simpl; [reflexivity|].
      now rewrite <- app_assoc.
Qed.

(** The separator does not occur in the last part. *)
Lemma split_last_absent (x : N) (sep' : jsstring) (n : nat) :
  forall s, (length s <= n)%nat ->
            absent (x :: sep') (last (split (x :: sep') s) []) = true.
Proof.
  induction n as [|n IH]; intros s Hn.
  - destruct s; [reflexivity | simpl in Hn; lia].
  - destruct s as [|c r]; [reflexivity|]. unfold split. cbn [splitFrom].
    destruct (startsWith (x :: sep') (c :: r)) eqn:E.
    + rewrite splitFrom_skipn.
      pose proof (splitFrom_nonempty (x :: sep') (skipn (length (x :: sep') - 1) r)
                    0 []) as Hne.
      assert (Hl : (length (skipn (length (x :: sep') - 1) r) <= n)%nat)
        by (rewrite length_skipn; simpl in Hn; lia).
      specialize (IH _ Hl). unfold split in IH.
      destruct (splitFrom (x :: sep') 0 [] (skipn (length (x :: sep') - 1) r));
        [congruence | exact IH].
    + rewrite splitFrom_cur.
      assert (Hl : (length r <= n)%nat) by (simpl in Hn; lia).
      specialize (IH r Hl). unfold split in IH.
      pose proof (join_splitFrom x sep' r 0 []) as J.
      destruct (splitFrom (x :: sep') 0 [] r) as [|p [|q parts]] eqn:S.
      * now apply splitFrom_nonempty in S.
      * simpl in J. subst p. cbn [rev app last] in *.
        cbn [absent]. now rewrite E, IH.
      * exact IH.
Qed.

Lemma join_app_last (sep : jsstring) (init : list jsstring) (l : jsstring) :
  init <> [] -> join sep (init ++ [l]) = join sep init ++ sep ++ l.
Proof.
  induction init as [|p init IH]; [congruence|]. intros _.
  destruct init as [|q init]; [reflexivity|].
  change ((p :: q :: init) ++ [l]) with (p :: ((q :: init) ++ [l])).
  rewrite join_cons by discriminate. rewrite IH by discriminate.
  rewrite (join_cons sep p (q :: init)) by discriminate.
  now rewrite <- !app_assoc.
Qed.

(** X21.  [fetchGoogleNews] loses nothing of a title: for every item,
    either the title holds no [" - "], and it is kept whole under the
    publisher "Google News"; or it is a headline, the separator and a
    publisher that holds no separator, the item carrying the trimmed
    publisher and the trimmed headline (the whole title when there is
    nothing in front of the separator). *)
Theorem google_item_keeps_the_whole_title :
  forall item : Rss.t,
    (absent dash (Rss.title item) = true
     /\ googleItem item
        = Item.mk (trim (Rss.title item)) (js "Google News")
                  (Rss.link item) (Rss.pubDate item) (js "google-news"))
    \/ exists headline publisher,
         Rss.title item = headline ++ dash ++ publisher
         /\ absent dash publisher = true
         /\ googleItem item
            = Item.mk (trim (match headline with
                             | [] => Rss.title item
                             | _ => headline
                             end))
                      (trim publisher)
                      (Rss.link item) (Rss.pubDate item) (js "google-news").
Proof.
  intros item. unfold googleItem.
  pose proof (join_splitFrom 32 (js "- ") (Rss.title item) 0 []) as J.
  pose proof (split_last_absent 32 (js "- ") _ (Rss.title item) (le_n _)) as A.
  change (32 :: js "- ") with dash in *. fold (split dash (Rss.title item)) in J.
  cbn [rev app skipn] in J.
  destruct (split dash (Rss.title item)) as [|p parts] eqn:S;
    [now apply splitFrom_nonempty in S|].
  destruct (exists_last (l := p :: parts) ltac:(discriminate))
    as (init & publisher & E).
  rewrite E in *. rewrite last_last in A. rewrite removelast_last, last_last.
  rewrite length_app. destruct init as [|h init].
  - left. simpl in J. subst publisher. split; [exact A | reflexivity].
  - right. rewrite join_app_last in J by discriminate.
    exists (join dash (h :: init)), publisher.
    split; [now symmetry|]. split; [exact A|].
    replace (1 <? length (h :: init) + length [publisher])%nat with true
      by (symmetry; apply Nat.ltb_lt; simpl; lia).
    cbv zeta. now destruct (join dash (h :: init)).
Qed.
